(** * eventful-call-trace: stitching receipt logs into a callTracer tree

    A shallow embedding of [src/lib/stitch-receipt-logs-into-calltracer.ts]
    and the properties of its four components: the event-path deriver
    ([deriveEventPathsRevertAware]), the call-tree indexer
    ([annotateCallPaths]), the stitcher ([stitchLogsIntoCallTrace]) and the
    enricher ([enrichTraceWithCallAndEventDetails]).

    Conventions of the embedding.
    - JavaScript numbers that count things (child indices, event indices,
      program counters) are [nat]; the declared call depth of a step is a [Z],
      so that depths below the 1-based range can be written down.
    - Strings are Rocq strings; [toLowerCase] is modelled on ASCII letters,
      which covers hexadecimal addresses.
    - A JavaScript run ends in a value, in a [TypeError] (a property read on
      [undefined]), in a thrown [Error], or not at all; [outcome] has one
      constructor for each. *)

From Stdlib Require Import ZArith String Ascii List Lia.
From Stdlib Require Import DecimalString DecimalNat DecimalFacts.
From stdpp Require Import gmap strings list fin_maps.

Local Open Scope string_scope.
Local Open Scope list_scope.
Local Open Scope Z_scope.

(** ** Outcomes of a JavaScript computation *)

Inductive outcome (A : Type) : Type :=
| Ok (a : A)
| TypeError
| Thrown (msg : string)
| Diverges.

Arguments Ok {A} a.
Arguments TypeError {A}.
Arguments Thrown {A} msg.
Arguments Diverges {A}.

#[global] Instance outcome_ret : MRet outcome := fun A a => Ok a.

#[global] Instance outcome_bind : MBind outcome := fun A B k m =>
  match m with
  | Ok a => k a
  | TypeError => TypeError
  | Thrown msg => Thrown msg
  | Diverges => Diverges
  end.

(** ** Input and output records of the deriver *)

Record StructLogStep : Type := mkStep {
  op : string;
  depth : Z;
  pc : nat
}.

Record EventPath : Type := mkEventPath {
  ep_op : string;
  ep_pc : nat;
  ep_depth : Z;
  callPath : list nat;
  eventIdxInCall : nat
}.

(** The local [Frame] type of [deriveEventPathsRevertAware]. *)
Record Frame : Type := mkFrame {
  path : list nat;
  nextChild : nat;
  logsIdx : list nat;
  reverted : bool
}.

(** An entry of the local [events] array; [dropped] is [false] while the
    optional field is unset. *)
Record ProvEvent : Type := mkProvEvent {
  ev_op : string;
  ev_pc : nat;
  ev_depth : Z;
  ev_callPath : list nat;
  dropped : bool
}.

(** The mutable locals of the main loop.  [frames] is kept as a stack with
    its TOP FIRST: the JavaScript array element [frames[k]] is
    [frame_at frames k], and [frames[frames.length - 1]] is the head. *)
Record DeriveState : Type := mkState {
  frames : list Frame;
  prevDepth : Z;
  pending : option (nat * nat);   (* parentIdx, reservedIdx *)
  events : list ProvEvent
}.

Definition frame_at (fs : list Frame) (k : nat) : option Frame := reverse fs !! k.

Definition root_frame : Frame :=
  {| path := []; nextChild := 0; logsIdx := []; reverted := false |}.

Definition ENTER (o : string) : bool :=
  existsb (String.eqb o)
    ["CALL"; "STATICCALL"; "DELEGATECALL"; "CALLCODE"; "CREATE"; "CREATE2"].

Definition is_LOG (o : string) : bool := String.prefix "LOG" o.

Definition is_REVERT (o : string) : bool := String.eqb o "REVERT".

(** ** One iteration of the main loop, phase by phase *)

(** [if (pending) { if (d > prevDepth) frames.push(...); pending = null }] *)
Definition resolve_pending (d : Z) (st : DeriveState) : outcome DeriveState :=
  match pending st with
  | Some (parent, idx) =>
      if prevDepth st <? d then
        match frame_at (frames st) parent with
        | Some pf =>
            Ok {| frames := {| path := path pf ++ [idx]; nextChild := 0;
                               logsIdx := []; reverted := false |} :: frames st;
                  prevDepth := prevDepth st; pending := None;
                  events := events st |}
        | None => TypeError
        end
      else Ok {| frames := frames st; prevDepth := prevDepth st;
                 pending := None; events := events st |}
  | None => Ok st
  end.

Definition set_dropped (e : ProvEvent) : ProvEvent :=
  {| ev_op := ev_op e; ev_pc := ev_pc e; ev_depth := ev_depth e;
     ev_callPath := ev_callPath e; dropped := true |}.

(** [for (const idx of f.logsIdx) events[idx].dropped = true] *)
Fixpoint mark_dropped (idxs : list nat) (evs : list ProvEvent)
  : outcome (list ProvEvent) :=
  match idxs with
  | [] => Ok evs
  | i :: rest =>
      match evs !! i with
      | Some e => mark_dropped rest (<[i := set_dropped e]> evs)
      | None => TypeError
      end
  end.

(** [while (frames.length - 1 > d - 1) { const f = frames.pop(); ... }].
    On the empty array [pop] returns [undefined] and changes nothing, so a
    condition that still holds there holds forever. *)
Fixpoint pop_frames (d : Z) (fs : list Frame) (evs : list ProvEvent)
  : outcome (list Frame * list ProvEvent) :=
  match fs with
  | [] => if d - 1 <? 0 - 1 then Diverges else Ok ([], evs)
  | f :: rest =>
      if d - 1 <? Z.of_nat (length fs) - 1 then
        evs' ← (if reverted f then mark_dropped (logsIdx f) evs else Ok evs);
        pop_frames d rest evs'
      else Ok (fs, evs)
  end.

Definition pop_phase (d : Z) (st : DeriveState) : outcome DeriveState :=
  '(fs, evs) ← pop_frames d (frames st) (events st);
  Ok {| frames := fs; prevDepth := prevDepth st; pending := pending st;
        events := evs |}.

(** [if (ENTER.has(op)) { ... frames[parentIdx].nextChild += 1; pending = ... }] *)
Definition enter_phase (o : string) (st : DeriveState) : outcome DeriveState :=
  if ENTER o then
    match frames st with
    | f :: rest =>
        Ok {| frames := {| path := path f; nextChild := nextChild f + 1;
                           logsIdx := logsIdx f; reverted := reverted f |} :: rest;
              prevDepth := prevDepth st;
              pending := Some ((length (frames st) - 1)%nat, nextChild f);
              events := events st |}
    | [] => TypeError
    end
  else Ok st.

(** [if (op.startsWith("LOG")) { cur.logsIdx.push(evIdx); events.push(...) }] *)
Definition log_phase (s : StructLogStep) (st : DeriveState) : outcome DeriveState :=
  if is_LOG (op s) then
    match frames st with
    | cur :: rest =>
        Ok {| frames := {| path := path cur; nextChild := nextChild cur;
                           logsIdx := logsIdx cur ++ [length (events st)];
                           reverted := reverted cur |} :: rest;
              prevDepth := prevDepth st; pending := pending st;
              events := events st ++
                [{| ev_op := op s; ev_pc := pc s; ev_depth := depth s;
                    ev_callPath := path cur; dropped := false |}] |}
    | [] => TypeError
    end
  else Ok st.

(** [if (op === "REVERT") frames[frames.length - 1].reverted = true] *)
Definition revert_phase (o : string) (st : DeriveState) : outcome DeriveState :=
  if is_REVERT o then
    match frames st with
    | f :: rest =>
        Ok {| frames := {| path := path f; nextChild := nextChild f;
                           logsIdx := logsIdx f; reverted := true |} :: rest;
              prevDepth := prevDepth st; pending := pending st;
              events := events st |}
    | [] => TypeError
    end
  else Ok st.

Definition set_prevDepth (d : Z) (st : DeriveState) : DeriveState :=
  {| frames := frames st; prevDepth := d; pending := pending st;
     events := events st |}.

(** The part of an iteration that settles which frame is current: the
    pending reservation is resolved and finished frames are popped. *)
Definition settle (s : StructLogStep) (st : DeriveState) : outcome DeriveState :=
  st1 ← resolve_pending (depth s) st;
  pop_phase (depth s) st1.

(** The step's own effects on the settled state. *)
Definition effects (s : StructLogStep) (st : DeriveState) : outcome DeriveState :=
  st3 ← enter_phase (op s) st;
  st4 ← log_phase s st3;
  st5 ← revert_phase (op s) st4;
  Ok (set_prevDepth (depth s) st5).

Definition step (s : StructLogStep) (st : DeriveState) : outcome DeriveState :=
  st2 ← settle s st;
  effects s st2.

Fixpoint run (steps : list StructLogStep) (st : DeriveState) : outcome DeriveState :=
  match steps with
  | [] => Ok st
  | s :: rest => st' ← step s st; run rest st'
  end.

Definition init_state (steps : list StructLogStep) : DeriveState :=
  {| frames := [root_frame];
     prevDepth := match steps with s :: _ => depth s | [] => 1 end;
     pending := None;
     events := [] |}.

(** ** Finalisation: per-path ordinals for the retained records *)

(** [String(n)] for a non-negative integer. *)
Definition show_nat (n : nat) : string := NilZero.string_of_uint (Nat.to_uint n).

(** [callPath.join("/")] *)
Definition path_key (p : list nat) : string := String.concat "/" (show_nat <$> p).

Fixpoint assign_ordinals (evs : list ProvEvent) (counters : gmap string nat)
  : list EventPath :=
  match evs with
  | [] => []
  | e :: rest =>
      if dropped e then assign_ordinals rest counters
      else
        let key := path_key (ev_callPath e) in
        let n := default 0%nat (counters !! key) in
        {| ep_op := ev_op e; ep_pc := ev_pc e; ep_depth := ev_depth e;
           callPath := ev_callPath e; eventIdxInCall := n |}
        :: assign_ordinals rest (<[key := (n + 1)%nat]> counters)
  end.

Definition deriveEventPathsRevertAware (steps : list StructLogStep)
  : outcome (list EventPath) :=
  st ← run steps (init_state steps);
  Ok (assign_ordinals (events st) ∅).

(** Steps whose declared depth is in the 1-based range of the trace format. *)
Definition depths_ok (steps : list StructLogStep) : Prop :=
  Forall (fun s => 1 <= depth s) steps.

(** ** Vocabulary for the deriver's properties *)

(** The trace of a run: each processed step paired with the path of the frame
    that is on top of the stack when the step's own effects are applied (after
    the pending reservation is resolved and finished frames are popped). *)
Fixpoint history_from (st : DeriveState) (steps : list StructLogStep)
  : list (StructLogStep * list nat) :=
  match steps with
  | [] => []
  | s :: rest =>
      match settle s st with
      | Ok st2 =>
          match frames st2 with
          | cur :: _ =>
              (s, path cur) ::
              match effects s st2 with
              | Ok st' => history_from st' rest
              | _ => []
              end
          | [] => []
          end
      | _ => []
      end
  end.

Definition history (steps : list StructLogStep) : list (StructLogStep * list nat) :=
  history_from (init_state steps) steps.

Definition is_log_entry (x : StructLogStep * list nat) : Prop := is_LOG (op x.1) = true.
Definition is_revert_entry (x : StructLogStep * list nat) : Prop := is_REVERT (op x.1) = true.

#[global] Instance is_log_entry_dec x : Decision (is_log_entry x) := _.
#[global] Instance is_revert_entry_dec x : Decision (is_revert_entry x) := _.

(** Paths of the frames in which a REVERT step was processed. *)
Definition reverted_paths (h : list (StructLogStep * list nat)) : list (list nat) :=
  snd <$> filter is_revert_entry h.

(** Paths of the frames on the stack. *)
Definition live_paths (st : DeriveState) : list (list nat) := path <$> frames st.

(** The frame with path [p] processed a REVERT and has been popped. *)
Definition discarded (h : list (StructLogStep * list nat)) (st : DeriveState)
  (p : list nat) : Prop :=
  p ∈ reverted_paths h ∧ p ∉ live_paths st.

#[global] Instance discarded_dec h st p : Decision (discarded h st p) := _.

(** What an output record and a provisional record say about the step. *)
Definition ep_core (r : EventPath) : string * nat * Z * list nat :=
  (ep_op r, ep_pc r, ep_depth r, callPath r).
Definition ev_core (e : ProvEvent) : string * nat * Z * list nat :=
  (ev_op e, ev_pc e, ev_depth e, ev_callPath e).
Definition entry_core (x : StructLogStep * list nat) : string * nat * Z * list nat :=
  (op x.1, pc x.1, depth x.1, x.2).

(** Depth-first (lexicographic) order on paths: a path precedes its
    extensions and everything below a later sibling. *)
Inductive plt : list nat -> list nat -> Prop :=
| plt_nil x q : plt [] (x :: q)
| plt_lt a b p q : (a < b)%nat -> plt (a :: p) (b :: q)
| plt_cons a p q : plt p q -> plt (a :: p) (a :: q).

(** The path the next confirmed child of the current frame would get. *)
Definition frontier (st : DeriveState) : list nat :=
  match frames st with
  | top :: _ =>
      path top ++ [match pending st with
                   | Some (_, idx) => idx
                   | None => nextChild top
                   end]
  | [] => []
  end.

(** Every frame above the root is the latest child of the frame below it. *)
Fixpoint chain (fs : list Frame) : Prop :=
  match fs with
  | [] => False
  | c :: rest =>
      match rest with
      | [] => path c = []
      | p :: _ => path c = path p ++ [(nextChild p - 1)%nat]
                  ∧ (0 < nextChild p)%nat ∧ chain rest
      end
  end.

(** The provisional record [e] is the one of the LOG entry [x] of the trace. *)
Definition event_of (h : list (StructLogStep * list nat)) (st : DeriveState)
  (e : ProvEvent) (x : StructLogStep * list nat) : Prop :=
  ev_core e = entry_core x ∧ (dropped e = true ↔ discarded h st x.2).

(** The invariant of the main loop, relative to the trace [h] so far. *)
Record Inv (h : list (StructLogStep * list nat)) (st : DeriveState) : Prop := mkInv {
  inv_chain : chain (frames st);
  inv_pending : ∀ p idx, pending st = Some (p, idx) →
      p = (length (frames st) - 1)%nat
      ∧ ∃ top rest, frames st = top :: rest ∧ nextChild top = (idx + 1)%nat;
  inv_events : Forall2 (event_of h st) (events st) (filter is_log_entry h);
  inv_reverted : ∀ f, f ∈ frames st → reverted f = true ↔ path f ∈ reverted_paths h;
  inv_logsIdx : ∀ f k, f ∈ frames st →
      k ∈ logsIdx f ↔ ∃ e, events st !! k = Some e ∧ ev_callPath e = path f;
  inv_fresh : ∀ x, x ∈ h → plt x.2 (frontier st)
}.

(** The effect of [mark_dropped] when every index is in range. *)
Definition drop_at (idxs : list nat) (evs : list ProvEvent) : list ProvEvent :=
  imap (fun k e => if decide (k ∈ idxs) then set_dropped e else e) evs.

(** A string without the separator of [path_key]. *)
Fixpoint slash_free (s : string) : Prop :=
  match s with
  | EmptyString => True
  | String c s' => c ≠ "/"%char ∧ slash_free s'
  end.

(** Number of records of [l] that carry the call path [p]. *)
Definition count_path (p : list nat) (l : list EventPath) : nat :=
  length (filter (fun r => callPath r = p) l).

(** The trace of the scenario in the specification: a call whose frame
    logs once and then reverts. *)
Definition reverting_call_trace : list StructLogStep :=
  [mkStep "CALL" 1 0; mkStep "LOG1" 2 0; mkStep "REVERT" 2 1; mkStep "STOP" 1 1].

(** Two logs in the top-level call around a call that logs once. *)
Definition logging_call_trace : list StructLogStep :=
  [mkStep "LOG0" 1 0; mkStep "CALL" 1 1; mkStep "LOG2" 2 0; mkStep "RETURN" 2 1;
   mkStep "LOG1" 1 2; mkStep "STOP" 1 3].

Definition ple (p q : list nat) : Prop := p = q ∨ plt p q.

(** The frame a confirmed reservation pushes, and whether the step at depth
    [d] confirms the reservation pending in [st]. *)
Definition confirmed (d : Z) (st : DeriveState) : bool :=
  match pending st with
  | Some _ => prevDepth st <? d
  | None => false
  end.

Definition child_frame (st : DeriveState) : Frame :=
  {| path := frontier st; nextChild := 0; logsIdx := []; reverted := false |}.

(** [st'] is reached from [st] by processing steps: the frontier only moves
    forward, and a frame on the later stack was either on the earlier one or
    has a path at or beyond the earlier frontier. *)
Definition advances (st st' : DeriveState) : Prop :=
  ple (frontier st) (frontier st')
  ∧ ∀ q, q ∈ live_paths st' → q ∈ live_paths st ∨ ple (frontier st) q.

(** A call to an address without code between two logs, then a real call. *)
Definition zero_step_trace : list StructLogStep :=
  [mkStep "CALL" 1 0; mkStep "LOG1" 1 1; mkStep "CALL" 1 2; mkStep "LOG1" 2 0;
   mkStep "STOP" 1 3].

(** ** Receipt logs and the call tree *)

Record ReceiptLog : Type := mkReceiptLog {
  address : string;
  topics : list string;
  data : string;
  logIndex : option (string + nat)
}.

(** Receipt logs are objects: the array [receipt.logs] and the [logs] arrays
    of the call nodes hold references to them.  [log_object] is the object
    behind a reference, [receipt_logs] the array [receipt.logs]. *)
Definition loc : Type := nat.

Record LogMemory : Type := mkLogMemory {
  log_object : loc -> ReceiptLog;
  receipt_logs : list loc
}.

(** A callTracer node; [L] is what its [logs] array holds.  An absent
    optional field is [None]. *)
#[local] Unset Elimination Schemes.
Inductive CallNode (L : Type) : Type := mkCallNode {
  method : option string;
  type : option string;
  from : option string;
  to : option string;
  input : option string;
  output : option string;
  value : option string;
  gas : option string;
  gasUsed : option string;
  calls : option (list (CallNode L));
  logs : option (list L);
  _path : option (list nat)
}.
#[local] Set Elimination Schemes.

Arguments mkCallNode {L}.
Arguments method {L}.
Arguments type {L}.
Arguments from {L}.
Arguments to {L}.
Arguments input {L}.
Arguments output {L}.
Arguments value {L}.
Arguments gas {L}.
Arguments gasUsed {L}.
Arguments calls {L}.
Arguments logs {L}.
Arguments _path {L}.

(** [CallTracerRoot]: a single node or an array of top-level calls. *)
Inductive CallTracerRoot (L : Type) : Type :=
| Single (n : CallNode L)
| Forest (ns : list (CallNode L)).

Arguments Single {L}.
Arguments Forest {L}.

Definition with_path {L} (p : list nat) (n : CallNode L) : CallNode L :=
  mkCallNode (method n) (type n) (from n) (to n) (input n) (output n) (value n)
    (gas n) (gasUsed n) (calls n) (logs n) (Some p).

Definition with_calls {L} (c : option (list (CallNode L))) (n : CallNode L)
  : CallNode L :=
  mkCallNode (method n) (type n) (from n) (to n) (input n) (output n) (value n)
    (gas n) (gasUsed n) c (logs n) (_path n).

Definition with_logs {L L'} (l : option (list L')) (n : CallNode L) (c : option (list (CallNode L')))
  : CallNode L' :=
  mkCallNode (method n) (type n) (from n) (to n) (input n) (output n) (value n)
    (gas n) (gasUsed n) c l (_path n).

Definition with_method {L} (m : option string) (n : CallNode L) : CallNode L :=
  mkCallNode m (type n) (from n) (to n) (input n) (output n) (value n)
    (gas n) (gasUsed n) (calls n) (logs n) (_path n).

(** ** The call-tree indexer *)

(** A node of the tree is referred to by its position: the child indices
    leading to it (from the single root, or from the array of roots).  The
    JavaScript [Map] from keys to node references is an insertion-ordered
    list of keys and positions. *)
Definition PathMap : Type := list (string * list nat).

Fixpoint map_set (key : string) (pos : list nat) (m : PathMap) : PathMap :=
  match m with
  | [] => [(key, pos)]
  | (k, v) :: rest =>
      if String.eqb k key then (k, pos) :: rest else (k, v) :: map_set key pos rest
  end.

Fixpoint map_get (key : string) (m : PathMap) : option (list nat) :=
  match m with
  | [] => None
  | (k, v) :: rest => if String.eqb k key then Some v else map_get key rest
  end.

Fixpoint node_at {L} (n : CallNode L) (pos : list nat) : option (CallNode L) :=
  match pos with
  | [] => Some n
  | i :: pos' =>
      match calls n with
      | Some kids =>
          match kids !! i with
          | Some k => node_at k pos'
          | None => None
          end
      | None => None
      end
  end.

Definition root_at {L} (root : CallTracerRoot L) (pos : list nat)
  : option (CallNode L) :=
  match root with
  | Single n => node_at n pos
  | Forest ns =>
      match pos with
      | [] => None
      | i :: pos' =>
          match ns !! i with
          | Some n => node_at n pos'
          | None => None
          end
      end
  end.

(** In-place update of the node at a position. *)
Fixpoint update_at {L} (f : CallNode L -> CallNode L) (n : CallNode L)
  (pos : list nat) : option (CallNode L) :=
  match pos with
  | [] => Some (f n)
  | i :: pos' =>
      match calls n with
      | Some kids =>
          match kids !! i with
          | Some k =>
              match update_at f k pos' with
              | Some k' => Some (with_calls (Some (<[i := k']> kids)) n)
              | None => None
              end
          | None => None
          end
      | None => None
      end
  end.

Definition update_root {L} (f : CallNode L -> CallNode L) (root : CallTracerRoot L)
  (pos : list nat) : option (CallTracerRoot L) :=
  match root with
  | Single n => Single <$> update_at f n pos
  | Forest ns =>
      match pos with
      | [] => None
      | i :: pos' =>
          match ns !! i with
          | Some n =>
              match update_at f n pos' with
              | Some n' => Some (Forest (<[i := n']> ns))
              | None => None
              end
          | None => None
          end
      end
  end.

(** [for (let i = 0; i < kids.length; i++) visit(kids[i], [...prefix, i])],
    from the index [j] on; [v] is [visit]. *)
Definition visit_list {L}
  (v : CallNode L -> list nat -> PathMap -> CallNode L * PathMap)
  (prefix : list nat)
  : list (CallNode L) -> nat -> PathMap -> list (CallNode L) * PathMap :=
  fix go (ks : list (CallNode L)) (j : nat) (pm : PathMap) :=
    match ks with
    | [] => ([], pm)
    | k :: ks' =>
        let '(k', pm') := v k (prefix ++ [j]) pm in
        let '(ks'', pm'') := go ks' (S j) pm' in
        (k' :: ks'', pm'')
    end.

(** [visit(node, prefix)] of [annotateCallPaths]: the node gets its [_path],
    the map an entry for the joined path, and the children are visited. *)
Fixpoint visit {L} (node : CallNode L) (prefix : list nat) (pm : PathMap)
  : CallNode L * PathMap :=
  let pm1 := map_set (path_key prefix) prefix pm in
  match node with
  | mkCallNode m t f o i ou v g gu (Some kids) l _ =>
      let '(kids', pm2) := visit_list visit prefix kids 0%nat pm1 in
      (mkCallNode m t f o i ou v g gu (Some kids') l (Some prefix), pm2)
  | mkCallNode m t f o i ou v g gu None l _ =>
      (mkCallNode m t f o i ou v g gu None l (Some prefix), pm1)
  end.

(** A single root is registered at the empty path, the i-th root of an
    array at [[i]]. *)
Definition annotateCallPaths {L} (root : CallTracerRoot L)
  : CallTracerRoot L * PathMap :=
  match root with
  | Single n => let '(n', pm) := visit n [] [] in (Single n', pm)
  | Forest ns => let '(ns', pm) := visit_list visit [] ns 0%nat [] in (Forest ns', pm)
  end.

(** ** The stitcher *)

Definition lower_ascii (c : ascii) : ascii :=
  let n := nat_of_ascii c in
  if (65 <=? n)%nat && (n <=? 90)%nat then ascii_of_nat (n + 32) else c.

Fixpoint toLowerCase (s : string) : string :=
  match s with
  | EmptyString => EmptyString
  | String c r => String (lower_ascii c) (toLowerCase r)
  end.

(** A string in a condition: the empty string is falsy. *)
Definition truthy (s : string) : bool := negb (String.eqb s "").

Definition expectedLogAddressForNode {L} (n : CallNode L) : option string :=
  match type n with
  | Some t =>
      if String.eqb t "DELEGATECALL" || String.eqb t "CALLCODE"
      then toLowerCase <$> from n
      else toLowerCase <$> to n
  | None => toLowerCase <$> to n
  end.

Definition nl : string := String (ascii_of_nat 10) EmptyString.

(** The four kinds of warning lines. *)
Definition count_mismatch_warning (E L : nat) : string :=
  "events from structLogs (" +:+ show_nat E +:+ ") != receipt logs ("
  +:+ show_nat L +:+ "). Will attach sequentially.".

Definition no_node_warning (key : string) (li : nat) : string :=
  "no callTracer node for path [" +:+ key +:+ "] at receipt log #" +:+ show_nat li.

Definition address_mismatch_warning (key expected got : string) (li : nat) : string :=
  "address mismatch at path [" +:+ key +:+ "]: expected " +:+ expected
  +:+ ", got " +:+ got +:+ " (log #" +:+ show_nat li +:+ ")".

Definition leftover_warning (li : nat) : string :=
  "leftover receipt log #" +:+ show_nat li +:+ " not mapped".

(** The condition of the address sanity check:
    [expectedAddr && log.address && expectedAddr !== log.address.toLowerCase()]. *)
Definition address_disagrees (expected : option string) (addr : string) : bool :=
  match expected with
  | Some ex => truthy ex && truthy addr && negb (String.eqb ex (toLowerCase addr))
  | None => false
  end.

(** What the stitcher changes as it runs: the tree, the warnings, and the
    memory of the receipt logs. *)
Record StitchState : Type := mkStitchState {
  tree : CallTracerRoot loc;
  warnings : list string;
  memory : LogMemory
}.

(** [node.logs = []] *)
Definition clear_logs (n : CallNode loc) : CallNode loc :=
  with_logs (Some []) n (calls n).

(** [(node.logs as ReceiptLog[]).push(log)]: a [TypeError] when the field is
    not set. *)
Definition push_log (l : loc) (root : CallTracerRoot loc) (pos : list nat)
  : outcome (CallTracerRoot loc) :=
  match root_at root pos with
  | Some n =>
      match logs n with
      | Some ls =>
          match update_root (fun n => with_logs (Some (ls ++ [l])) n (calls n)) root pos with
          | Some root' => Ok root'
          | None => TypeError
          end
      | None => TypeError
      end
  | None => TypeError
  end.

(** [for (const [, node] of pathMap) node.logs = []] *)
Fixpoint init_logs (pm : PathMap) (root : CallTracerRoot loc)
  : outcome (CallTracerRoot loc) :=
  match pm with
  | [] => Ok root
  | (_, pos) :: rest =>
      match update_root clear_logs root pos with
      | Some root' => init_logs rest root'
      | None => TypeError
      end
  end.

(** The body of the attachment loop for the pair number [li]. *)
Definition attach_one (pm : PathMap) (li : nat) (e : EventPath) (st : StitchState)
  : outcome StitchState :=
  let key := path_key (callPath e) in
  match map_get key pm with
  | None =>
      Ok {| tree := tree st;
            warnings := warnings st ++ [no_node_warning key li];
            memory := memory st |}
  | Some pos =>
      match root_at (tree st) pos, receipt_logs (memory st) !! li with
      | Some node, Some l =>
          let log := log_object (memory st) l in
          let expectedAddr := expectedLogAddressForNode node in
          let ws :=
            if address_disagrees expectedAddr (address log) then
              warnings st ++
                [address_mismatch_warning key (default "" expectedAddr)
                   (toLowerCase (address log)) li]
            else warnings st in
          root' ← push_log l (tree st) pos;
          Ok {| tree := root'; warnings := ws; memory := memory st |}
      | _, _ => TypeError
      end
  end.

(** [for (let i = 0; i < events.length && li < logs.length; i++, li++)],
    from the pair number [li] on; returns the final [li]. *)
Fixpoint attach_loop (pm : PathMap) (li : nat) (evs : list EventPath) (st : StitchState)
  : outcome (StitchState * nat) :=
  match evs with
  | [] => Ok (st, li)
  | e :: evs' =>
      if (li <? length (receipt_logs (memory st)))%nat then
        st' ← attach_one pm li e st;
        attach_loop pm (S li) evs' st'
      else Ok (st, li)
  end.

(** [for (; li < logs.length; li++) warnings.push(...)] *)
Definition leftover_loop (li : nat) (st : StitchState) : StitchState :=
  {| tree := tree st;
     warnings := warnings st ++
       (leftover_warning <$> seq li (length (receipt_logs (memory st)) - li));
     memory := memory st |}.

(** The stitch up to the decision to fail or to return. *)
Definition stitch_walk (callsFromCallTracer : CallTracerRoot loc)
  (structLogs : list StructLogStep) (mem : LogMemory) : outcome StitchState :=
  events ← deriveEventPathsRevertAware structLogs;
  let '(root, pathMap) := annotateCallPaths callsFromCallTracer in
  let ws :=
    if negb (length events =? length (receipt_logs mem))%nat
    then [count_mismatch_warning (length events) (length (receipt_logs mem))]
    else [] in
  root' ← init_logs pathMap root;
  '(st, li) ← attach_loop pathMap 0 events
                {| tree := root'; warnings := ws; memory := mem |};
  Ok (leftover_loop li st).

Definition error_message (ws : list string) : string :=
  "Warnings during stitchLogsIntoCallTrace:" +:+ nl +:+ String.concat nl ws.

(** [stitchLogsIntoCallTrace]: the result [{ root, warnings }] together with
    the memory of the receipt logs as the call leaves it. *)
Definition stitchLogsIntoCallTrace (callsFromCallTracer : CallTracerRoot loc)
  (structLogs : list StructLogStep) (mem : LogMemory) (suppressWarnings : bool)
  : outcome StitchState :=
  st ← stitch_walk callsFromCallTracer structLogs mem;
  if (0 <? length (warnings st))%nat && negb suppressWarnings
  then Thrown (error_message (warnings st))
  else Ok st.

(** ** The enricher *)

(** What [parseEvent] returns: [{ name, params }] for a topic with a parser,
    [{ topics, data }] otherwise.  [P] is the type of the parsers' results. *)
Inductive ParsedEvent (P : Type) : Type :=
| Decoded (name : string) (params : P)
| Undecoded (topics : list string) (data : string).

Arguments Decoded {P}.
Arguments Undecoded {P}.

(** [{ ...log, parsed }]: a new object with the log's fields and [parsed]. *)
Record EnrichedLog (P : Type) : Type := mkEnrichedLog {
  fields : ReceiptLog;
  parsed : ParsedEvent P
}.

Arguments mkEnrichedLog {P}.
Arguments fields {P}.
Arguments parsed {P}.

Section Enricher.
Context {P : Type}.
Variable selectors : gmap string string.
Variable topic_table : gmap string (string * (ReceiptLog -> P)).
Variable mem : LogMemory.

Definition getMethodName (inp : string) : string :=
  if negb (truthy inp) || (String.length inp <? 10)%nat then "unknown"
  else
    let selector := substring 0 10 inp in
    match selectors !! selector with
    | Some name => name
    | None => selector
    end.

(** [topics[log.topics[0]]]: a missing first topic reads the property
    named "undefined". *)
Definition parseEvent (log : ReceiptLog) : ParsedEvent P :=
  let code := default "undefined" (head (topics log)) in
  match topic_table !! code with
  | Some (name, parser) => Decoded name (parser log)
  | None => Undecoded (topics log) (data log)
  end.

(** [call.input ? getMethodName(call.input) : call.input?.substring(0, 10)] *)
Definition method_label (inp : option string) : option string :=
  match inp with
  | Some i => if truthy i then Some (getMethodName i) else Some (substring 0 10 i)
  | None => None
  end.

Definition enrich_log (l : loc) : EnrichedLog P :=
  {| fields := log_object mem l; parsed := parseEvent (log_object mem l) |}.

Fixpoint enrichCall (call : CallNode loc) : CallNode (EnrichedLog P) :=
  match call with
  | mkCallNode m t f o i ou v g gu kids l p =>
      mkCallNode (method_label i) t f o i ou v g gu
        (match kids with
         | Some ks => Some (map enrichCall ks)
         | None => None
         end)
        (match l with
         | Some ls => Some (enrich_log <$> ls)
         | None => None
         end)
        p
  end.

Definition enrichTraceWithCallAndEventDetails (enriched : CallTracerRoot loc)
  : CallTracerRoot (EnrichedLog P) :=
  match enriched with
  | Single n => Single (enrichCall n)
  | Forest ns => Forest (enrichCall <$> ns)
  end.
End Enricher.

(** All nodes of a tree, the node itself first. *)
Fixpoint nodes_of {L} (n : CallNode L) : list (CallNode L) :=
  match n with
  | mkCallNode _ _ _ _ _ _ _ _ _ kids _ _ =>
      n :: match kids with
           | Some ks => (fix go (l : list (CallNode L)) : list (CallNode L) :=
                           match l with
                           | [] => []
                           | k :: l' => nodes_of k ++ go l'
                           end) ks
           | None => []
           end
  end.

Definition nodes_of_root {L} (r : CallTracerRoot L) : list (CallNode L) :=
  match r with
  | Single n => nodes_of n
  | Forest ns => mjoin (nodes_of <$> ns)
  end.

(** Induction on call trees: the children of a node satisfy the property. *)
Fixpoint CallNode_ind {L} (Q : CallNode L -> Prop)
  (IH : ∀ m t f o i ou v g gu kids l p,
      Forall Q (default [] kids) →
      Q (mkCallNode m t f o i ou v g gu kids l p))
  (n : CallNode L) : Q n :=
  match n with
  | mkCallNode m t f o i ou v g gu kids l p =>
      IH m t f o i ou v g gu kids l p
        (match kids return Forall Q (default [] kids) with
         | Some ks =>
             (fix go (l : list (CallNode L)) : Forall Q l :=
                match l with
                | [] => @List.Forall_nil _ Q
                | k :: l' => @List.Forall_cons _ Q k l' (CallNode_ind Q IH k) (go l')
                end) ks
         | None => @List.Forall_nil _ Q
         end)
  end.

(** Every position stored in the map leads to a node; after the [logs]
    arrays are initialised, to a node with a [logs] array, which holds
    references out of [refs] only. *)
Definition valid_map (pm : PathMap) (root : CallTracerRoot loc) : Prop :=
  Forall (fun kv => is_Some (root_at root kv.2)) pm.

Definition ready_map (refs : list loc) (pm : PathMap) (root : CallTracerRoot loc)
  : Prop :=
  Forall (fun kv => ∃ n ls, root_at root kv.2 = Some n ∧ logs n = Some ls
                            ∧ ∀ l, l ∈ ls → l ∈ refs) pm.

(** Lines of the warning list, told apart by how they begin. *)
Definition is_leftover_line (w : string) : bool :=
  String.prefix "leftover receipt log #" w.

Definition is_count_line (w : string) : bool :=
  String.prefix "events from structLogs (" w.

(** [w] occurs in [msg]. *)
Definition occurs_in (w msg : string) : Prop := ∃ a b, msg = a +:+ w +:+ b.

(** ** Example inputs *)

(** A node as the call tracer reports it: kind, addresses, input, children. *)
Definition traced (t f o : string) (i : option string)
  (kids : option (list (CallNode loc))) : CallNode loc :=
  mkCallNode None (Some t) (Some f) (Some o) i None None None None kids None None.

Definition log_with_address (a : string) : ReceiptLog :=
  {| address := a; topics := []; data := "0x"; logIndex := None |}.

(** A receipt whose i-th log object is [ls !! i] (the references are the
    numbers 100, 101, ...). *)
Definition memory_of (ls : list ReceiptLog) : LogMemory :=
  {| log_object := fun l => default (log_with_address "") (ls !! (l - 100)%nat);
     receipt_logs := seq 100 (length ls) |}.

Definition caller_addr : string := "0xaaaa".
Definition target_addr : string := "0xbbbb".
Definition other_addr : string := "0xcccc".

(** Two sibling calls from the root, each logging once. *)
Definition sibling_calls_trace : list StructLogStep :=
  [mkStep "CALL" 1 0; mkStep "LOG1" 2 0; mkStep "STOP" 2 1;
   mkStep "CALL" 1 1; mkStep "LOG1" 2 0; mkStep "STOP" 2 1; mkStep "STOP" 1 2].

Definition sibling_calls_tree : CallTracerRoot loc :=
  Single (traced "CALL" "0x1111" caller_addr None
            (Some [traced "CALL" caller_addr target_addr None None;
                   traced "CALL" caller_addr other_addr None None])).

(** One call that logs once. *)
Definition one_call_trace : list StructLogStep :=
  [mkStep "CALL" 1 0; mkStep "LOG1" 2 0; mkStep "STOP" 2 1; mkStep "STOP" 1 1].

Definition one_call_tree (kind : string) : CallTracerRoot loc :=
  Single (traced "CALL" "0x1111" caller_addr None
            (Some [traced kind caller_addr target_addr None None])).

(** A single top-level call that logs once. *)
Definition top_level_log_trace : list StructLogStep :=
  [mkStep "LOG1" 1 0; mkStep "STOP" 1 1].

(** A warning of the attachment walk: neither the count line nor a leftover
    line. *)
Definition walk_line (w : string) : Prop :=
  is_leftover_line w = false ∧ is_count_line w = false.

(** The state in which the attachment walk starts. *)
Definition walk_start (root : CallTracerRoot loc) (E : nat) (mem : LogMemory)
  : StitchState :=
  {| tree := root;
     warnings :=
       if negb (E =? length (receipt_logs mem))%nat
       then [count_mismatch_warning E (length (receipt_logs mem))]
       else [];
     memory := mem |}.

(** Split a chain of conjunctions, and nothing else. *)
Ltac splits := repeat match goal with |- _ ∧ _ => split end.

(** A stitch state in the middle of the walk: the tree of [one_call_tree]
    with paths and empty [logs] arrays, the map of its two nodes, one log. *)
Definition one_call_ready (kind : string) : StitchState :=
  {| tree :=
       Single (mkCallNode None (Some "CALL") (Some "0x1111") (Some caller_addr)
                 None None None None None
                 (Some [mkCallNode None (Some kind) (Some caller_addr)
                          (Some target_addr) None None None None None None
                          (Some []) (Some [0%nat])])
                 (Some []) (Some []));
     warnings := [];
     memory := memory_of [log_with_address "0xAAAA"] |}.

Definition one_call_map : PathMap := [("", []); ("0", [0%nat])].

(** A selector table, and calls with a known selector, an unknown one, a
    short input, an empty input and no input at all. *)
Definition example_selectors : gmap string string :=
  {[ "0xa9059cbb" := "transfer" ]}.

Definition call_with_input (i : option string) : CallNode loc :=
  traced "CALL" caller_addr target_addr i None.

(** The same positions lead to nodes in both trees. *)
Definition same_shape (r r' : CallTracerRoot loc) : Prop :=
  ∀ q, is_Some (root_at r' q) ↔ is_Some (root_at r q).

(** ** Vocabulary for the attachment walk *)

(** The receipt logs that the walk pairs with the events of call path [q],
    in order: event number i goes with log number i for as long as both
    lists last. *)
Definition logs_for (q : list nat) (events : list EventPath) (refs : list loc)
  : list loc :=
  snd <$> filter (fun er => callPath er.1 = q) (zip events refs).

(** The tree [r'] shows through [g] what [r] shows, position by position. *)
Definition same_view {L A} (g : CallNode L -> A) (r r' : CallTracerRoot L) : Prop :=
  ∀ q, g <$> root_at r' q = g <$> root_at r q.

(** What iteration number [i] of the walk, which pairs the event [e] with
    the receipt log [l], adds to the warnings; [root] is the tree as given. *)
Definition walk_warning (root : CallTracerRoot loc) (mem : LogMemory)
  (i : nat) (e : EventPath) (l : loc) : list string :=
  match root_at root (callPath e) with
  | None => [no_node_warning (path_key (callPath e)) i]
  | Some node =>
      let expectedAddr := expectedLogAddressForNode node in
      let addr := address (log_object mem l) in
      if address_disagrees expectedAddr addr
      then [address_mismatch_warning (path_key (callPath e))
              (default "" expectedAddr) (toLowerCase addr) i]
      else []
  end.

Definition walk_warnings (root : CallTracerRoot loc) (mem : LogMemory)
  (events : list EventPath) (refs : list loc) : list string :=
  mjoin (imap (fun i er => walk_warning root mem i er.1 er.2) (zip events refs)).

(** Everything a node holds but its children and its [_path]. *)
Definition call_data {L} (n : CallNode L) :=
  (method n, type n, from n, to n, input n, output n, value n, gas n, gasUsed n,
   logs n).


(** ** The example script: the events under each method call *)

(** [for (const x of xs) v(x)] with the state the calls share. *)
Definition visit_each {A S} (v : A -> S -> outcome S) : list A -> S -> outcome S :=
  fix go (xs : list A) (s : S) : outcome S :=
    match xs with
    | [] => Ok s
    | x :: xs' => s' ← v x s; go xs' s'
    end.

Section MapMethodsToEvents.
Context {P : Type}.
Variable methodNames eventNames : list string.

(** [log.parsed && eventNames.includes(log.parsed.name)]: an event without
    a parser has no [name]. *)
Definition event_matches (log : EnrichedLog P) : bool :=
  match parsed log with
  | Decoded name _ => bool_decide (name ∈ eventNames)
  | Undecoded _ _ => false
  end.

(** [collectEvents(call)]: the matching events of the call's own logs, then
    those of each child in turn. *)
Fixpoint collectEvents (call : CallNode (EnrichedLog P)) : list (ParsedEvent P) :=
  match call with
  | mkCallNode _ _ _ _ _ _ _ _ _ kids l _ =>
      let events :=
        match l with
        | Some ls => parsed <$> filter (fun log => event_matches log = true) ls
        | None => []
        end in
      match kids with
      | Some ks => fold_left (fun events child => events ++ collectEvents child) ks events
      | None => events
      end
  end.

(** The object [result]: its own properties, and the array that is its
    prototype once [result["__proto__"] = []] has run ([None]: the prototype
    is still [Object.prototype]). *)
Record MethodEvents : Type := mkMethodEvents {
  own_props : gmap string (list (ParsedEvent P));
  proto_array : option (list (ParsedEvent P))
}.

(** [const result = {}] *)
Definition empty_result : MethodEvents :=
  {| own_props := ∅; proto_array := None |}.

(** [result[name] = v] for an array [v]: the name [__proto__] goes to the
    setter inherited from [Object.prototype], which makes [v] the prototype
    and creates no property; any other name becomes an own property. *)
Definition set_prop (name : string) (v : list (ParsedEvent P)) (result : MethodEvents)
  : MethodEvents :=
  if decide (name = "__proto__")
  then {| own_props := own_props result; proto_array := Some v |}
  else {| own_props := <[name := v]> (own_props result);
          proto_array := proto_array result |}.

(** The array [result[name]] evaluates to, if it is one: the prototype for
    [__proto__], the own property otherwise.  (What else the prototype chain
    can supply is no array and has no [push].) *)
Definition get_prop (name : string) (result : MethodEvents)
  : option (list (ParsedEvent P)) :=
  if decide (name = "__proto__") then proto_array result
  else own_props result !! name.

(** [result[call.method].push(...events)] *)
Definition push_events (name : string) (events : list (ParsedEvent P))
  (result : MethodEvents) : outcome MethodEvents :=
  match get_prop name result with
  | Some es => Ok (set_prop name (es ++ events) result)
  | None => TypeError
  end.

(** [visit(call)] of [mapMethodsToEvents]; [result] is the object the calls
    share. *)
Fixpoint visit_methods (call : CallNode (EnrichedLog P)) (result : MethodEvents)
  : outcome MethodEvents :=
  match call with
  | mkCallNode m _ _ _ _ _ _ _ _ kids _ _ =>
      result' ←
        match m with
        | Some name =>
            if truthy name && bool_decide (name ∈ methodNames)
            then push_events name (collectEvents call) result
            else Ok result
        | None => Ok result
        end;
      match kids with
      | Some ks => visit_each visit_methods ks result'
      | None => Ok result'
      end
  end.

Definition mapMethodsToEvents (enrichedTree : CallTracerRoot (EnrichedLog P))
  : outcome MethodEvents :=
  let result := fold_left (fun r name => set_prop name [] r) methodNames empty_result in
  match enrichedTree with
  | Forest cs => visit_each visit_methods cs result
  | Single c => visit_methods c result
  end.
End MapMethodsToEvents.

(** The events reported under the method [m] for the subtree of [call]:
    those collected below each node with that method, the node itself
    first. *)
Definition events_under {P} (eventNames : list string) (m : string)
  (nodes : list (CallNode (EnrichedLog P))) : list (ParsedEvent P) :=
  mjoin (collectEvents eventNames
           <$> filter (fun n => method n = Some m) nodes).

(** ** The file cache of the example scripts *)

(** [\s] and the characters [trim] removes, on ASCII text: TAB, LF, VT, FF,
    CR and the space. *)
Definition is_space (c : ascii) : bool :=
  let n := nat_of_ascii c in
  ((9 <=? n)%nat && (n <=? 13)%nat) || (n =? 32)%nat.

(** [[a-zA-Z0-9_.-]] *)
Definition is_name_char (c : ascii) : bool :=
  let n := nat_of_ascii c in
  ((97 <=? n)%nat && (n <=? 122)%nat) || ((65 <=? n)%nat && (n <=? 90)%nat)
  || ((48 <=? n)%nat && (n <=? 57)%nat)
  || (n =? 95)%nat || (n =? 46)%nat || (n =? 45)%nat.

(** [s.replace(/[p]+/g, r)]: every maximal run of characters in the class
    [p] becomes the one character [r]; [in_run] tells that the character
    before belongs to a run already replaced. *)
Fixpoint replace_runs (p : ascii -> bool) (r : ascii) (in_run : bool)
  (s : list ascii) : list ascii :=
  match s with
  | [] => []
  | c :: s' =>
      if p c then
        if in_run then replace_runs p r true s'
        else r :: replace_runs p r true s'
      else c :: replace_runs p r false s'
  end.

Fixpoint trim_start (s : list ascii) : list ascii :=
  match s with
  | [] => []
  | c :: s' => if is_space c then trim_start s' else s
  end.

(** [s.trim()] *)
Definition trim (s : list ascii) : list ascii :=
  reverse (trim_start (reverse (trim_start s))).

(** The name a command string gives to its cache file:
    [.replace(/\s+/g, " ").trim().replace(/[^a-zA-Z0-9_.-]+/g, "_").slice(0, 64)]. *)
Definition sanitize_command (s : string) : string :=
  string_of_list_ascii
    (take 64
       (replace_runs (fun c => negb (is_name_char c)) "_" false
          (trim (replace_runs is_space " " false (list_ascii_of_string s))))).

(** The name for arguments that do not start with a string, from their
    JSON text: [.replace(/[^a-zA-Z0-9_.-]+/g, "_").slice(0, 64)]. *)
Definition sanitize_json (s : string) : string :=
  string_of_list_ascii
    (take 64
       (replace_runs (fun c => negb (is_name_char c)) "_" false
          (list_ascii_of_string s))).

(** [fileCache(fn, options)]: the function it returns, as a function of the
    files of the cache directory (path to text) and of the state [W] that
    [fn] works on.  The values of JavaScript, [JSON], the digest and
    [path.join] are those of the platform and stay abstract. *)
Section FileCache.
Context {V W : Type}.
Variable string_of : V -> option string.  (* the string, if [typeof v === "string"] *)
Variable JSON_stringify_args : list V -> outcome string.
Variable JSON_stringify : V -> outcome (option string).  (* [undefined]: no JSON text *)
Variable JSON_parse : string -> outcome V.
Variable sha256_hex : string -> string.
Variable path_join : string -> string -> string.
Variable cacheDir : string.
Variable fn : list V -> W -> outcome (V * W).

(** [path.join(cacheDir, sanitized + "_" + hash + ".json")] *)
Definition cache_file (args : list V) : outcome string :=
  sanitized ←
    match head args ≫= string_of with
    | Some s => Ok (sanitize_command s)
    | None => text ← JSON_stringify_args args; Ok (sanitize_json text)
    end;
  key ← JSON_stringify_args args;
  Ok (path_join cacheDir (sanitized +:+ "_" +:+ sha256_hex key +:+ ".json")).

(** One call of the cached function: the value it returns and the state it
    leaves.  Writing [undefined] to a file is a [TypeError]. *)
Definition cached_call (args : list V) (st : gmap string string * W)
  : outcome (V * (gmap string string * W)) :=
  cacheFile ← cache_file args;
  match st.1 !! cacheFile with
  | Some content => result ← JSON_parse content; Ok (result, st)
  | None =>
      '(result, w') ← fn args st.2;
      text ← JSON_stringify result;
      match text with
      | Some t => Ok (result, (<[cacheFile := t]> st.1, w'))
      | None => TypeError
      end
  end.

(** Calls one after the other, each returning normally. *)
Fixpoint cached_calls (calls : list (list V)) (st : gmap string string * W)
  : outcome (gmap string string * W) :=
  match calls with
  | [] => Ok st
  | args :: rest => '(_, st') ← cached_call args st; cached_calls rest st'
  end.
End FileCache.

(** Everything a node holds but its children, its logs and its [_path]. *)
Definition call_fields {L} (n : CallNode L) :=
  (method n, type n, from n, to n, input n, output n, value n, gas n, gasUsed n).

(** A trace in which the depth grows by one at a time and only right after
    a CALL- or CREATE-family step; [d] is the depth of the step before and
    [entered] tells whether that step was of the CALL or CREATE family. *)
Fixpoint nested_from (d : Z) (entered : bool) (steps : list StructLogStep) : Prop :=
  match steps with
  | [] => True
  | s :: rest =>
      1 <= depth s
      ∧ (depth s <= d ∨ (entered = true ∧ depth s = d + 1))
      ∧ nested_from (depth s) (ENTER (op s)) rest
  end.

(** Such a trace that starts at depth 1. *)
Definition well_nested (steps : list StructLogStep) : Prop :=
  nested_from 1 false steps.

(** What a visit of [nodes] adds under the key [m]: nothing for a name that
    is not listed or is empty. *)
Definition events_added {P} (methodNames eventNames : list string) (m : string)
  (nodes : list (CallNode (EnrichedLog P))) : list (ParsedEvent P) :=
  if decide (m ∈ methodNames ∧ m ≠ "") then events_under eventNames m nodes else [].

(** Some step after step number [i] of the trace declares a depth that is
    not above the number of indices of the path [p].  With the frame of path
    [p] on top the stack holds [length p + 1] frames, so this is the pop
    condition [frames.length - 1 > d - 1] of the loop for that frame: if the
    frame is on the stack at such a step, the step pops it. *)
Definition left_after (steps : list StructLogStep) (i : nat) (p : list nat) : Prop :=
  Exists (fun s => depth s <= Z.of_nat (length p)) (drop (S i) steps).

#[global] Instance left_after_dec steps i p : Decision (left_after steps i p) := _.

(** The record of step number [i], emitted in the frame with path [p], is
    withheld: a REVERT step of the trace was processed in that frame, and a
    step after step [i] pops the frame. *)
Definition withheld (steps : list StructLogStep) (i : nat) (p : list nat) : Prop :=
  p ∈ reverted_paths (history steps) ∧ left_after steps i p.

#[global] Instance withheld_dec steps i p : Decision (withheld steps i p) := _.




(* ================================================================= *)
(* END-OF-DEFINITIONS *)

Example derive_reverting_call :
  deriveEventPathsRevertAware reverting_call_trace = Ok [].
Proof. reflexivity. Qed.

Example derive_zero_step :
  deriveEventPathsRevertAware zero_step_trace =
  Ok [mkEventPath "LOG1" 1 1 [] 0; mkEventPath "LOG1" 0 2 [1%nat] 0].
Proof. reflexivity. Qed.

Example derive_logging_call :
  deriveEventPathsRevertAware logging_call_trace =
  Ok [mkEventPath "LOG0" 0 1 [] 0; mkEventPath "LOG2" 0 2 [0%nat] 0;
      mkEventPath "LOG1" 2 1 [] 1].
Proof. reflexivity. Qed.

(** * Properties of the event-path deriver *)

(** ** The depth-first order on paths *)

Lemma plt_irrefl p : ¬ plt p p.
Proof. induction p as [|a p IH]; inversion 1; subst; [lia | auto]. Qed.

Lemma plt_trans p q r : plt p q → plt q r → plt p r.
Proof.
  intros H; revert r.
  induction H; inversion 1; subst;
    first [apply plt_nil | apply plt_lt; lia | apply plt_cons; auto].
Qed.

Lemma plt_app_l p q r : plt q r → plt (p ++ q) (p ++ r).
Proof. intros H. induction p; simpl; [done | by constructor]. Qed.

Lemma plt_extend p x r : plt p (p ++ x :: r).
Proof. rewrite <- (app_nil_r p) at 1. apply plt_app_l. constructor. Qed.

Lemma plt_sibling p a b r r' : (a < b)%nat → plt (p ++ a :: r) (p ++ b :: r').
Proof. intros H. apply plt_app_l. by constructor. Qed.

Lemma plt_ne p q : plt p q → p ≠ q.
Proof. intros H ->. by apply plt_irrefl in H. Qed.

(** ** Marking records dropped *)

Lemma mark_dropped_ok idxs : ∀ evs,
  (∀ k, k ∈ idxs → (k < length evs)%nat) →
  mark_dropped idxs evs = Ok (drop_at idxs evs).
Proof.
  induction idxs as [|i rest IH]; intros evs Hb; simpl.
  - f_equal. unfold drop_at. apply list_eq. intros k.
    rewrite list_lookup_imap. by destruct (evs !! k).
  - destruct (lookup_lt_is_Some_2 evs i) as [e He];
      [apply Hb, list_elem_of_here|].
    rewrite He, IH.
    2:{ intros k Hk. rewrite length_insert. by apply Hb, list_elem_of_further. }
    f_equal. unfold drop_at. apply list_eq. intros k.
    rewrite !list_lookup_imap.
    destruct (decide (k = i)) as [->|Hne].
    + rewrite list_lookup_insert_eq by (by eapply lookup_lt_Some).
      rewrite He.
      destruct (decide (i ∈ i :: rest)) as [_|Hn];
        [|by destruct Hn; apply list_elem_of_here].
      by destruct (decide (i ∈ rest)).
    + rewrite list_lookup_insert_ne by done.
      destruct (evs !! k) as [e'|]; [|done].
      destruct (decide (k ∈ rest)) as [Hr|Hr], (decide (k ∈ i :: rest)) as [Hc|Hc];
        try done.
      * destruct Hc. by apply list_elem_of_further.
      * by apply elem_of_cons in Hc as [?|?].
Qed.

Lemma drop_at_length idxs evs : length (drop_at idxs evs) = length evs.
Proof. unfold drop_at. by rewrite length_imap. Qed.

Lemma drop_at_lookup idxs evs k :
  drop_at idxs evs !! k =
  (fun e => if decide (k ∈ idxs) then set_dropped e else e) <$> evs !! k.
Proof. unfold drop_at. by rewrite list_lookup_imap. Qed.

(** ** The frame stack *)

Lemma frame_at_top f rest : frame_at (f :: rest) (length (f :: rest) - 1) = Some f.
Proof.
  unfold frame_at. rewrite reverse_lookup by (simpl; lia).
  replace (length (f :: rest) - S (length (f :: rest) - 1))%nat with 0%nat
    by (simpl; lia).
  done.
Qed.

Lemma chain_lookup_length fs :
  chain fs → ∀ i f, fs !! i = Some f → length (path f) = (length fs - 1 - i)%nat.
Proof.
  induction fs as [|c rest IH]; [done|].
  destruct rest as [|p rest'].
  - intros Hc [|i] f Hf; simpl in *; [|done].
    injection Hf as <-. by rewrite Hc.
  - intros (Hp & Hpos & Hch) [|i] f Hf.
    + injection Hf as <-. rewrite Hp, length_app.
      rewrite (IH Hch 0%nat p eq_refl). simpl. lia.
    + rewrite (IH Hch i f Hf). simpl. lia.
Qed.

Lemma chain_path_inj fs f g :
  chain fs → f ∈ fs → g ∈ fs → path f = path g → f = g.
Proof.
  intros Hc [i Hi]%list_elem_of_lookup [j Hj]%list_elem_of_lookup Hp.
  pose proof (chain_lookup_length _ Hc _ _ Hi) as Li.
  pose proof (chain_lookup_length _ Hc _ _ Hj) as Lj.
  apply lookup_lt_Some in Hi as Hi'. apply lookup_lt_Some in Hj as Hj'.
  assert (i = j) as -> by (rewrite Hp in Li; lia).
  congruence.
Qed.

Lemma chain_below_top f rest g : chain (f :: rest) → g ∈ rest → path g ≠ path f.
Proof.
  intros Hc [j Hj]%list_elem_of_lookup Hp.
  pose proof (chain_lookup_length _ Hc 0%nat f eq_refl) as L0.
  pose proof (chain_lookup_length _ Hc (S j) g Hj) as Lj.
  apply lookup_lt_Some in Hj. rewrite Hp in Lj. simpl in *. lia.
Qed.

Lemma chain_tail f p rest : chain (f :: p :: rest) → chain (p :: rest).
Proof. by intros (_ & _ & H). Qed.

Lemma chain_cons c p rest :
  chain (c :: p :: rest) ↔
  path c = path p ++ [(nextChild p - 1)%nat] ∧ (0 < nextChild p)%nat ∧ chain (p :: rest).
Proof. done. Qed.

(** ** Reading the invariant *)

Lemma Inv_event_path h st k e :
  Inv h st → events st !! k = Some e →
  ∃ x, x ∈ h ∧ ev_core e = entry_core x.
Proof.
  intros HI Hk.
  destruct (Forall2_lookup_l _ _ _ _ _ (inv_events _ _ HI) Hk) as (x & Hx & Hc & _).
  exists x. split; [|done].
  apply list_elem_of_lookup_2 in Hx. by apply list_elem_of_filter in Hx as [_ ?].
Qed.

Lemma Inv_event_fresh h st k e :
  Inv h st → events st !! k = Some e → plt (ev_callPath e) (frontier st).
Proof.
  intros HI Hk. destruct (Inv_event_path _ _ _ _ HI Hk) as (x & Hx & Hc).
  assert (ev_callPath e = x.2) as -> by (unfold ev_core, entry_core in Hc; congruence).
  by apply (inv_fresh _ _ HI).
Qed.

Lemma Inv_reverted_fresh h st p :
  Inv h st → p ∈ reverted_paths h → plt p (frontier st).
Proof.
  intros HI (x & -> & Hx)%list_elem_of_fmap.
  apply list_elem_of_filter in Hx as [_ Hx]. by apply (inv_fresh _ _ HI).
Qed.

(** ** Resolving the pending reservation *)

Lemma resolve_pending_inv h st d :
  Inv h st →
  ∃ st1, resolve_pending d st = Ok st1 ∧ Inv h st1 ∧ pending st1 = None
         ∧ prevDepth st1 = prevDepth st ∧ events st1 = events st.
Proof.
  intros HI. unfold resolve_pending.
  destruct (pending st) as [[parent idx]|] eqn:Hpend; [|by exists st].
  destruct (inv_pending _ _ HI _ _ Hpend) as (-> & top & rest & Hfs & Hnc).
  destruct (prevDepth st <? d) eqn:Hd.
  - rewrite Hfs, frame_at_top. eexists; split; [done|].
    split; [|done].
    assert (Hfr : frontier st = path top ++ [idx])
      by (unfold frontier; by rewrite Hfs, Hpend).
    constructor; cbn [frames pending events prevDepth].
    + apply chain_cons. split; [|split; [lia|]].
      * simpl. f_equal. f_equal. lia.
      * rewrite <- Hfs. apply (inv_chain _ _ HI).
    + done.
    + eapply Forall2_impl; [apply (inv_events _ _ HI)|].
      intros e x [Hc Hdrop]. split; [done|]. rewrite Hdrop.
      unfold discarded, live_paths. cbn [frames]. rewrite Hfs, !fmap_cons.
      split; intros [Hr Hl]; (split; [done|]).
      * apply not_elem_of_cons. split; [|done].
        apply plt_ne. cbn [path]. rewrite <- Hfr. by eapply Inv_reverted_fresh.
      * intros Hin. apply Hl. by apply list_elem_of_further.
    + intros f [->|Hf]%elem_of_cons; simpl.
      * split; [done|]. intros Hr.
        apply (Inv_reverted_fresh _ _ _ HI) in Hr.
        rewrite Hfr in Hr. by apply plt_irrefl in Hr.
      * rewrite <- Hfs in Hf. by apply (inv_reverted _ _ HI).
    + intros f k [->|Hf]%elem_of_cons; simpl.
      * split; [by intros ?%elem_of_nil|]. intros (e & He & Hp).
        apply (Inv_event_fresh _ _ _ _ HI) in He.
        rewrite Hp, Hfr in He. by apply plt_irrefl in He.
      * rewrite <- Hfs in Hf. by apply (inv_logsIdx _ _ HI).
    + intros x Hx. unfold frontier; simpl.
      eapply plt_trans; [apply (inv_fresh _ _ HI _ Hx)|].
      rewrite Hfr. apply plt_extend.
  - eexists; split; [done|]. split; [|done].
    constructor; cbn [frames pending events prevDepth].
    + apply (inv_chain _ _ HI).
    + done.
    + eapply Forall2_impl; [apply (inv_events _ _ HI)|].
      by intros e x [Hc Hdrop].
    + apply (inv_reverted _ _ HI).
    + apply (inv_logsIdx _ _ HI).
    + intros x Hx. unfold frontier; simpl. rewrite Hfs.
      eapply plt_trans; [apply (inv_fresh _ _ HI _ Hx)|].
      unfold frontier. rewrite Hfs, Hpend, Hnc.
      apply plt_sibling. lia.
Qed.

(** ** Popping finished frames *)

Lemma set_dropped_core e : ev_core (set_dropped e) = ev_core e.
Proof. done. Qed.

Lemma pop_one_inv h f p rest pd evs :
  Inv h (mkState (f :: p :: rest) pd None evs) →
  ∃ evs', (if reverted f then mark_dropped (logsIdx f) evs else Ok evs) = Ok evs'
          ∧ Inv h (mkState (p :: rest) pd None evs').
Proof.
  intros HI.
  pose proof (inv_chain _ _ HI) as Hch. cbn [frames] in Hch.
  pose proof (inv_logsIdx _ _ HI) as Hlogs. cbn [frames events] in Hlogs.
  pose proof (inv_reverted _ _ HI) as Hrev. cbn [frames] in Hrev.
  pose proof (inv_events _ _ HI) as Hev. cbn [events] in Hev.
  assert (Hf : f ∈ f :: p :: rest) by apply list_elem_of_here.
  exists (if reverted f then drop_at (logsIdx f) evs else evs). split.
  { destruct (reverted f); [|done]. apply mark_dropped_ok.
    intros k Hk. apply (Hlogs f k Hf) in Hk as (e & He & _).
    by eapply lookup_lt_Some. }
  set (evs' := if reverted f then drop_at (logsIdx f) evs else evs).
  assert (Hlook : ∀ k, evs' !! k =
     (fun e => if reverted f then
                 if decide (k ∈ logsIdx f) then set_dropped e else e
               else e) <$> evs !! k).
  { intros k. subst evs'. destruct (reverted f).
    - apply drop_at_lookup.
    - by destruct (evs !! k). }
  assert (Hlen : length evs' = length evs).
  { subst evs'. destruct (reverted f); [apply drop_at_length | done]. }
  assert (Hpath : ∀ k e', evs' !! k = Some e' →
     ∃ e, evs !! k = Some e ∧ ev_core e' = ev_core e).
  { intros k e'. rewrite Hlook. destruct (evs !! k) as [e|]; [|done].
    intros [= <-]. exists e. split; [done|].
    destruct (reverted f); [|done]. by destruct (decide _). }
  assert (Hfresh : plt (frontier (mkState (f :: p :: rest) pd None evs))
                       (frontier (mkState (p :: rest) pd None evs'))).
  { unfold frontier. cbn [frames pending].
    apply chain_cons in Hch as (-> & Hpos & _).
    rewrite <- app_assoc. apply plt_sibling. lia. }
  constructor; cbn [frames pending events prevDepth].
  - by eapply chain_tail.
  - done.
  - apply Forall2_same_length_lookup_2.
    { rewrite Hlen. by eapply Forall2_length. }
    intros i e' x He' Hx.
    rewrite Hlook in He'. destruct (evs !! i) as [e|] eqn:He; [|done].
    injection He' as <-.
    destruct (Forall2_lookup_lr _ _ _ _ _ _ Hev He Hx) as [Hc Hdrop].
    assert (Hcp : ev_callPath e = x.2)
      by (unfold ev_core, entry_core in Hc; congruence).
    assert (Hin : i ∈ logsIdx f ↔ x.2 = path f).
    { rewrite (Hlogs f i Hf). split.
      - intros (e0 & He0 & Hp0). congruence.
      - intros Hp. exists e. split; [done | congruence]. }
    unfold event_of, discarded, live_paths in *. cbn [frames] in *.
    rewrite !fmap_cons in *.
    destruct (decide (x.2 = path f)) as [Hxf|Hxf].
    + assert (Hnl : path f ∉ path p :: (path <$> rest)).
      { intros (g & Hg & Hgin)%(list_elem_of_fmap path (p :: rest)).
        by eapply chain_below_top. }
      assert (Hliv : x.2 ∈ path f :: path p :: (path <$> rest))
        by (rewrite Hxf; apply list_elem_of_here).
      rewrite Hxf in *.
      destruct (reverted f) eqn:Hr.
      * rewrite decide_True by (by apply Hin).
        split; [by rewrite set_dropped_core|].
        split; [|done]. intros _. split; [|done]. by apply Hrev.
      * split; [done|]. split.
        -- intros Hd. apply Hdrop in Hd as [_ Hd]. by destruct Hd.
        -- intros [Hd _]. apply (Hrev f Hf) in Hd. congruence.
    + assert (Hnot : i ∉ logsIdx f) by (by rewrite Hin).
      assert (e = if reverted f then
                    if decide (i ∈ logsIdx f) then set_dropped e else e
                  else e) as <-.
      { destruct (reverted f); [|done]. by rewrite decide_False. }
      split; [done|]. rewrite Hdrop.
      rewrite (not_elem_of_cons (path p :: _)). tauto.
  - intros g Hg. apply Hrev. by apply list_elem_of_further.
  - intros g k Hg. rewrite (Hlogs g k) by (by apply list_elem_of_further).
    split.
    + intros (e & He & Hp). specialize (Hlook k). rewrite He in Hlook.
      eexists. split; [exact Hlook|].
      rewrite <- Hp. destruct (reverted f); [|done]. by destruct (decide _).
    + intros (e' & He' & Hp). destruct (Hpath _ _ He') as (e & He & Hc).
      exists e. split; [done|]. unfold ev_core in Hc. congruence.
  - intros x Hx. eapply plt_trans; [|exact Hfresh].
    by apply (inv_fresh _ _ HI).
Qed.

Lemma pop_frames_inv h d pd : 1 <= d → ∀ fs evs,
  Inv h (mkState fs pd None evs) →
  ∃ fs' evs' popped,
    pop_frames d fs evs = Ok (fs', evs')
    ∧ Inv h (mkState fs' pd None evs')
    ∧ fs = popped ++ fs'
    ∧ (Z.of_nat (length fs) <= d → popped = [])
    ∧ Z.of_nat (length fs') <= d.
Proof.
  intros Hd fs. induction fs as [|f rest IH]; intros evs HI.
  { by destruct (inv_chain _ _ HI). }
  cbn [pop_frames]. destruct (d - 1 <? Z.of_nat (length (f :: rest)) - 1) eqn:Hcmp.
  - apply Z.ltb_lt in Hcmp.
    destruct rest as [|p rest]; [simpl in Hcmp; lia|].
    destruct (pop_one_inv _ _ _ _ _ _ HI) as (evs1 & -> & HI1).
    destruct (IH _ HI1) as (fs' & evs' & popped & Hpop & HI' & Hfs & _ & Hlen).
    exists fs', evs', (f :: popped). cbn [mbind outcome_bind].
    split; [done|]. split; [done|]. split; [by rewrite Hfs|].
    split; [lia | done].
  - apply Z.ltb_ge in Hcmp.
    exists (f :: rest), evs, (@nil Frame).
    split; [done|]. split; [exact HI|]. split; [done|]. split; [done|lia].
Qed.

Lemma pop_phase_inv h d st :
  1 <= d → Inv h st → pending st = None →
  ∃ st2 popped,
    pop_phase d st = Ok st2
    ∧ Inv h st2
    ∧ pending st2 = None
    ∧ prevDepth st2 = prevDepth st
    ∧ frames st = popped ++ frames st2
    ∧ (Z.of_nat (length (frames st)) <= d → popped = [])
    ∧ Z.of_nat (length (frames st2)) <= d.
Proof.
  intros Hd HI Hp. destruct st as [fs pd pend evs]. cbn in Hp. subst pend.
  destruct (pop_frames_inv h d pd Hd fs evs HI)
    as (fs' & evs' & popped & Hpop & HI' & Hfs & Hnone & Hlen).
  unfold pop_phase. cbn [frames events prevDepth pending]. rewrite Hpop.
  eexists _, popped. cbn [mbind outcome_bind].
  split; [done|]. split; [exact HI'|]. by repeat split.
Qed.

(** ** The step's own effects *)

Lemma ENTER_cases o :
  ENTER o = true →
  o = "CALL" ∨ o = "STATICCALL" ∨ o = "DELEGATECALL" ∨ o = "CALLCODE"
  ∨ o = "CREATE" ∨ o = "CREATE2".
Proof.
  unfold ENTER. cbn [existsb]. rewrite !orb_true_iff, !String.eqb_eq.
  intros [?|[?|[?|[?|[?|[?|?]]]]]]; auto 10. done.
Qed.

Lemma ENTER_not_LOG o : ENTER o = true → is_LOG o = false.
Proof. intros H. apply ENTER_cases in H. by repeat destruct H as [->|H]; subst. Qed.

Lemma ENTER_not_REVERT o : ENTER o = true → is_REVERT o = false.
Proof. intros H. apply ENTER_cases in H. by repeat destruct H as [->|H]; subst. Qed.

Lemma LOG_not_REVERT o : is_LOG o = true → is_REVERT o = false.
Proof.
  unfold is_REVERT. destruct (String.eqb_spec o "REVERT") as [->|]; [|done].
  by intros H.
Qed.

Lemma log_entries_snoc h x :
  filter is_log_entry (h ++ [x]) =
  filter is_log_entry h ++ (if decide (is_log_entry x) then [x] else []).
Proof. rewrite filter_app. f_equal. Qed.

Lemma reverted_paths_snoc h x :
  reverted_paths (h ++ [x]) =
  reverted_paths h ++ (if decide (is_revert_entry x) then [x.2] else []).
Proof.
  unfold reverted_paths. rewrite filter_app, fmap_app. f_equal.
  unfold filter. simpl. by destruct (decide _).
Qed.

Lemma log_entries_snoc_other h s p :
  is_LOG (op s) = false →
  filter is_log_entry (h ++ [(s, p)]) = filter is_log_entry h.
Proof.
  intros H. rewrite log_entries_snoc, decide_False; [apply app_nil_r|].
  unfold is_log_entry. cbn [fst]. congruence.
Qed.

Lemma reverted_paths_snoc_other h s p :
  is_REVERT (op s) = false →
  reverted_paths (h ++ [(s, p)]) = reverted_paths h.
Proof.
  intros H. rewrite reverted_paths_snoc, decide_False; [apply app_nil_r|].
  unfold is_revert_entry. cbn [fst]. congruence.
Qed.

Lemma discarded_congr h h' st st' p :
  reverted_paths h' = reverted_paths h → live_paths st' = live_paths st →
  discarded h' st' p ↔ discarded h st p.
Proof. unfold discarded. by intros -> ->. Qed.

Lemma chain_head_path c c' rest : path c' = path c → chain (c :: rest) → chain (c' :: rest).
Proof. intros Hp. destruct rest; simpl; by rewrite Hp. Qed.

Lemma enter_phase_inv h st o cur rest :
  Inv h st → pending st = None → frames st = cur :: rest →
  ∃ st3 cur',
    enter_phase o st = Ok st3 ∧ Inv h st3
    ∧ frames st3 = cur' :: rest ∧ path cur' = path cur
    ∧ events st3 = events st ∧ prevDepth st3 = prevDepth st
    ∧ pending st3 = (if ENTER o then Some (length rest, nextChild cur) else None)
    ∧ nextChild cur' = (if ENTER o then nextChild cur + 1 else nextChild cur)%nat.
Proof.
  intros HI Hpend Hfs. unfold enter_phase. destruct (ENTER o) eqn:Ho.
  2:{ exists st, cur. by repeat (split; [done|]). }
  rewrite Hfs. eexists _, _. split; [done|].
  cbn [frames events prevDepth pending path nextChild length].
  split; [|repeat (split; [done|]); split; [f_equal; f_equal; lia | done]].
  pose proof (inv_chain _ _ HI) as Hch. rewrite Hfs in Hch.
  constructor; cbn [frames pending events prevDepth].
  - by eapply chain_head_path.
  - intros p idx [= <- <-]. split; [simpl; lia|]. by eexists _, _.
  - eapply Forall2_impl; [apply (inv_events _ _ HI)|].
    intros e x [Hc Hd]. split; [done|]. rewrite Hd.
    symmetry. apply discarded_congr; [done|]. unfold live_paths. by rewrite Hfs.
  - intros f [->|Hf]%elem_of_cons.
    + apply (inv_reverted _ _ HI cur). rewrite Hfs. apply list_elem_of_here.
    + apply (inv_reverted _ _ HI f). rewrite Hfs. by apply list_elem_of_further.
  - intros f k [->|Hf]%elem_of_cons.
    + apply (inv_logsIdx _ _ HI cur). rewrite Hfs. apply list_elem_of_here.
    + apply (inv_logsIdx _ _ HI f). rewrite Hfs. by apply list_elem_of_further.
  - intros x Hx. apply (inv_fresh _ _ HI) in Hx.
    unfold frontier in *. by rewrite Hfs, Hpend in Hx.
Qed.

Lemma log_phase_inv h st s cur rest :
  Inv h st → frames st = cur :: rest → is_LOG (op s) = true →
  ∃ st4 cur',
    log_phase s st = Ok st4 ∧ Inv (h ++ [(s, path cur)]) st4
    ∧ frames st4 = cur' :: rest ∧ path cur' = path cur
    ∧ nextChild cur' = nextChild cur
    ∧ pending st4 = pending st ∧ prevDepth st4 = prevDepth st.
Proof.
  intros HI Hfs Hlog. unfold log_phase. rewrite Hlog, Hfs.
  eexists _, _. split; [done|]. split; [|done].
  pose proof (inv_chain _ _ HI) as Hch. rewrite Hfs in Hch.
  assert (Hcur : cur ∈ frames st) by (rewrite Hfs; apply list_elem_of_here).
  assert (Hrp : reverted_paths (h ++ [(s, path cur)]) = reverted_paths h).
  { apply reverted_paths_snoc_other. by apply LOG_not_REVERT. }
  constructor; cbn [frames pending events prevDepth].
  - by eapply chain_head_path.
  - intros p idx Hp. destruct (inv_pending _ _ HI _ _ Hp) as (-> & top & r & Ht & Hn).
    rewrite Hfs in *. injection Ht as <- <-. split; [done|]. by eexists _, _.
  - rewrite log_entries_snoc, decide_True by done.
    apply Forall2_app.
    + eapply Forall2_impl; [apply (inv_events _ _ HI)|].
      intros e x [Hc Hd]. split; [done|]. rewrite Hd.
      symmetry. apply discarded_congr; [done|]. unfold live_paths. by rewrite Hfs.
    + apply Forall2_cons. split; [|constructor]. split; [done|]. cbn [dropped snd].
      split; [done|]. intros [_ Hn]. exfalso. apply Hn.
      unfold live_paths. cbn [frames fmap list_fmap path]. apply list_elem_of_here.
  - rewrite Hrp. intros f [->|Hf]%elem_of_cons.
    + by apply (inv_reverted _ _ HI cur).
    + apply (inv_reverted _ _ HI f). rewrite Hfs. by apply list_elem_of_further.
  - intros f k [->|Hf]%elem_of_cons; cbn [logsIdx path].
    + rewrite elem_of_app, list_elem_of_singleton, (inv_logsIdx _ _ HI cur k Hcur).
      split.
      * intros [(e & He & Hp)| ->].
        -- exists e. split; [|done]. by apply lookup_app_l_Some.
        -- eexists. split; [apply list_lookup_middle; done | done].
      * intros (e & He & Hp).
        apply lookup_app_Some in He as [He|[Hge He]]; [left; by exists e|].
        right. apply list_lookup_singleton_Some in He as [He _]. lia.
    + assert (Hfin : f ∈ frames st) by (rewrite Hfs; by apply list_elem_of_further).
      rewrite (inv_logsIdx _ _ HI f k Hfin). split.
      * intros (e & He & Hp). exists e. split; [|done]. by apply lookup_app_l_Some.
      * intros (e & He & Hp).
        apply lookup_app_Some in He as [He|[Hge He]]; [by exists e|].
        apply list_lookup_singleton_Some in He as [_ <-]. cbn in Hp.
        symmetry in Hp. by apply (chain_below_top _ _ _ Hch Hf) in Hp.
  - assert (Hfr : frontier
        {| frames := {| path := path cur; nextChild := nextChild cur;
                        logsIdx := logsIdx cur ++ [length (events st)];
                        reverted := reverted cur |} :: rest;
           prevDepth := prevDepth st; pending := pending st;
           events := events st ++
             [{| ev_op := op s; ev_pc := pc s; ev_depth := depth s;
                 ev_callPath := path cur; dropped := false |}] |} = frontier st).
    { unfold frontier. cbn [frames pending path nextChild]. by rewrite Hfs. }
    rewrite Hfr. intros x [Hx| ->%list_elem_of_singleton]%elem_of_app.
    + by apply (inv_fresh _ _ HI).
    + unfold frontier. rewrite Hfs. apply plt_extend.
Qed.

Lemma revert_phase_inv h st s cur rest :
  Inv h st → frames st = cur :: rest →
  is_REVERT (op s) = true → is_LOG (op s) = false →
  ∃ st5 cur',
    revert_phase (op s) st = Ok st5 ∧ Inv (h ++ [(s, path cur)]) st5
    ∧ frames st5 = cur' :: rest ∧ path cur' = path cur
    ∧ nextChild cur' = nextChild cur
    ∧ pending st5 = pending st ∧ prevDepth st5 = prevDepth st.
Proof.
  intros HI Hfs Hrev Hlog. unfold revert_phase. rewrite Hrev, Hfs.
  eexists _, _. split; [done|]. split; [|done].
  pose proof (inv_chain _ _ HI) as Hch. rewrite Hfs in Hch.
  assert (Hcur : cur ∈ frames st) by (rewrite Hfs; apply list_elem_of_here).
  assert (Hrp : reverted_paths (h ++ [(s, path cur)]) = reverted_paths h ++ [path cur]).
  { rewrite reverted_paths_snoc. by rewrite decide_True. }
  assert (Hle : filter is_log_entry (h ++ [(s, path cur)]) = filter is_log_entry h).
  { by apply log_entries_snoc_other. }
  constructor; cbn [frames pending events prevDepth].
  - by eapply chain_head_path.
  - intros p idx Hp. destruct (inv_pending _ _ HI _ _ Hp) as (-> & top & r & Ht & Hn).
    rewrite Hfs in *. injection Ht as <- <-. split; [done|]. by eexists _, _.
  - rewrite Hle. eapply Forall2_impl; [apply (inv_events _ _ HI)|].
    intros e x [Hc Hd]. split; [done|]. rewrite Hd.
    unfold discarded, live_paths. rewrite Hrp, Hfs. cbn [frames fmap list_fmap path].
    rewrite elem_of_app, list_elem_of_singleton. split; [tauto|].
    intros [[Hr| ->] Hn]; [done|]. exfalso. apply Hn, list_elem_of_here.
  - rewrite Hrp. intros f [->|Hf]%elem_of_cons; cbn [reverted path].
    + split; [|done]. intros _. apply elem_of_app. right. apply list_elem_of_here.
    + rewrite elem_of_app, list_elem_of_singleton.
      assert (Hfin : f ∈ frames st) by (rewrite Hfs; by apply list_elem_of_further).
      rewrite (inv_reverted _ _ HI f Hfin). split; [tauto|].
      intros [?|Hp]; [done|]. by apply (chain_below_top _ _ _ Hch Hf) in Hp.
  - intros f k [->|Hf]%elem_of_cons.
    + by apply (inv_logsIdx _ _ HI cur k).
    + apply (inv_logsIdx _ _ HI f k). rewrite Hfs. by apply list_elem_of_further.
  - intros x Hx. unfold frontier. cbn [frames pending path nextChild].
    assert (Hfr : frontier st = path cur ++
       [match pending st with Some (_, idx) => idx | None => nextChild cur end])
      by (unfold frontier; by rewrite Hfs).
    rewrite <- Hfr. apply elem_of_app in Hx as [Hx| ->%list_elem_of_singleton].
    + by apply (inv_fresh _ _ HI).
    + rewrite Hfr. apply plt_extend.
Qed.

Lemma plain_step_inv h st s cur rest :
  Inv h st → frames st = cur :: rest →
  is_LOG (op s) = false → is_REVERT (op s) = false →
  Inv (h ++ [(s, path cur)]) st.
Proof.
  intros HI Hfs Hlog Hrev.
  assert (Hrp : reverted_paths (h ++ [(s, path cur)]) = reverted_paths h).
  { by apply reverted_paths_snoc_other. }
  assert (Hle : filter is_log_entry (h ++ [(s, path cur)]) = filter is_log_entry h).
  { by apply log_entries_snoc_other. }
  constructor.
  - apply (inv_chain _ _ HI).
  - apply (inv_pending _ _ HI).
  - rewrite Hle. eapply Forall2_impl; [apply (inv_events _ _ HI)|].
    intros e x [Hc Hd]. split; [done|]. rewrite Hd.
    symmetry. by apply discarded_congr.
  - rewrite Hrp. apply (inv_reverted _ _ HI).
  - apply (inv_logsIdx _ _ HI).
  - intros x [Hx| ->%list_elem_of_singleton]%elem_of_app.
    + by apply (inv_fresh _ _ HI).
    + unfold frontier. rewrite Hfs. apply plt_extend.
Qed.

Lemma Inv_set_prevDepth h st d : Inv h st → Inv h (set_prevDepth d st).
Proof.
  intros HI. constructor; cbn [set_prevDepth frames pending events]; apply HI.
Qed.

Lemma effects_inv h st s cur rest :
  Inv h st → pending st = None → frames st = cur :: rest →
  ∃ st' cur',
    effects s st = Ok st' ∧ Inv (h ++ [(s, path cur)]) st'
    ∧ frames st' = cur' :: rest ∧ path cur' = path cur
    ∧ prevDepth st' = depth s
    ∧ pending st' = (if ENTER (op s) then Some (length rest, nextChild cur) else None)
    ∧ nextChild cur' = (if ENTER (op s) then nextChild cur + 1 else nextChild cur)%nat.
Proof.
  intros HI Hpend Hfs. unfold effects.
  destruct (enter_phase_inv _ _ (op s) _ _ HI Hpend Hfs)
    as (st3 & cur3 & -> & HI3 & Hfs3 & Hp3 & _ & _ & Hpend3 & Hnc3).
  cbn [mbind outcome_bind].
  destruct (is_LOG (op s)) eqn:Hlog; [|destruct (is_REVERT (op s)) eqn:Hrev].
  - destruct (log_phase_inv _ _ s _ _ HI3 Hfs3 Hlog)
      as (st4 & cur4 & -> & HI4 & Hfs4 & Hp4 & Hnc4 & Hpend4 & _).
    cbn [mbind outcome_bind]. unfold revert_phase.
    rewrite (LOG_not_REVERT _ Hlog). cbn [mbind outcome_bind].
    eexists _, cur4. split; [done|]. rewrite Hp3 in HI4.
    split; [by apply Inv_set_prevDepth|].
    cbn [set_prevDepth frames prevDepth pending].
    repeat split; congruence.
  - unfold log_phase. rewrite Hlog. cbn [mbind outcome_bind].
    destruct (revert_phase_inv _ _ s _ _ HI3 Hfs3 Hrev Hlog)
      as (st5 & cur5 & -> & HI5 & Hfs5 & Hp5 & Hnc5 & Hpend5 & _).
    cbn [mbind outcome_bind].
    eexists _, cur5. split; [done|]. rewrite Hp3 in HI5.
    split; [by apply Inv_set_prevDepth|].
    cbn [set_prevDepth frames prevDepth pending].
    repeat split; congruence.
  - unfold log_phase, revert_phase. rewrite Hlog, Hrev. cbn [mbind outcome_bind].
    eexists _, cur3. split; [done|].
    split; [apply Inv_set_prevDepth; rewrite <- Hp3; by eapply plain_step_inv|].
    cbn [set_prevDepth frames prevDepth pending].
    repeat split; congruence.
Qed.

(** ** A whole iteration, and a whole run *)

Lemma settle_inv h st s :
  1 <= depth s → Inv h st → Z.of_nat (length (frames st)) <= prevDepth st →
  ∃ st2 cur rest,
    settle s st = Ok st2 ∧ Inv h st2 ∧ pending st2 = None
    ∧ frames st2 = cur :: rest
    ∧ Z.of_nat (length (frames st2)) <= depth s.
Proof.
  intros Hd HI Hlen. unfold settle.
  destruct (resolve_pending_inv _ _ (depth s) HI)
    as (st1 & -> & HI1 & Hp1 & Hpd1 & _).
  cbn [mbind outcome_bind].
  destruct (pop_phase_inv _ _ _ Hd HI1 Hp1)
    as (st2 & popped & -> & HI2 & Hp2 & _ & _ & _ & Hlen2).
  pose proof (inv_chain _ _ HI2) as Hch.
  destruct (frames st2) as [|cur rest] eqn:Hfs; [done|].
  exists st2, cur, rest. rewrite Hfs.
  split; [done|]. split; [exact HI2|]. by repeat split.
Qed.

Lemma step_inv h st s :
  1 <= depth s → Inv h st → Z.of_nat (length (frames st)) <= prevDepth st →
  ∃ st' p,
    step s st = Ok st'
    ∧ history_from st [s] = [(s, p)]
    ∧ Inv (h ++ [(s, p)]) st'
    ∧ Z.of_nat (length (frames st')) <= prevDepth st'.
Proof.
  intros Hd HI Hlen.
  destruct (settle_inv _ _ _ Hd HI Hlen) as (st2 & cur & rest & Hs & HI2 & Hp2 & Hfs2 & Hl2).
  destruct (effects_inv _ _ s _ _ HI2 Hp2 Hfs2)
    as (st' & cur' & He & HI' & Hfs' & Hp' & Hpd' & _).
  exists st', (path cur). unfold step. cbn [history_from].
  rewrite Hs, Hfs2, He. cbn [mbind outcome_bind].
  split; [done|]. split; [done|]. split; [done|].
  rewrite Hfs', Hpd'. rewrite Hfs2 in Hl2. simpl in *. lia.
Qed.

Lemma history_from_cons st s rest st' p :
  step s st = Ok st' → history_from st [s] = [(s, p)] →
  history_from st (s :: rest) = (s, p) :: history_from st' rest.
Proof.
  unfold step. cbn [history_from].
  destruct (settle s st) as [st2| | |]; try done. cbn [mbind outcome_bind].
  intros ->. destruct (frames st2); [done|]. by intros [= ->].
Qed.

Lemma run_inv steps : ∀ h st,
  depths_ok steps → Inv h st → Z.of_nat (length (frames st)) <= prevDepth st →
  ∃ st',
    run steps st = Ok st'
    ∧ Inv (h ++ history_from st steps) st'
    ∧ Z.of_nat (length (frames st')) <= prevDepth st'
    ∧ fst <$> history_from st steps = steps.
Proof.
  induction steps as [|s rest IH]; intros h st Hok HI Hlen.
  { exists st. cbn. by rewrite app_nil_r. }
  apply Forall_cons in Hok as [Hd Hok].
  destruct (step_inv _ _ _ Hd HI Hlen) as (st1 & p & Hs & Hh & HI1 & Hl1).
  destruct (IH _ _ Hok HI1 Hl1) as (st' & Hr & HI' & Hl' & Hf).
  exists st'. cbn [run]. rewrite Hs. cbn [mbind outcome_bind].
  rewrite (history_from_cons _ _ _ _ _ Hs Hh).
  split; [done|]. split; [by rewrite cons_middle, app_assoc|].
  split; [done|]. cbn. by rewrite Hf.
Qed.

Lemma init_state_inv steps : Inv [] (init_state steps).
Proof.
  constructor; cbn.
  - done.
  - done.
  - constructor.
  - intros f ->%list_elem_of_singleton. cbn. split; [done|]. by intros ?%elem_of_nil.
  - intros f k ->%list_elem_of_singleton. cbn. split; [by intros ?%elem_of_nil|].
    by intros (e & ? & _).
  - by intros x ?%elem_of_nil.
Qed.

Lemma init_state_depth steps :
  depths_ok steps →
  Z.of_nat (length (frames (init_state steps))) <= prevDepth (init_state steps).
Proof.
  intros Hok. cbn. destruct steps as [|s rest]; [lia|].
  apply Forall_cons in Hok as [Hd _]. lia.
Qed.

(** On a well-formed trace the loop finishes, and the invariant holds of its
    final state and of the whole trace. *)
Lemma run_total steps :
  depths_ok steps →
  ∃ st,
    run steps (init_state steps) = Ok st
    ∧ Inv (history steps) st
    ∧ fst <$> history steps = steps.
Proof.
  intros Hok.
  destruct (run_inv steps [] _ Hok (init_state_inv steps) (init_state_depth _ Hok))
    as (st & Hr & HI & _ & Hf).
  by exists st.
Qed.

(** ** Keys of the per-path counters *)

Lemma show_nat_inj n m : show_nat n = show_nat m → n = m.
Proof.
  unfold show_nat. intros H.
  assert (Hnn : ∀ k, Nat.to_uint k ≠ Decimal.Nil).
  { intros k. rewrite <- (Unsigned.of_to k) at 1. rewrite Unsigned.to_of.
    apply unorm_nonnil. }
  apply Unsigned.to_uint_inj.
  pose proof (NilZero.usu _ (Hnn n)) as Hn.
  pose proof (NilZero.usu _ (Hnn m)) as Hm.
  rewrite H in Hn. congruence.
Qed.

Lemma digits_slash_free d : slash_free (NilEmpty.string_of_uint d).
Proof. induction d; simpl; try done; by split. Qed.

Lemma show_nat_slash_free n : slash_free (show_nat n).
Proof.
  unfold show_nat, NilZero.string_of_uint.
  destruct (Nat.to_uint n) eqn:E; try (rewrite <- E; apply digits_slash_free).
  by split.
Qed.

Lemma show_nat_nonempty n : show_nat n ≠ "".
Proof.
  unfold show_nat, NilZero.string_of_uint. by destruct (Nat.to_uint n).
Qed.

Lemma append_nil_l s : "" +:+ s = s.
Proof. done. Qed.

Lemma append_cons_l c s t : String c s +:+ t = String c (s +:+ t).
Proof. done. Qed.

Lemma append_nil_r s : s +:+ "" = s.
Proof. induction s as [|c s IH]; [done|]. by rewrite append_cons_l, IH. Qed.

(** Two separator-free pieces followed by nothing or by a separator agree
    when the whole strings do. *)
Lemma piece_split a : ∀ b ra rb,
  slash_free a → slash_free b →
  (ra = "" ∨ ∃ r, ra = String "/" r) → (rb = "" ∨ ∃ r, rb = String "/" r) →
  a +:+ ra = b +:+ rb → a = b ∧ ra = rb.
Proof.
  induction a as [|c a IH]; intros [|c' b] ra rb Ha Hb Hra Hrb;
    rewrite ?append_nil_l, ?append_cons_l.
  - done.
  - intros ->. destruct Hb as [Hc _]. destruct Hra as [?|[r ?]]; [done|].
    congruence.
  - intros <-. destruct Ha as [Hc _]. destruct Hrb as [?|[r ?]]; [done|].
    congruence.
  - intros [= -> Heq]. destruct Ha as [_ Ha], Hb as [_ Hb].
    destruct (IH _ _ _ Ha Hb Hra Hrb Heq) as [-> ->]. done.
Qed.

Lemma concat_cons_tail x xs :
  String.concat "/" (x :: xs) =
  x +:+ match xs with [] => "" | _ => String "/" (String.concat "/" xs) end.
Proof. destruct xs; cbn; [by rewrite append_nil_r | done]. Qed.

Lemma path_key_inj p : ∀ q, path_key p = path_key q → p = q.
Proof.
  unfold path_key. induction p as [|x xs IH]; intros [|y ys].
  - done.
  - rewrite fmap_cons, concat_cons_tail. intros H. symmetry in H.
    pose proof (show_nat_nonempty y). by destruct (show_nat y).
  - rewrite fmap_cons, concat_cons_tail. intros H.
    pose proof (show_nat_nonempty x). by destruct (show_nat x).
  - rewrite !fmap_cons, !concat_cons_tail. intros H.
    apply piece_split in H as [Hxy Ht]; try apply show_nat_slash_free.
    + apply show_nat_inj in Hxy as ->. f_equal. apply IH.
      destruct xs, ys; try done. cbn [fmap list_fmap] in *. congruence.
    + destruct (show_nat <$> xs); [by left | right; by eexists].
    + destruct (show_nat <$> ys); [by left | right; by eexists].
Qed.

(** ** Finalisation *)

Lemma assign_ordinals_core evs : ∀ c,
  ep_core <$> assign_ordinals evs c =
  ev_core <$> filter (fun e => dropped e = false) evs.
Proof.
  induction evs as [|e evs IH]; intros c; [done|].
  cbn [assign_ordinals]. destruct (dropped e) eqn:Hd.
  - rewrite filter_cons_False by congruence. apply IH.
  - rewrite filter_cons_True by done. rewrite !fmap_cons. f_equal. apply IH.
Qed.

Lemma assign_ordinals_count evs : ∀ c k r,
  assign_ordinals evs c !! k = Some r →
  eventIdxInCall r =
  (default 0%nat (c !! path_key (callPath r))
   + count_path (callPath r) (take k (assign_ordinals evs c)))%nat.
Proof.
  induction evs as [|e evs IH]; intros c k r; [done|].
  cbn [assign_ordinals]. destruct (dropped e) eqn:Hd; [apply IH|].
  destruct k as [|k]; cbn [lookup list_lookup take].
  - intros [= <-]. cbn [callPath eventIdxInCall]. unfold count_path.
    rewrite filter_nil. cbn [length]. lia.
  - intros Hr. rewrite (IH _ _ _ Hr). unfold count_path.
    destruct (decide (ev_callPath e = callPath r)) as [Heq|Hne].
    + rewrite filter_cons_True by done. rewrite Heq, lookup_insert_eq.
      cbn [from_option id length]. lia.
    + rewrite filter_cons_False by done.
      rewrite lookup_insert_ne; [done|].
      intros Hk. by apply path_key_inj in Hk.
Qed.

Lemma retained_events h st evs xs :
  Forall2 (event_of h st) evs xs →
  ev_core <$> filter (fun e => dropped e = false) evs =
  entry_core <$> filter (fun x => ¬ discarded h st x.2) xs.
Proof.
  induction 1 as [|e x evs xs [Hc Hd] _ IH]; [done|].
  destruct (dropped e) eqn:He.
  - rewrite filter_cons_False by congruence.
    rewrite filter_cons_False by (intros Hn; apply Hn; by apply Hd).
    done.
  - rewrite filter_cons_True by done.
    rewrite filter_cons_True by (intros Hn%Hd; congruence).
    rewrite !fmap_cons. by f_equal.
Qed.

(** The output of the deriver, read off the trace: the LOG steps, in order,
    except those whose frame processed a REVERT and was popped. *)
Lemma derive_characterised steps :
  depths_ok steps →
  ∃ st,
    run steps (init_state steps) = Ok st
    ∧ Inv (history steps) st
    ∧ fst <$> history steps = steps
    ∧ deriveEventPathsRevertAware steps = Ok (assign_ordinals (events st) ∅)
    ∧ ep_core <$> assign_ordinals (events st) ∅ =
      entry_core <$>
        filter (fun x => is_log_entry x ∧ ¬ discarded (history steps) st x.2)
               (history steps).
Proof.
  intros Hok. destruct (run_total _ Hok) as (st & Hr & HI & Hf).
  exists st. split; [done|]. split; [done|]. split; [done|]. split.
  { unfold deriveEventPathsRevertAware. by rewrite Hr. }
  rewrite assign_ordinals_core, (retained_events _ _ _ _ (inv_events _ _ HI)).
  rewrite list_filter_filter. f_equal.
  apply list_filter_iff. tauto.
Qed.

Lemma chain_last fs : chain fs → ∃ r, last fs = Some r ∧ path r = [].
Proof.
  induction fs as [|c rest IH]; [done|].
  destruct rest as [|p rest'].
  - intros Hc. by exists c.
  - intros (_ & _ & Hch). destruct (IH Hch) as (r & Hl & Hp). by exists r.
Qed.

Lemma depths_ok_take k steps : depths_ok steps → depths_ok (take k steps).
Proof. apply Forall_take. Qed.

Lemma count_path_app p l1 l2 :
  count_path p (l1 ++ l2) = (count_path p l1 + count_path p l2)%nat.
Proof. unfold count_path. by rewrite filter_app, length_app. Qed.

Lemma ordinals_increase out :
  (∀ k r, out !! k = Some r →
     eventIdxInCall r = count_path (callPath r) (take k out)) →
  ∀ k k' r r', (k < k')%nat → out !! k = Some r → out !! k' = Some r' →
    callPath r = callPath r' → (eventIdxInCall r < eventIdxInCall r')%nat.
Proof.
  intros Hord k k' r r' Hlt Hk Hk' Hp.
  rewrite (Hord _ _ Hk), (Hord _ _ Hk'), <- Hp.
  rewrite <- (take_drop k (take k' out)), take_take, Nat.min_l by lia.
  rewrite count_path_app.
  assert (Hd : drop k (take k' out) !! 0%nat = Some r).
  { rewrite lookup_drop, Nat.add_0_r, lookup_take_lt by lia. done. }
  destruct (drop k (take k' out)) as [|r0 l]; [done|].
  injection Hd as ->. unfold count_path at 3.
  rewrite filter_cons_True by done. cbn [length]. lia.
Qed.

(** ** How the stack and the frontier move *)

Lemma ple_refl p : ple p p.
Proof. by left. Qed.

Lemma ple_trans p q r : ple p q → ple q r → ple p r.
Proof.
  intros [->|H1] [->|H2]; [by left | by right | by right |].
  right. by eapply plt_trans.
Qed.

Lemma plt_app_inv p a b : plt (p ++ a) (p ++ b) → plt a b.
Proof.
  induction p as [|x p IH]; [done|]. cbn. inversion 1; subst; [lia | auto].
Qed.

Lemma ple_app_inv p a b : ple (p ++ a) (p ++ b) → ple a b.
Proof.
  intros [H|H]; [left; by apply app_inv_head in H | right; by eapply plt_app_inv].
Qed.

Lemma plt_singleton_r c r n : plt (c :: r) [n] → (c < n)%nat.
Proof. inversion 1; subst; [done|]. match goal with H : plt _ [] |- _ => inversion H end. Qed.

Lemma ple_singleton_l n c r : ple [n] (c :: r) → (n <= c)%nat.
Proof.
  intros [[= -> _]|H]; [lia|]. inversion H; subst; lia.
Qed.

Lemma advances_refl st : advances st st.
Proof. split; [apply ple_refl | by left]. Qed.

Lemma advances_trans st1 st2 st3 :
  advances st1 st2 → advances st2 st3 → advances st1 st3.
Proof.
  intros [F12 L12] [F23 L23]. split; [by eapply ple_trans|].
  intros q [Hq|Hq]%L23; [by apply L12|].
  right. by eapply ple_trans.
Qed.

Lemma resolve_pending_spec h st d :
  Inv h st →
  resolve_pending d st =
  Ok {| frames := (if confirmed d st then [child_frame st] else []) ++ frames st;
        prevDepth := prevDepth st; pending := None; events := events st |}.
Proof.
  intros HI. unfold resolve_pending, confirmed, child_frame, frontier.
  destruct (pending st) as [[parent idx]|] eqn:Hpend.
  - destruct (inv_pending _ _ HI _ _ Hpend) as (-> & top & rest & Hfs & Hnc).
    destruct (prevDepth st <? d); [|done].
    by rewrite Hfs, frame_at_top.
  - destruct st; cbn in *. by subst.
Qed.

Lemma chain_prefix_path fs top rest f :
  chain fs → fs = top :: rest → f ∈ fs → (length (path f) <= length (path top))%nat.
Proof.
  intros Hc -> [i Hi]%list_elem_of_lookup.
  rewrite (chain_lookup_length _ Hc _ _ Hi).
  rewrite (chain_lookup_length _ Hc 0%nat top eq_refl). lia.
Qed.

Lemma chain_popped_frontier popped : ∀ g f rest,
  chain (g :: popped ++ f :: rest) →
  plt (path g ++ [nextChild g]) (path f ++ [nextChild f]).
Proof.
  induction popped as [|p popped IH]; intros g f rest Hc.
  - apply chain_cons in Hc as (-> & Hpos & _).
    rewrite <- app_assoc. apply plt_sibling. lia.
  - cbn [app] in Hc. apply chain_cons in Hc as (-> & Hpos & Hc).
    eapply plt_trans; [|by eapply IH].
    rewrite <- app_assoc. apply plt_sibling. lia.
Qed.

Lemma chain_app_r l1 : ∀ l2, l2 ≠ [] → chain (l1 ++ l2) → chain l2.
Proof.
  induction l1 as [|a l1 IH]; intros l2 Hne Hc; [done|].
  apply IH; [done|]. cbn [app] in Hc.
  destruct (l1 ++ l2) as [|b l] eqn:E.
  { by destruct l1, l2. }
  by apply chain_tail in Hc.
Qed.

(** The settling part of an iteration, spelled out: a frame is pushed exactly
    when the reservation is confirmed, and then nothing is popped. *)
Lemma settle_spec h st s :
  1 <= depth s → Inv h st → Z.of_nat (length (frames st)) <= prevDepth st →
  ∃ st2 popped cur rest,
    settle s st = Ok st2
    ∧ Inv h st2 ∧ pending st2 = None ∧ prevDepth st2 = prevDepth st
    ∧ frames st2 = cur :: rest
    ∧ (if confirmed (depth s) st then [child_frame st] else []) ++ frames st
      = popped ++ frames st2
    ∧ (confirmed (depth s) st = true → popped = [])
    ∧ Z.of_nat (length (frames st2)) <= depth s
    ∧ advances st st2.
Proof.
  intros Hd HI Hlen. unfold settle.
  destruct (resolve_pending_inv _ _ (depth s) HI) as (st1 & Hres & HI1 & Hp1 & Hpd1 & _).
  rewrite Hres. rewrite (resolve_pending_spec _ _ _ HI) in Hres.
  injection Hres as Hst1. cbn [mbind outcome_bind].
  destruct (pop_phase_inv _ _ _ Hd HI1 Hp1)
    as (st2 & popped & Hpop & HI2 & Hp2 & Hpd2 & Hfs & Hnone & Hlen2).
  pose proof (inv_chain _ _ HI2) as Hch2.
  destruct (frames st2) as [|cur rest] eqn:Hfs2; [done|].
  exists st2, popped, cur, rest. rewrite Hfs2.
  split; [done|]. split; [done|]. split; [done|]. split; [congruence|].
  split; [done|].
  assert (Hfs1 : frames st1 =
      (if confirmed (depth s) st then [child_frame st] else []) ++ frames st)
    by (by rewrite <- Hst1).
  split; [by rewrite <- Hfs1|].
  split.
  { intros Hconf. apply Hnone. rewrite Hfs1, Hconf. cbn [app length].
    unfold confirmed in Hconf. destruct (pending st); [|done].
    apply Z.ltb_lt in Hconf. lia. }
  split; [done|].
  (* the frontier and the live paths *)
  pose proof (inv_chain _ _ HI) as Hch. pose proof (inv_chain _ _ HI1) as Hch1.
  assert (Hstep1 : advances st st1).
  { unfold advances, live_paths. rewrite Hfs1. unfold frontier at 2.
    rewrite Hfs1, Hp1. unfold confirmed, child_frame.
    destruct (frames st) as [|top rest0] eqn:Hfs0; [done|].
    destruct (pending st) as [[parent idx]|] eqn:Hpend.
    - destruct (inv_pending _ _ HI _ _ Hpend) as (_ & top' & rest' & Ht & Hnc).
      rewrite Hfs0 in Ht. injection Ht as <- <-.
      assert (Hfr : frontier st = path top ++ [idx])
        by (unfold frontier; by rewrite Hfs0, Hpend).
      destruct (prevDepth st <? depth s); cbn [app path nextChild].
      + split; [right; apply plt_extend|].
        intros q Hq. rewrite fmap_cons in Hq. cbn [path] in Hq.
        apply elem_of_cons in Hq as [->|Hq]; [right; apply ple_refl | by left].
      + split; [|by left]. right. rewrite Hfr, Hnc. apply plt_sibling. lia.
    - split; [|by left]. left. unfold frontier. by rewrite Hfs0, Hpend. }
  eapply advances_trans; [exact Hstep1|].
  unfold advances, live_paths, frontier. rewrite Hp1, Hp2, Hfs, Hfs2.
  split.
  - destruct popped as [|g popped]; [cbn [app]; apply ple_refl|].
    right. cbn [app]. eapply chain_popped_frontier.
    rewrite Hfs in Hch1. exact Hch1.
  - intros q Hq. left. rewrite fmap_app. apply elem_of_app. by right.
Qed.

Lemma effects_keeps_paths s st st' :
  pending st = None → effects s st = Ok st' →
  frontier st' = frontier st ∧ live_paths st' = live_paths st.
Proof.
  intros Hp. unfold effects, enter_phase, log_phase, revert_phase, frontier, live_paths.
  destruct (frames st) as [|f rest] eqn:Hfs.
  - destruct (ENTER (op s)); [done|]. cbn [mbind outcome_bind]. rewrite Hfs.
    destruct (is_LOG (op s)); [done|]. cbn [mbind outcome_bind]. rewrite Hfs.
    destruct (is_REVERT (op s)); [done|]. cbn [mbind outcome_bind].
    intros [= <-]. cbn. by rewrite ?Hfs, ?Hp.
  - destruct (ENTER (op s)), (is_LOG (op s)), (is_REVERT (op s));
      cbn [mbind outcome_bind frames pending events prevDepth];
      rewrite ?Hfs; cbn [mbind outcome_bind frames pending events prevDepth];
      intros [= <-]; cbn; rewrite ?Hfs, ?Hp; done.
Qed.

Lemma step_spec h st s :
  1 <= depth s → Inv h st → Z.of_nat (length (frames st)) <= prevDepth st →
  ∃ st2 cur rest st',
    settle s st = Ok st2 ∧ frames st2 = cur :: rest
    ∧ effects s st2 = Ok st' ∧ step s st = Ok st'
    ∧ history_from st [s] = [(s, path cur)]
    ∧ Inv (h ++ [(s, path cur)]) st'
    ∧ Z.of_nat (length (frames st')) <= prevDepth st'
    ∧ advances st st' ∧ live_paths st' = live_paths st2.
Proof.
  intros Hd HI Hlen.
  destruct (settle_spec _ _ _ Hd HI Hlen)
    as (st2 & popped & cur & rest & Hs & HI2 & Hp2 & _ & Hfs2 & _ & _ & Hl2 & Hadv).
  destruct (effects_inv _ _ s _ _ HI2 Hp2 Hfs2)
    as (st' & cur' & He & HI' & Hfs' & Hp' & Hpd' & _).
  destruct (effects_keeps_paths _ _ _ Hp2 He) as [Hfr Hlive].
  exists st2, cur, rest, st'. unfold step. cbn [history_from].
  rewrite Hs, Hfs2, He. cbn [mbind outcome_bind].
  repeat (split; [done|]).
  split; [rewrite Hfs', Hpd'; rewrite Hfs2 in Hl2; cbn [length] in *; lia|].
  split; [|done].
  eapply advances_trans; [exact Hadv|].
  unfold advances. rewrite Hfr, Hlive. split; [apply ple_refl | by left].
Qed.

(** Every frame that is current later in the run was on the stack already
    or has a path at or beyond the frontier. *)
Lemma run_advances steps : ∀ h st,
  depths_ok steps → Inv h st → Z.of_nat (length (frames st)) <= prevDepth st →
  ∃ st', run steps st = Ok st' ∧ advances st st'
    ∧ ∀ x, x ∈ history_from st steps →
        x.2 ∈ live_paths st ∨ ple (frontier st) x.2.
Proof.
  induction steps as [|s rest IH]; intros h st Hok HI Hlen.
  { exists st. split; [done|]. split; [apply advances_refl|].
    by intros x ?%elem_of_nil. }
  apply Forall_cons in Hok as [Hd Hok].
  destruct (step_spec _ _ _ Hd HI Hlen)
    as (st2 & cur & rest2 & st1 & Hset & Hfs2 & _ & Hs & Hh & HI1 & Hl1 & Hadv & Hlive).
  destruct (IH _ _ Hok HI1 Hl1) as (st' & Hr & Hadv' & Hfut).
  exists st'. cbn [run]. rewrite Hs. cbn [mbind outcome_bind].
  split; [done|]. split; [by eapply advances_trans|].
  rewrite (history_from_cons _ _ _ _ _ Hs Hh).
  destruct Hadv as [Hfr Hl].
  intros x [->|Hx]%elem_of_cons.
  - cbn [snd]. apply Hl. rewrite Hlive. unfold live_paths. rewrite Hfs2.
    rewrite fmap_cons. apply list_elem_of_here.
  - destruct (Hfut _ Hx) as [Hq|Hq].
    + by apply Hl.
    + right. by eapply ple_trans.
Qed.

Lemma history_from_app pre : ∀ st st' post,
  run pre st = Ok st' → length (history_from st pre) = length pre →
  history_from st (pre ++ post) = history_from st pre ++ history_from st' post.
Proof.
  induction pre as [|s pre IH]; intros st st' post Hr Hlen.
  { cbn in Hr. by injection Hr as ->. }
  cbn [run] in Hr. cbn [app history_from] in *.
  unfold step in Hr.
  destruct (settle s st) as [st2| | |]; try done. cbn [mbind outcome_bind] in Hr.
  destruct (frames st2) as [|cur rest]; [done|].
  destruct (effects s st2) as [st1| | |]; try done. cbn [mbind outcome_bind] in Hr.
  cbn [length] in Hlen. rewrite (IH _ _ post Hr) by lia. done.
Qed.


(** The run cut at one step: the state the step finds, the settled state
    with its current frame, the state the step leaves, and the trace as the
    part before, the step's entry and the part after. *)
Lemma history_split steps pre s post :
  depths_ok steps → steps = pre ++ s :: post →
  ∃ sta st2 cur rest st',
    run pre (init_state steps) = Ok sta
    ∧ Inv (history_from (init_state steps) pre) sta
    ∧ Z.of_nat (length (frames sta)) <= prevDepth sta
    ∧ fst <$> history_from (init_state steps) pre = pre
    ∧ settle s sta = Ok st2 ∧ frames st2 = cur :: rest
    ∧ effects s st2 = Ok st'
    ∧ Inv (history_from (init_state steps) pre ++ [(s, path cur)]) st'
    ∧ Z.of_nat (length (frames st')) <= prevDepth st'
    ∧ live_paths st' = live_paths st2
    ∧ history steps =
      history_from (init_state steps) pre ++ (s, path cur) :: history_from st' post.
Proof.
  intros Hok Hsteps.
  assert (Hok' : depths_ok pre ∧ 1 <= depth s ∧ depths_ok post).
  { rewrite Hsteps in Hok. apply Forall_app in Hok as [? [? ?]%Forall_cons]. done. }
  destruct Hok' as (Hpre & Hd & Hpost).
  destruct (run_inv pre [] _ Hpre (init_state_inv steps) (init_state_depth _ Hok))
    as (sta & Hra & HIa & Hla & Hfa).
  cbn [app] in HIa.
  destruct (step_spec _ _ _ Hd HIa Hla)
    as (st2 & cur & rest & st' & Hset & Hfs2 & He & Hs & Hh & HI' & Hl' & _ & Hlive).
  exists sta, st2, cur, rest, st'. repeat (split; [done|]).
  unfold history. rewrite Hsteps at 2.
  rewrite (history_from_app _ _ _ _ Hra).
  2:{ rewrite <- (length_fmap fst), Hfa. done. }
  f_equal. by apply history_from_cons.
Qed.


Lemma no_revert_paths (h : list (StructLogStep * list nat)) :
  Forall (fun s => is_REVERT (op s) = false) (fst <$> h) → reverted_paths h = [].
Proof.
  unfold reverted_paths. induction h as [|x h IH]; [done|].
  rewrite fmap_cons. intros [Hx Hh]%Forall_cons.
  rewrite filter_cons_False; [by apply IH|].
  unfold is_revert_entry. congruence.
Qed.

Lemma log_entries_length (h : list (StructLogStep * list nat)) :
  length (filter is_log_entry h) =
  length (filter (fun s => is_LOG (op s) = true) (fst <$> h)).
Proof.
  induction h as [|x h IH]; [done|].
  rewrite fmap_cons. destruct (is_LOG (op x.1)) eqn:Hx.
  - rewrite !filter_cons_True by done. cbn [length]. by rewrite IH.
  - rewrite !filter_cons_False; [done| |]; unfold is_log_entry; congruence.
Qed.

(** * Properties of the event-path deriver *)

(** C10.  On a trace whose steps all declare a depth of at least 1, the
    virtual root frame is never popped: after every prefix of the trace, and
    at the moment each step's own effects are applied, the frame stack is
    non-empty with the root (path []) at its bottom.  The run therefore ends
    in a value: no top-of-stack access, parent lookup or event update is out
    of bounds, and the pop loop exits. *)
Theorem root_frame_never_popped steps :
  depths_ok steps →
  (∀ k, ∃ st r,
      run (take k steps) (init_state steps) = Ok st
      ∧ frames st ≠ [] ∧ last (frames st) = Some r ∧ path r = []
      ∧ ∀ s, steps !! k = Some s →
          ∃ st2 cur rest, settle s st = Ok st2 ∧ frames st2 = cur :: rest
                          ∧ ∃ st', effects s st2 = Ok st')
  ∧ ∃ out, deriveEventPathsRevertAware steps = Ok out.
Proof.
  intros Hok. split.
  - intros k.
    destruct (run_inv (take k steps) [] _ (depths_ok_take k _ Hok)
                (init_state_inv steps) (init_state_depth _ Hok))
      as (st & Hr & HI & Hlen & _).
    destruct (chain_last _ (inv_chain _ _ HI)) as (r & Hlast & Hp).
    exists st, r. split; [done|]. split; [by intros E; rewrite E in Hlast|].
    split; [done|]. split; [done|].
    intros s Hs.
    assert (Hd : 1 <= depth s).
    { eapply (Forall_lookup_1 _ _ _ _ Hok Hs). }
    destruct (settle_inv _ _ _ Hd HI Hlen) as (st2 & cur & rest & Hset & HI2 & Hp2 & Hfs2 & _).
    exists st2, cur, rest. split; [done|]. split; [done|].
    destruct (effects_inv _ _ s _ _ HI2 Hp2 Hfs2) as (st' & _ & He & _).
    by exists st'.
  - destruct (derive_characterised _ Hok) as (st & _ & _ & _ & Hd & _). eauto.
Qed.

Lemma root_frame_never_popped_witness :
  ∃ out, deriveEventPathsRevertAware reverting_call_trace = Ok out.
Proof.
  apply (root_frame_never_popped reverting_call_trace).
  unfold depths_ok, reverting_call_trace. repeat constructor; cbn; lia.
Defined.

(** C4.  The list returned by [deriveEventPathsRevertAware] holds the
    provisional records that were not dropped, in the order in which they
    were emitted (not grouped by path); the [eventIdxInCall] of a returned
    record is the number of returned records before it with the same
    [callPath], so it counts from zero, and within one path it strictly
    increases along the list (hence is unique there). *)
Theorem finalized_in_emission_order steps :
  depths_ok steps →
  ∃ st out,
    run steps (init_state steps) = Ok st
    ∧ deriveEventPathsRevertAware steps = Ok out
    ∧ ep_core <$> out = ev_core <$> filter (fun e => dropped e = false) (events st)
    ∧ (∀ k r, out !! k = Some r →
         eventIdxInCall r = count_path (callPath r) (take k out))
    ∧ (∀ k k' r r', (k < k')%nat → out !! k = Some r → out !! k' = Some r' →
         callPath r = callPath r' → (eventIdxInCall r < eventIdxInCall r')%nat).
Proof.
  intros Hok. destruct (derive_characterised _ Hok) as (st & Hr & _ & _ & Hd & _).
  exists st, (assign_ordinals (events st) ∅).
  assert (Hord : ∀ k r, assign_ordinals (events st) ∅ !! k = Some r →
     eventIdxInCall r = count_path (callPath r) (take k (assign_ordinals (events st) ∅))).
  { intros k r Hk. rewrite (assign_ordinals_count _ _ _ _ Hk).
    by rewrite lookup_empty. }
  split; [done|]. split; [done|]. split; [apply assign_ordinals_core|].
  split; [done|]. by apply ordinals_increase.
Qed.

Lemma finalized_in_emission_order_witness :
  ∃ out, deriveEventPathsRevertAware logging_call_trace = Ok out
         ∧ ∀ k r, out !! k = Some r →
             eventIdxInCall r = count_path (callPath r) (take k out).
Proof.
  destruct (finalized_in_emission_order logging_call_trace)
    as (st & out & _ & Hd & _ & Hord & _).
  - unfold depths_ok, logging_call_trace. repeat constructor; cbn; lia.
  - exists out. by split.
Defined.

(** C3.  On a trace without a REVERT step the deriver returns exactly one
    record per step whose mnemonic begins with LOG, in the order of the steps,
    and the [callPath] of each record is the path of the frame that is on top
    of the stack when that step is processed. *)
Theorem no_revert_one_record_per_log steps :
  depths_ok steps →
  Forall (fun s => is_REVERT (op s) = false) steps →
  ∃ out,
    deriveEventPathsRevertAware steps = Ok out
    ∧ fst <$> history steps = steps
    ∧ length out = length (filter (fun s => is_LOG (op s) = true) steps)
    ∧ ep_core <$> out = entry_core <$> filter is_log_entry (history steps).
Proof.
  intros Hok Hnr.
  destruct (derive_characterised _ Hok) as (st & _ & _ & Hf & Hd & Hc).
  exists (assign_ordinals (events st) ∅).
  assert (Hnone : reverted_paths (history steps) = []).
  { apply no_revert_paths. by rewrite Hf. }
  assert (Hall : filter (fun x => is_log_entry x ∧
                           ¬ discarded (history steps) st x.2) (history steps)
                 = filter is_log_entry (history steps)).
  { apply list_filter_iff. intros x. unfold discarded. rewrite Hnone.
    split; [tauto|]. intros Hx. split; [done|]. by intros [?%elem_of_nil _]. }
  rewrite Hall in Hc.
  split; [done|]. split; [done|]. split; [|done].
  rewrite <- (length_fmap ep_core), Hc, length_fmap.
  rewrite <- Hf at 2. apply log_entries_length.
Qed.

Lemma no_revert_one_record_per_log_witness :
  ∃ out, deriveEventPathsRevertAware logging_call_trace = Ok out
         ∧ length out = 3%nat.
Proof.
  destruct (no_revert_one_record_per_log logging_call_trace)
    as (out & Hd & _ & Hlen & _).
  - unfold depths_ok, logging_call_trace. repeat constructor; cbn; lia.
  - unfold logging_call_trace. by repeat constructor.
  - exists out. split; [done|]. exact Hlen.
Defined.

(** C2.  Let the step [s] be processed in the frame [cur] and be followed by
    the step [s'].  If [s] is a CALL- or CREATE-family step, the reservation
    takes the frame's child counter [nextChild cur] and the counter is
    incremented at once.  A frame is pushed for [s'] exactly when [s] made a
    reservation and [s'] is deeper than [s]; its path is
    [path cur ++ [nextChild cur]] and nothing is popped then.  Otherwise no
    frame is pushed and the reservation, if any, is cleared while the parent
    keeps the incremented counter.  After such a zero-step call no step of
    the whole trace is ever processed in a frame at or below that path and no
    returned record carries it: children of the same parent confirmed
    earlier have smaller indices, those confirmed later have larger ones. *)
Theorem zero_step_call_consumes_a_slot pre s s' post :
  depths_ok (pre ++ s :: s' :: post) →
  ∃ sta st0 cur rest st1 cur1 st2,
    run pre (init_state (pre ++ s :: s' :: post)) = Ok sta
    ∧ settle s sta = Ok st0 ∧ frames st0 = cur :: rest
    ∧ effects s st0 = Ok st1
    ∧ frames st1 = cur1 :: rest ∧ path cur1 = path cur
    ∧ pending st1 =
        (if ENTER (op s) then Some (length rest, nextChild cur) else None)
    ∧ nextChild cur1 =
        (if ENTER (op s) then nextChild cur + 1 else nextChild cur)%nat
    ∧ settle s' st1 = Ok st2 ∧ pending st2 = None
    ∧ (if ENTER (op s) && (depth s <? depth s')
       then frames st2 =
            {| path := path cur ++ [nextChild cur]; nextChild := 0;
               logsIdx := []; reverted := false |} :: frames st1
       else ∃ popped, frames st1 = popped ++ frames st2)
    ∧ (ENTER (op s) = true → depth s' <= depth s →
         (∀ j x c r,
            history (pre ++ s :: s' :: post) !! j = Some x →
            x.2 = path cur ++ c :: r →
            ((j <= length pre)%nat → (c < nextChild cur)%nat)
            ∧ ((length pre < j)%nat → (nextChild cur < c)%nat))
         ∧ ∀ out e,
             deriveEventPathsRevertAware (pre ++ s :: s' :: post) = Ok out →
             e ∈ out → ¬ (path cur ++ [nextChild cur]) `prefix_of` callPath e).
Proof.
  intros Hok. set (steps := pre ++ s :: s' :: post) in *.
  assert (Hds : 1 <= depth s ∧ 1 <= depth s' ∧ depths_ok post).
  { unfold steps in Hok.
    apply Forall_app in Hok as [_ [? [? ?]%Forall_cons]%Forall_cons]. done. }
  destruct Hds as (Hd & Hd' & Hpost).
  destruct (history_split steps pre s (s' :: post) Hok eq_refl)
    as (sta & st0 & cur & rest & st1 & Hra & HIa & Hla & Hfa & Hset & Hfs0 & He
        & HI1 & Hl1 & Hlive1 & Hhist).
  (* the reservation *)
  destruct (settle_spec _ _ _ Hd HIa Hla)
    as (st0' & popped0 & cur0 & rest0 & Hset0 & HI0 & Hp0 & _ & Hfs0' & _ & _ & Hlen0 & _).
  rewrite Hset in Hset0. injection Hset0 as <-.
  destruct (effects_inv _ _ s _ _ HI0 Hp0 Hfs0)
    as (st1' & cur1 & He' & _ & Hfs1 & Hp1 & Hpd1 & Hpend1 & Hnc1).
  rewrite He in He'. injection He' as <-.
  (* the next step settles *)
  destruct (settle_spec _ _ _ Hd' HI1 Hl1)
    as (st2 & popped & cur2 & rest2 & Hset2 & HI2 & Hp2 & _ & Hfs2 & Hst & Hnop & _ & _).
  assert (Hconf : confirmed (depth s') st1 = ENTER (op s) && (depth s <? depth s')).
  { unfold confirmed. rewrite Hpend1, Hpd1. by destruct (ENTER (op s)). }
  exists sta, st0, cur, rest, st1, cur1, st2.
  repeat (split; [done|]).
  split.
  { rewrite Hconf in Hst, Hnop.
    destruct (ENTER (op s) && (depth s <? depth s')) eqn:Hc.
    - rewrite (Hnop eq_refl) in Hst. cbn [app] in Hst.
      rewrite <- Hst. unfold child_frame, frontier.
      apply andb_true_iff in Hc as [Hc _]. by rewrite Hfs1, Hpend1, Hp1, Hc.
    - by exists popped. }
  intros Henter Hle. rewrite Henter in Hpend1, Hnc1.
  assert (Hfr1 : frontier st1 = path cur ++ [nextChild cur])
    by (unfold frontier; by rewrite Hfs1, Hpend1, Hp1).
  apply Z.ltb_ge in Hle. rewrite Hconf, Henter, Hle in Hst. cbn [app andb] in Hst.
  (* what the rest of the run can reach *)
  destruct (step_spec _ _ _ Hd' HI1 Hl1)
    as (st2' & cur2' & rest2' & st3 & Hset2' & Hfs2' & He3 & Hs3 & Hh3 & HI3 & Hl3 & _ & Hlive3).
  rewrite Hset2 in Hset2'. injection Hset2' as <-.
  rewrite Hfs2 in Hfs2'. injection Hfs2' as <- <-.
  destruct (effects_keeps_paths _ _ _ Hp2 He3) as [Hfr3 _].
  destruct (run_advances _ _ _ Hpost HI3 Hl3) as (_ & _ & _ & Hfut).
  rewrite (history_from_cons _ _ _ _ _ Hs3 Hh3) in Hhist.
  pose proof (inv_chain _ _ HI1) as Hch1.
  assert (Hlive2 : ∀ q, q ∈ live_paths st2 →
            (length q <= length (path cur))%nat).
  { intros q (f & -> & Hf)%list_elem_of_fmap.
    rewrite <- Hp1. eapply (chain_prefix_path (frames st1)); [done|done|].
    rewrite Hst. apply elem_of_app. by right. }
  assert (Hfr2 : ple (path cur ++ [(nextChild cur + 1)%nat]) (frontier st2)).
  { unfold frontier. rewrite Hfs2, Hp2. rewrite Hfs1, Hfs2 in Hst.
    destruct popped as [|g popped]; cbn [app] in Hst.
    - injection Hst as -> ->. rewrite Hp1, Hnc1. apply ple_refl.
    - injection Hst as <- ->. right. rewrite <- Hp1, <- Hnc1.
      eapply chain_popped_frontier. rewrite Hfs1 in Hch1. exact Hch1. }
  assert (Hidx : ∀ j x c r,
            history steps !! j = Some x → x.2 = path cur ++ c :: r →
            ((j <= length pre)%nat → (c < nextChild cur)%nat)
            ∧ ((length pre < j)%nat → (nextChild cur < c)%nat)).
  { intros j x c r Hj Hx. rewrite Hhist in Hj.
    assert (Hlen : length (history_from (init_state steps) pre) = length pre)
      by (by rewrite <- (length_fmap fst), Hfa).
    assert (Hlong : (length (path cur) < length x.2)%nat)
      by (rewrite Hx, length_app; cbn [length]; lia).
    apply lookup_app_Some in Hj as [Hj|[Hge Hj]].
    - (* before the call *)
      split; [|apply lookup_lt_Some in Hj; lia]. intros _.
      apply list_elem_of_lookup_2 in Hj.
      assert (Hf : plt x.2 (frontier st1)).
      { apply (inv_fresh _ _ HI1). apply elem_of_app. by left. }
      rewrite Hfr1, Hx in Hf. apply plt_app_inv in Hf.
      by apply plt_singleton_r in Hf.
    - rewrite Hlen in *.
      destruct (j - length pre)%nat as [|[|m]] eqn:Hm; cbn in Hj.
      + injection Hj as <-. cbn [snd] in Hlong. lia.
      + injection Hj as <-. cbn [snd] in Hlong.
        assert (Hc2 : path cur2 ∈ live_paths st2).
        { unfold live_paths. rewrite Hfs2, fmap_cons. apply list_elem_of_here. }
        apply Hlive2 in Hc2. lia.
      + split; [lia|]. intros _.
        apply list_elem_of_lookup_2 in Hj. apply Hfut in Hj as [Hlv|Hge'].
        * rewrite Hlive3 in Hlv. apply Hlive2 in Hlv. lia.
        * rewrite Hfr3 in Hge'.
          pose proof (ple_trans _ _ _ Hfr2 Hge') as Hb.
          rewrite Hx in Hb. apply ple_app_inv, ple_singleton_l in Hb. lia. }
  split; [exact Hidx|].
  intros out e Hout He_in [r Hpre].
  destruct (derive_characterised _ Hok) as (st & _ & _ & _ & Hd_out & Hcore).
  rewrite Hout in Hd_out. injection Hd_out as ->.
  assert (Hin : ep_core e ∈ ep_core <$> assign_ordinals (events st) ∅)
    by (by apply list_elem_of_fmap_2).
  rewrite Hcore in Hin. apply list_elem_of_fmap in Hin as (x & Hex & Hx).
  apply list_elem_of_filter in Hx as [_ Hx].
  apply list_elem_of_lookup in Hx as [j Hj].
  assert (Hp : x.2 = path cur ++ nextChild cur :: r).
  { unfold ep_core, entry_core in Hex. injection Hex as _ _ _ <-.
    by rewrite Hpre, <- app_assoc. }
  destruct (Hidx _ _ _ _ Hj Hp) as [Ha Hb].
  destruct (decide (j <= length pre)%nat); [specialize (Ha ltac:(done)) |
    specialize (Hb ltac:(lia))]; lia.
Qed.

(** On [zero_step_trace] the call to the code-less address takes index 0:
    the one frame that is pushed later has path [1], and no returned record
    has a path under [0]. *)
Lemma zero_step_call_consumes_a_slot_witness :
  ∃ out, deriveEventPathsRevertAware zero_step_trace = Ok out
         ∧ Forall (fun e => ¬ [0%nat] `prefix_of` callPath e) out.
Proof.
  eexists. split; [vm_compute; reflexivity|].
  apply Forall_forall. intros e He. revert e He.
  match goal with |- ∀ e, e ∈ ?o → _ =>
    cut (∀ out e, deriveEventPathsRevertAware zero_step_trace = Ok out →
                  e ∈ out → ¬ [0%nat] `prefix_of` callPath e);
      [intros Hall e He; exact (Hall o e ltac:(vm_compute; reflexivity) He)|]
  end.
  destruct (zero_step_call_consumes_a_slot []
              (mkStep "CALL" 1 0) (mkStep "LOG1" 1 1)
              [mkStep "CALL" 1 2; mkStep "LOG1" 2 0; mkStep "STOP" 1 3])
    as (sta & st0 & cur & rest & st1 & cur1 & st2 & Hra & Hset & Hfs0 & _ & _ & _
        & _ & _ & _ & _ & _ & Hzero).
  - repeat constructor; cbn; lia.
  - cbn in Hra. injection Hra as <-.
    vm_compute in Hset. injection Hset as <-.
    cbn in Hfs0. injection Hfs0 as <- <-.
    destruct (Hzero eq_refl ltac:(cbn; lia)) as [_ Hout]. exact Hout.
Defined.

(** * Properties of the indexer and the stitcher *)

(** ** The scenarios of the specification *)

Example stitch_sibling_calls :
  ∃ st, stitchLogsIntoCallTrace sibling_calls_tree sibling_calls_trace
          (memory_of [log_with_address "0xBBBB"; log_with_address other_addr]) false
        = Ok st
        ∧ warnings st = []
        ∧ (logs <$> root_at (tree st) [0%nat]) = Some (Some [100%nat])
        ∧ (logs <$> root_at (tree st) [1%nat]) = Some (Some [101%nat])
        ∧ (logs <$> root_at (tree st) []) = Some (Some []).
Proof. eexists. split; [vm_compute; reflexivity|]. by vm_compute. Qed.

Example stitch_reverting_call_lenient :
  ∃ st, stitchLogsIntoCallTrace (one_call_tree "CALL") reverting_call_trace
          (memory_of [log_with_address target_addr]) true
        = Ok st
        ∧ warnings st = [count_mismatch_warning 0 1; leftover_warning 0]
        ∧ (logs <$> root_at (tree st) [0%nat]) = Some (Some [])
        ∧ (logs <$> root_at (tree st) []) = Some (Some []).
Proof. eexists. split; [vm_compute; reflexivity|]. by vm_compute. Qed.

Example stitch_delegatecall_caller_address :
  ∃ st, stitchLogsIntoCallTrace (one_call_tree "DELEGATECALL") one_call_trace
          (memory_of [log_with_address caller_addr]) false
        = Ok st
        ∧ warnings st = [].
Proof. eexists. split; [vm_compute; reflexivity|]. by vm_compute. Qed.

Example stitch_delegatecall_target_address :
  ∃ st, stitchLogsIntoCallTrace (one_call_tree "DELEGATECALL") one_call_trace
          (memory_of [log_with_address target_addr]) true
        = Ok st
        ∧ warnings st =
          [address_mismatch_warning "0" caller_addr target_addr 0].
Proof. eexists. split; [vm_compute; reflexivity|]. by vm_compute. Qed.

(** ** The path map *)

Lemma map_set_entries key pos m kv :
  kv ∈ map_set key pos m → kv ∈ m ∨ kv.2 = pos.
Proof.
  induction m as [|[k v] m IH]; cbn [map_set].
  - intros ->%list_elem_of_singleton. by right.
  - destruct (String.eqb k key).
    + intros [->|H]%elem_of_cons; [by right|]. left. by apply list_elem_of_further.
    + intros [->|H]%elem_of_cons; [left; apply list_elem_of_here|].
      destruct (IH H) as [?|?]; [left; by apply list_elem_of_further | by right].
Qed.

Lemma map_get_entry key m pos :
  map_get key m = Some pos → ∃ k, (k, pos) ∈ m.
Proof.
  induction m as [|[k v] m IH]; cbn [map_get]; [done|].
  destruct (String.eqb k key).
  - intros [= ->]. exists k. apply list_elem_of_here.
  - intros [k' H]%IH. exists k'. by apply list_elem_of_further.
Qed.

(** ** Updating a node in place *)

Lemma with_calls_node_at {L} (n : CallNode L) kids i q :
  node_at (with_calls (Some kids) n) (i :: q) =
  match kids !! i with Some k => node_at k q | None => None end.
Proof. done. Qed.

Lemma node_at_cons {L} (n : CallNode L) i q :
  node_at n (i :: q) =
  match calls n with
  | Some kids => match kids !! i with Some k => node_at k q | None => None end
  | None => None
  end.
Proof. done. Qed.

Lemma update_at_Some {L} (f : CallNode L → CallNode L) pos : ∀ n,
  is_Some (node_at n pos) → is_Some (update_at f n pos).
Proof.
  induction pos as [|i pos IH]; intros n; [by eexists|].
  rewrite node_at_cons. cbn [update_at].
  destruct (calls n) as [kids|]; [|by intros [? ?]].
  destruct (kids !! i) as [k|]; [|by intros [? ?]].
  intros [k' Hk']%IH. rewrite Hk'. by eexists.
Qed.

(** After an update that leaves [calls] alone, the same positions lead to
    nodes, and only the node at the updated position has other [logs]. *)
Lemma update_at_lookup {L} (f : CallNode L → CallNode L) pos :
  (∀ x, calls (f x) = calls x) → ∀ n n' q,
  update_at f n pos = Some n' →
  match node_at n q with
  | Some m => ∃ m', node_at n' q = Some m'
                    ∧ logs m' = (if decide (q = pos) then logs (f m) else logs m)
  | None => node_at n' q = None
  end.
Proof.
  intros Hf. induction pos as [|i pos IH]; intros n n' q.
  - cbn [update_at]. intros [= <-]. destruct q as [|j q].
    + cbn. exists (f n). by rewrite decide_True.
    + rewrite !node_at_cons, Hf.
      destruct (calls n) as [kids|]; [|done].
      destruct (kids !! j) as [k|]; [|done].
      destruct (node_at k q) as [m|]; [|done].
      exists m. by rewrite decide_False.
  - cbn [update_at].
    destruct (calls n) as [kids|] eqn:Hc; [|done].
    destruct (kids !! i) as [k|] eqn:Hk; [|done].
    destruct (update_at f k pos) as [k'|] eqn:Hu; [|done].
    intros [= <-]. destruct q as [|j q].
    + cbn [node_at]. eexists. split; [done|]. by rewrite decide_False.
    + rewrite with_calls_node_at, node_at_cons, Hc.
      destruct (decide (j = i)) as [->|Hne].
      * rewrite list_lookup_insert_eq by (by eapply lookup_lt_Some). rewrite Hk.
        specialize (IH k k' q Hu).
        destruct (node_at k q) as [m|]; [|done].
        destruct IH as (m' & Hm' & Hl). exists m'. split; [done|].
        rewrite Hl. destruct (decide (q = pos)) as [->|Hq].
        -- by rewrite decide_True.
        -- rewrite decide_False; [done|]. by intros [= ?].
      * rewrite list_lookup_insert_ne by done.
        destruct (kids !! j) as [kj|]; [|done].
        destruct (node_at kj q) as [m|]; [|done].
        exists m. split; [done|]. rewrite decide_False; [done|]. by intros [= ? ?].
Qed.

Lemma update_root_Some {L} (f : CallNode L → CallNode L) root pos :
  is_Some (root_at root pos) → is_Some (update_root f root pos).
Proof.
  destruct root as [n|ns]; cbn [root_at update_root].
  - intros [n' Hn']%(update_at_Some f). rewrite Hn'. by eexists.
  - destruct pos as [|i pos]; [by intros [? ?]|].
    destruct (ns !! i) as [n|]; [|by intros [? ?]].
    intros [n' Hn']%(update_at_Some f). rewrite Hn'. by eexists.
Qed.

Lemma update_root_lookup {L} (f : CallNode L → CallNode L) root pos root' q :
  (∀ x, calls (f x) = calls x) →
  update_root f root pos = Some root' →
  match root_at root q with
  | Some m => ∃ m', root_at root' q = Some m'
                    ∧ logs m' = (if decide (q = pos) then logs (f m) else logs m)
  | None => root_at root' q = None
  end.
Proof.
  intros Hf. destruct root as [n|ns]; cbn [root_at update_root].
  - destruct (update_at f n pos) as [n'|] eqn:Hu; [|done].
    intros [= <-]. cbn [root_at]. by apply update_at_lookup.
  - destruct pos as [|i pos]; [done|].
    destruct (ns !! i) as [n|] eqn:Hn; [|done].
    destruct (update_at f n pos) as [n'|] eqn:Hu; [|done].
    intros [= <-]. cbn [root_at]. destruct q as [|j q]; [done|].
    destruct (decide (j = i)) as [->|Hne].
    + rewrite list_lookup_insert_eq by (by eapply lookup_lt_Some). rewrite Hn.
      pose proof (update_at_lookup f pos Hf n n' q Hu) as H.
      destruct (node_at n q) as [m|]; [|done].
      destruct H as (m' & Hm' & Hl). exists m'. split; [done|].
      rewrite Hl. destruct (decide (q = pos)) as [->|Hq].
      * by rewrite decide_True.
      * rewrite decide_False; [done|]. by intros [= ?].
    + rewrite list_lookup_insert_ne by done.
      destruct (ns !! j) as [nj|]; [|done].
      destruct (node_at nj q) as [m|]; [|done].
      exists m. split; [done|]. rewrite decide_False; [done|]. by intros [= ? ?].
Qed.

(** ** The indexer stores positions of the tree *)

Lemma visit_list_entries {L}
  (v : CallNode L → list nat → PathMap → CallNode L * PathMap) prefix ks :
  Forall (fun k => ∀ pre pm k' pm', v k pre pm = (k', pm') →
            ∀ kv, kv ∈ pm' → kv ∈ pm ∨ ∃ q, kv.2 = pre ++ q ∧ is_Some (node_at k' q)) ks →
  ∀ j pm ks' pm', visit_list v prefix ks j pm = (ks', pm') →
  ∀ kv, kv ∈ pm' →
    kv ∈ pm ∨ ∃ i k' q, ks' !! i = Some k' ∧ kv.2 = prefix ++ (j + i)%nat :: q
                        ∧ is_Some (node_at k' q).
Proof.
  induction 1 as [|k ks Hk _ IH]; intros j pm ks' pm'; cbn [visit_list].
  - intros [= <- <-] kv Hkv. by left.
  - destruct (v k (prefix ++ [j]) pm) as [k1 pm1] eqn:Hv.
    destruct (visit_list v prefix ks (S j) pm1) as [ks2 pm2] eqn:Hl.
    intros [= <- <-] kv Hkv.
    destruct (IH _ _ _ _ Hl kv Hkv) as [Hin|(i & k' & q & Hi & Hp & Hq)].
    + destruct (Hk _ _ _ _ Hv kv Hin) as [?|(q & Hp & Hq)]; [by left|].
      right. exists 0%nat, k1, q. split; [done|]. split; [|done].
      by rewrite Hp, <- app_assoc, Nat.add_0_r.
    + right. exists (S i), k', q. split; [done|]. split; [|done].
      rewrite Hp. do 2 f_equal. lia.
Qed.

Lemma visit_entries {L} (node : CallNode L) : ∀ prefix pm node' pm',
  visit node prefix pm = (node', pm') →
  ∀ kv, kv ∈ pm' → kv ∈ pm ∨ ∃ q, kv.2 = prefix ++ q ∧ is_Some (node_at node' q).
Proof.
  induction node as [m t f o i ou v g gu kids l p IH] using CallNode_ind.
  intros prefix pm node' pm'. cbn [visit]. destruct kids as [ks|].
  - destruct (visit_list visit prefix ks 0 (map_set (path_key prefix) prefix pm))
      as [ks' pm2] eqn:Hl.
    intros [= <- <-] kv Hkv. cbn [default from_option id] in IH.
    destruct (visit_list_entries _ _ _ IH _ _ _ _ Hl kv Hkv)
      as [Hin|(j & k' & q & Hj & Hp & Hq)].
    + apply map_set_entries in Hin as [?|Hp]; [by left|].
      right. exists []. rewrite app_nil_r. split; [done | by eexists].
    + right. exists (j :: q). split; [done|].
      rewrite node_at_cons. cbn [calls]. by rewrite Hj.
  - intros [= <- <-] kv Hkv.
    apply map_set_entries in Hkv as [?|Hp]; [by left|].
    right. exists []. rewrite app_nil_r. split; [done | by eexists].
Qed.

Lemma annotate_valid root root' pm :
  annotateCallPaths root = (root', pm) → valid_map pm root'.
Proof.
  unfold annotateCallPaths, valid_map. destruct root as [n|ns].
  - destruct (visit n [] []) as [n' pm'] eqn:Hv. intros [= <- <-].
    apply Forall_forall. intros kv Hkv.
    destruct (visit_entries _ _ _ _ _ Hv kv Hkv) as [?%elem_of_nil|(q & Hp & Hq)]; [done|].
    by rewrite Hp.
  - destruct (visit_list visit [] ns 0 []) as [ns' pm'] eqn:Hv. intros [= <- <-].
    apply Forall_forall. intros kv Hkv.
    assert (Hall : Forall (fun k : CallNode loc => ∀ pre pm k' pm',
              visit k pre pm = (k', pm') →
              ∀ kv, kv ∈ pm' → kv ∈ pm ∨ ∃ q, kv.2 = pre ++ q ∧ is_Some (node_at k' q)) ns).
    { apply Forall_forall. intros k _ pre pm0 k' pm0'. apply visit_entries. }
    destruct (visit_list_entries _ _ _ Hall _ _ _ _ Hv kv Hkv)
      as [?%elem_of_nil|(i & k' & q & Hi & Hp & Hq)]; [done|].
    rewrite Hp, app_nil_l, Nat.add_0_l. cbn [root_at]. by rewrite Hi.
Qed.

(** ** The indexer registers every node under the key of its position *)

Lemma map_get_set_eq key pos m : map_get key (map_set key pos m) = Some pos.
Proof.
  induction m as [|[k v] m IH]; cbn [map_set map_get].
  - by rewrite String.eqb_refl.
  - destruct (String.eqb_spec k key) as [->|Hne]; cbn [map_get].
    + by rewrite String.eqb_refl.
    + by destruct (String.eqb_spec k key).
Qed.

Lemma map_get_set_ne key key' pos m :
  key ≠ key' → map_get key (map_set key' pos m) = map_get key m.
Proof.
  intros Hne. induction m as [|[k v] m IH]; cbn [map_set map_get].
  - by destruct (String.eqb_spec key' key).
  - destruct (String.eqb_spec k key') as [->|Hk]; cbn [map_get].
    + by destruct (String.eqb_spec key' key).
    + by rewrite IH.
Qed.

Lemma visit_list_registers {L}
  (v : CallNode L → list nat → PathMap → CallNode L * PathMap) prefix ks :
  Forall (fun k => ∀ pre pm k' pm', v k pre pm = (k', pm') →
            (∀ key, (∀ q, key ≠ path_key (pre ++ q)) →
                    map_get key pm' = map_get key pm)
            ∧ (∀ q, is_Some (node_at k' q) →
                    map_get (path_key (pre ++ q)) pm' = Some (pre ++ q))) ks →
  ∀ j pm ks' pm', visit_list v prefix ks j pm = (ks', pm') →
    (∀ key, (∀ i q, key ≠ path_key (prefix ++ (j + i)%nat :: q)) →
            map_get key pm' = map_get key pm)
    ∧ (∀ i k' q, ks' !! i = Some k' → is_Some (node_at k' q) →
         map_get (path_key (prefix ++ (j + i)%nat :: q)) pm'
         = Some (prefix ++ (j + i)%nat :: q)).
Proof.
  induction 1 as [|k ks Hk _ IH]; intros j pm ks' pm'; cbn [visit_list].
  - intros [= <- <-]. split; [done|]. by intros i k' q ?.
  - destruct (v k (prefix ++ [j]) pm) as [k1 pm1] eqn:Hv.
    destruct (visit_list v prefix ks (S j) pm1) as [ks2 pm2] eqn:Hl.
    intros [= <- <-].
    destruct (Hk _ _ _ _ Hv) as [Hframe1 Hreg1].
    destruct (IH _ _ _ _ Hl) as [Hframe2 Hreg2].
    split.
    + intros key Hkey. rewrite Hframe2, Hframe1; [done| |].
      * intros q. rewrite <- app_assoc. cbn [app].
        specialize (Hkey 0%nat q). by rewrite Nat.add_0_r in Hkey.
      * intros i q. specialize (Hkey (S i) q).
        by replace (j + S i)%nat with (S j + i)%nat in Hkey by lia.
    + intros [|i] k' q Hi Hq.
      * injection Hi as <-. rewrite Nat.add_0_r, Hframe2.
        -- specialize (Hreg1 q Hq). by rewrite <- app_assoc in Hreg1.
        -- intros i q' Heq%path_key_inj. apply app_inv_head in Heq.
           injection Heq as Heq _. lia.
      * replace (j + S i)%nat with (S j + i)%nat by lia. by apply (Hreg2 i k' q).
Qed.

Lemma visit_registers {L} (node : CallNode L) : ∀ prefix pm node' pm',
  visit node prefix pm = (node', pm') →
  (∀ key, (∀ q, key ≠ path_key (prefix ++ q)) → map_get key pm' = map_get key pm)
  ∧ (∀ q, is_Some (node_at node' q) →
          map_get (path_key (prefix ++ q)) pm' = Some (prefix ++ q)).
Proof.
  induction node as [m t f o i ou v g gu kids l p IH] using CallNode_ind.
  intros prefix pm node' pm'. cbn [visit]. destruct kids as [ks|].
  - destruct (visit_list visit prefix ks 0 (map_set (path_key prefix) prefix pm))
      as [ks' pm2] eqn:Hl.
    intros [= <- <-]. cbn [default from_option id] in IH.
    destruct (visit_list_registers _ _ _ IH _ _ _ _ Hl) as [Hframe Hreg].
    split.
    + intros key Hkey. rewrite Hframe by (intros j q; apply Hkey).
      apply map_get_set_ne. specialize (Hkey []). by rewrite app_nil_r in Hkey.
    + intros [|j q] Hq.
      * rewrite app_nil_r, Hframe; [apply map_get_set_eq|].
        intros j q Heq%path_key_inj.
        apply (f_equal length) in Heq. rewrite length_app in Heq. cbn in Heq. lia.
      * rewrite node_at_cons in Hq. cbn [calls] in Hq.
        destruct (ks' !! j) as [k'|] eqn:Hj; [|by destruct Hq].
        by apply (Hreg j k' q).
  - intros [= <- <-]. split.
    + intros key Hkey. apply map_get_set_ne.
      specialize (Hkey []). by rewrite app_nil_r in Hkey.
    + intros [|j q] Hq; [|by destruct Hq].
      rewrite app_nil_r. apply map_get_set_eq.
Qed.

Lemma annotate_registers (root root' : CallTracerRoot loc) pm q :
  annotateCallPaths root = (root', pm) → is_Some (root_at root' q) →
  map_get (path_key q) pm = Some q.
Proof.
  unfold annotateCallPaths. destruct root as [n|ns].
  - destruct (visit n [] []) as [n' pm'] eqn:Hv. intros [= <- <-] Hq.
    by apply (proj2 (visit_registers _ _ _ _ _ Hv) q).
  - destruct (visit_list visit [] ns 0 []) as [ns' pm'] eqn:Hv. intros [= <- <-].
    destruct q as [|i q]; [by intros [? ?]|]. cbn [root_at].
    destruct (ns' !! i) as [n'|] eqn:Hi; [|by intros [? ?]].
    intros Hq.
    assert (Hall : Forall (fun k : CallNode loc => ∀ pre pm k' pm',
              visit k pre pm = (k', pm') →
              (∀ key, (∀ q, key ≠ path_key (pre ++ q)) →
                      map_get key pm' = map_get key pm)
              ∧ (∀ q, is_Some (node_at k' q) →
                      map_get (path_key (pre ++ q)) pm' = Some (pre ++ q))) ns).
    { apply Forall_forall. intros k _ pre pm0 k' pm0'. apply visit_registers. }
    by apply (proj2 (visit_list_registers _ _ _ Hall _ _ _ _ Hv) i n' q).
Qed.

(** ** Updates keep the shape of the tree *)

Lemma clear_logs_calls n : calls (clear_logs n) = calls n.
Proof. by destruct n. Qed.

Lemma same_shape_refl r : same_shape r r.
Proof. by intros q. Qed.

Lemma same_shape_trans r1 r2 r3 :
  same_shape r1 r2 → same_shape r2 r3 → same_shape r1 r3.
Proof. intros H12 H23 q. etrans; [apply H23 | apply H12]. Qed.

Lemma update_root_shape (f : CallNode loc → CallNode loc) root pos root' :
  (∀ x, calls (f x) = calls x) →
  update_root f root pos = Some root' → same_shape root root'.
Proof.
  intros Hf Hu q. pose proof (update_root_lookup f root pos root' q Hf Hu) as H.
  destruct (root_at root q) as [m|].
  - destruct H as (m' & -> & _). split; by eexists.
  - rewrite H. split; by intros [? ?].
Qed.

Lemma init_logs_shape pm : ∀ root root',
  init_logs pm root = Ok root' → same_shape root root'.
Proof.
  induction pm as [|[k pos] pm IH]; intros root root'; cbn [init_logs].
  - intros [= <-]. apply same_shape_refl.
  - destruct (update_root clear_logs root pos) as [root1|] eqn:Hu; [|done].
    intros Hi. eapply same_shape_trans; [|by eapply IH].
    by eapply update_root_shape; [apply clear_logs_calls|].
Qed.

Lemma push_log_shape l root pos root' :
  push_log l root pos = Ok root' → same_shape root root'.
Proof.
  unfold push_log. destruct (root_at root pos) as [n|]; [|done].
  destruct (logs n) as [ls|]; [|done].
  destruct (update_root _ root pos) as [r|] eqn:Hu; [|done].
  intros [= <-]. eapply update_root_shape; [|exact Hu]. by intros [].
Qed.

Lemma attach_one_shape pm li e st st' :
  attach_one pm li e st = Ok st' → same_shape (tree st) (tree st').
Proof.
  unfold attach_one. destruct (map_get _ pm) as [pos|].
  2:{ intros [= <-]. apply same_shape_refl. }
  destruct (root_at (tree st) pos); [|done].
  destruct (receipt_logs (memory st) !! li) as [l|]; [|done].
  destruct (push_log l (tree st) pos) as [r| | |] eqn:Hp; try done.
  cbn [mbind outcome_bind]. intros [= <-]. by eapply push_log_shape.
Qed.

Lemma attach_loop_shape pm : ∀ evs li st st' n,
  attach_loop pm li evs st = Ok (st', n) → same_shape (tree st) (tree st').
Proof.
  induction evs as [|e evs IH]; intros li st st' n; cbn [attach_loop].
  - intros [= <- _]. apply same_shape_refl.
  - destruct (li <? length (receipt_logs (memory st)))%nat.
    2:{ intros [= <- _]. apply same_shape_refl. }
    destruct (attach_one pm li e st) as [st1| | |] eqn:Ha; try done.
    cbn [mbind outcome_bind]. intros Hl.
    eapply same_shape_trans; [by eapply attach_one_shape | by eapply IH].
Qed.

(** ** Initialising and filling the logs arrays *)

Lemma init_logs_ready refs pm : ∀ done root,
  valid_map pm root → ready_map refs done root →
  ∃ root', init_logs pm root = Ok root' ∧ ready_map refs (done ++ pm) root'.
Proof.
  induction pm as [|[k pos] pm IH]; intros done root Hv Hr; cbn [init_logs].
  { exists root. by rewrite app_nil_r. }
  apply Forall_cons in Hv as [Hpos Hv]. cbn [snd] in Hpos.
  destruct (update_root_Some clear_logs _ _ Hpos) as [root1 Hu].
  rewrite Hu.
  pose proof (fun q => update_root_lookup clear_logs root pos root1 q clear_logs_calls Hu)
    as Hlook.
  destruct (IH (done ++ [(k, pos)]) root1) as (root' & Hi & Hready).
  - eapply Forall_impl; [exact Hv|]. intros kv [m Hm]. cbn beta in *.
    specialize (Hlook kv.2). rewrite Hm in Hlook.
    destruct Hlook as (m' & Hm' & _). by eexists.
  - apply Forall_app. split.
    + eapply Forall_impl; [exact Hr|]. intros kv (m & ls & Hm & Hls & Hsub). cbn beta.
      specialize (Hlook kv.2). rewrite Hm in Hlook.
      destruct Hlook as (m' & Hm' & Hl). exists m'.
      destruct (decide (kv.2 = pos)).
      * exists []. split; [done|]. split; [by rewrite Hl|]. by intros l ?%elem_of_nil.
      * exists ls. split; [done|]. split; [by rewrite Hl | done].
    + apply Forall_singleton. cbn [snd].
      destruct Hpos as [m Hm]. specialize (Hlook pos). rewrite Hm in Hlook.
      destruct Hlook as (m' & Hm' & Hl). exists m', [].
      split; [done|]. split; [by rewrite Hl, decide_True|]. by intros l ?%elem_of_nil.
  - exists root'. split; [done|]. by rewrite <- app_assoc in Hready.
Qed.

Lemma push_log_ready refs pm l root pos n ls :
  ready_map refs pm root → l ∈ refs →
  root_at root pos = Some n → logs n = Some ls →
  ∃ root' n',
    push_log l root pos = Ok root' ∧ ready_map refs pm root'
    ∧ root_at root' pos = Some n' ∧ logs n' = Some (ls ++ [l]).
Proof.
  intros Hr Hl Hn Hls. unfold push_log. rewrite Hn, Hls.
  set (f := fun n0 : CallNode loc => with_logs (Some (ls ++ [l])) n0 (calls n0)).
  destruct (update_root_Some f root pos) as [root' Hu]; [by eexists|].
  rewrite Hu.
  assert (Hf : ∀ x, calls (f x) = calls x) by (by intros []).
  pose proof (fun q => update_root_lookup f root pos root' q Hf Hu) as Hlook.
  pose proof (Hlook pos) as Hpos. rewrite Hn in Hpos.
  destruct Hpos as (n' & Hn' & Hl'). rewrite decide_True in Hl' by done.
  exists root', n'. split; [done|]. split; [|by split].
  eapply Forall_impl; [exact Hr|]. intros kv (m & ls0 & Hm & Hls0 & Hsub). cbn beta.
  specialize (Hlook kv.2). rewrite Hm in Hlook.
  destruct Hlook as (m' & Hm' & Hlm). exists m'.
  destruct (decide (kv.2 = pos)) as [Heq|Hne].
  - exists (ls ++ [l]). split; [done|]. split; [by rewrite Hlm|].
    rewrite Heq in Hm. rewrite Hn in Hm. injection Hm as <-.
    rewrite Hls in Hls0. injection Hls0 as <-.
    intros x [Hx| ->%list_elem_of_singleton]%elem_of_app; [by apply Hsub | done].
  - exists ls0. split; [done|]. split; [by rewrite Hlm | done].
Qed.

(** ** The attachment walk *)

Lemma no_node_walk_line key li : walk_line (no_node_warning key li).
Proof. by split. Qed.

Lemma address_mismatch_walk_line key ex got li :
  walk_line (address_mismatch_warning key ex got li).
Proof. by split. Qed.

Lemma prefix_append a b : String.prefix a (a +:+ b) = true.
Proof.
  induction a as [|c a IH]; [by destruct b|].
  rewrite append_cons_l. cbn [String.prefix]. by destruct (ascii_dec c c).
Qed.

Lemma leftover_is_leftover li : is_leftover_line (leftover_warning li) = true.
Proof. apply prefix_append. Qed.

Lemma count_not_leftover E L : is_leftover_line (count_mismatch_warning E L) = false.
Proof. done. Qed.

Lemma attach_one_ok refs pm li e st l :
  ready_map refs pm (tree st) →
  receipt_logs (memory st) !! li = Some l → l ∈ refs →
  ∃ st' walk,
    attach_one pm li e st = Ok st'
    ∧ ready_map refs pm (tree st') ∧ memory st' = memory st
    ∧ warnings st' = warnings st ++ walk
    ∧ (length walk <= 1)%nat ∧ Forall walk_line walk.
Proof.
  intros Hr Hl Hin. unfold attach_one.
  destruct (map_get (path_key (callPath e)) pm) as [pos|] eqn:Hg.
  - destruct (map_get_entry _ _ _ Hg) as [k Hk].
    destruct (proj1 (Forall_forall _ _) Hr _ Hk) as (node & ls & Hn & Hls & _).
    cbn [snd] in Hn. rewrite Hn, Hl.
    destruct (push_log_ready _ _ l _ _ _ _ Hr Hin Hn Hls) as (root' & n' & -> & Hr' & _).
    cbn [mbind outcome_bind].
    destruct (address_disagrees _ _).
    + eexists _, [_]. split; [done|]. cbn [tree memory warnings].
      split; [done|]. split; [done|]. split; [reflexivity|]. split; [cbn; lia|].
      apply Forall_singleton, address_mismatch_walk_line.
    + eexists _, []. split; [done|]. cbn [tree memory warnings].
      rewrite app_nil_r. split; [done|]. split; [done|]. split; [done|].
      split; [cbn; lia | done].
  - eexists _, [_]. split; [done|]. cbn [tree memory warnings].
    split; [done|]. split; [done|]. split; [reflexivity|]. split; [cbn; lia|].
    apply Forall_singleton, no_node_walk_line.
Qed.

Lemma attach_loop_ok refs pm : ∀ evs li st,
  ready_map refs pm (tree st) →
  (∀ l, l ∈ receipt_logs (memory st) → l ∈ refs) →
  ∃ st1 sts walk,
    attach_loop pm li evs st =
      Ok (st1, (li + min (length evs) (length (receipt_logs (memory st)) - li))%nat)
    ∧ length sts = S (min (length evs) (length (receipt_logs (memory st)) - li))
    ∧ sts !! 0%nat = Some st
    ∧ sts !! min (length evs) (length (receipt_logs (memory st)) - li) = Some st1
    ∧ (∀ i e, evs !! i = Some e →
         (i < min (length evs) (length (receipt_logs (memory st)) - li))%nat →
         ∃ s s', sts !! i = Some s ∧ sts !! S i = Some s'
                 ∧ attach_one pm (li + i) e s = Ok s')
    ∧ ready_map refs pm (tree st1) ∧ memory st1 = memory st
    ∧ warnings st1 = warnings st ++ walk
    ∧ (length walk <= min (length evs) (length (receipt_logs (memory st)) - li))%nat
    ∧ Forall walk_line walk.
Proof.
  induction evs as [|e evs IH]; intros li st Hr Hrefs.
  { exists st, [st], []. cbn [attach_loop length].
    rewrite Nat.min_0_l, Nat.add_0_r, app_nil_r. splits; done. }
  cbn [attach_loop length].
  destruct (li <? length (receipt_logs (memory st)))%nat eqn:Hlt.
  - apply Nat.ltb_lt in Hlt.
    destruct (lookup_lt_is_Some_2 _ _ Hlt) as [l Hl].
    assert (Hlin : l ∈ refs) by (apply Hrefs; by eapply list_elem_of_lookup_2).
    destruct (attach_one_ok _ _ _ e _ _ Hr Hl Hlin)
      as (st' & w1 & Ha & Hr' & Hm' & Hw' & Hlen1 & Hw1).
    rewrite Ha. cbn [mbind outcome_bind].
    destruct (IH (S li) st' Hr') as (st1 & sts & walk & Hloop & Hlen & H0 & Hn & Hpairs
                                     & Hr1 & Hm1 & Hws & Hwl & Hwf).
    { rewrite Hm'. exact Hrefs. }
    rewrite Hm' in *.
    set (L := length (receipt_logs (memory st))) in *.
    assert (Hmin : min (S (length evs)) (L - li) = S (min (length evs) (L - S li)))
      by lia.
    rewrite Hmin.
    exists st1, (st :: sts), (w1 ++ walk). rewrite Hloop.
    split; [do 2 f_equal; lia|]. split; [cbn; lia|]. split; [done|]. split; [done|].
    split.
    { intros [|i] e' He' Hi.
      - injection He' as <-. exists st, st'. rewrite Nat.add_0_r. by repeat split.
      - destruct (Hpairs i e' He' ltac:(lia)) as (s & s' & ? & ? & Hat).
        exists s, s'. repeat (split; [done|]).
        by replace (li + S i)%nat with (S li + i)%nat by lia. }
    split; [done|]. split; [congruence|].
    split; [by rewrite Hws, Hw', app_assoc|].
    split; [rewrite length_app; lia|]. by apply Forall_app.
  - apply Nat.ltb_ge in Hlt.
    replace (length (receipt_logs (memory st)) - li)%nat with 0%nat by lia.
    rewrite Nat.min_0_r, Nat.add_0_r.
    exists st, [st], []. rewrite app_nil_r. splits; try done.
    intros i e' ? ?. lia.
Qed.

(** The whole walk on a well-formed trace: every stage succeeds, and the
    stages are the ones of [stitch_walk]. *)
Lemma stitch_walk_ok root structLogs mem :
  depths_ok structLogs →
  ∃ events root0 pm root1 st1 sts walk,
    deriveEventPathsRevertAware structLogs = Ok events
    ∧ annotateCallPaths root = (root0, pm)
    ∧ init_logs pm root0 = Ok root1
    ∧ attach_loop pm 0 events (walk_start root1 (length events) mem) =
        Ok (st1, min (length events) (length (receipt_logs mem)))
    ∧ length sts = S (min (length events) (length (receipt_logs mem)))
    ∧ sts !! 0%nat = Some (walk_start root1 (length events) mem)
    ∧ sts !! min (length events) (length (receipt_logs mem)) = Some st1
    ∧ (∀ i e, events !! i = Some e →
         (i < min (length events) (length (receipt_logs mem)))%nat →
         ∃ s s', sts !! i = Some s ∧ sts !! S i = Some s'
                 ∧ attach_one pm i e s = Ok s')
    ∧ ready_map (receipt_logs mem) pm (tree st1) ∧ memory st1 = mem
    ∧ warnings st1 = warnings (walk_start root1 (length events) mem) ++ walk
    ∧ (length walk <= min (length events) (length (receipt_logs mem)))%nat
    ∧ Forall walk_line walk
    ∧ stitch_walk root structLogs mem =
        Ok (leftover_loop (min (length events) (length (receipt_logs mem))) st1).
Proof.
  intros Hok.
  destruct (derive_characterised _ Hok) as (dst & _ & _ & _ & Hd & _).
  destruct (annotateCallPaths root) as [root0 pm] eqn:Hann.
  destruct (init_logs_ready (receipt_logs mem) pm [] root0 (annotate_valid _ _ _ Hann))
    as (root1 & Hinit & Hready); [by apply Forall_nil|].
  cbn [app] in Hready.
  destruct (attach_loop_ok (receipt_logs mem) pm (assign_ordinals (events dst) ∅) 0
              (walk_start root1 (length (assign_ordinals (events dst) ∅)) mem) Hready)
    as (st1 & sts & walk & Hloop & Hlen & H0 & Hn & Hpairs & Hr1 & Hm1 & Hws & Hwl & Hwf);
    [done|].
  cbn [walk_start memory] in Hloop, Hlen, Hn, Hpairs, Hwl, Hm1.
  rewrite Nat.sub_0_r, Nat.add_0_l in *.
  exists (assign_ordinals (events dst) ∅), root0, pm, root1, st1, sts, walk.
  repeat (split; [done|]).
  unfold stitch_walk. rewrite Hd. cbn [mbind outcome_bind]. rewrite Hann, Hinit.
  cbn [mbind outcome_bind]. fold (walk_start root1 (length (assign_ordinals (events dst) ∅)) mem).
  by rewrite Hloop.
Qed.

Lemma append_assoc a b c : (a +:+ b) +:+ c = a +:+ (b +:+ c).
Proof. induction a as [|x a IH]; [done|]. by rewrite !append_cons_l, IH. Qed.

Lemma concat_occurs sep ws w :
  w ∈ ws → occurs_in w (String.concat sep ws).
Proof.
  induction ws as [|x ws IH]; [by intros ?%elem_of_nil|].
  intros [->|Hw]%elem_of_cons.
  - exists "". destruct ws as [|y ws].
    + exists "". cbn. by rewrite append_nil_r.
    + by exists (sep +:+ String.concat sep (y :: ws)).
  - destruct (IH Hw) as (a & b & Hab). destruct ws as [|y ws]; [by apply elem_of_nil in Hw|].
    exists (x +:+ sep +:+ a), b.
    change (String.concat sep (x :: y :: ws))
      with (x +:+ sep +:+ String.concat sep (y :: ws)).
    by rewrite Hab, !append_assoc.
Qed.

Lemma error_message_occurs ws w : w ∈ ws → occurs_in w (error_message ws).
Proof.
  intros (a & b & Hab)%(concat_occurs nl).
  exists ("Warnings during stitchLogsIntoCallTrace:" +:+ nl +:+ a), b.
  unfold error_message. by rewrite Hab, !append_assoc.
Qed.

(** * Properties of the stitcher *)

(** C5, as the code has it.  For a pair whose path resolves to a node (with
    its [logs] array set, as it is for every node of the map during the
    walk): the expected emitter is the lower-cased [from] of a DELEGATECALL or
    CALLCODE node and the lower-cased [to] of any other node; an
    address-mismatch line is added exactly when the expected address is
    present and not empty, the log's address is not empty, and the lower-cased
    log address differs from it; and the log's reference is appended to the
    node's [logs] whether or not the line was added. *)
Theorem address_check_then_attach pm li e st pos node ls l :
  map_get (path_key (callPath e)) pm = Some pos →
  root_at (tree st) pos = Some node → logs node = Some ls →
  receipt_logs (memory st) !! li = Some l →
  expectedLogAddressForNode node =
    (if bool_decide (type node = Some "DELEGATECALL" ∨ type node = Some "CALLCODE")
     then toLowerCase <$> from node else toLowerCase <$> to node)
  ∧ (address_disagrees (expectedLogAddressForNode node)
       (address (log_object (memory st) l)) = true
     ↔ ∃ ex, expectedLogAddressForNode node = Some ex ∧ ex ≠ ""
             ∧ address (log_object (memory st) l) ≠ ""
             ∧ ex ≠ toLowerCase (address (log_object (memory st) l)))
  ∧ ∃ root' node',
      attach_one pm li e st =
        Ok {| tree := root';
              warnings := warnings st ++
                (if address_disagrees (expectedLogAddressForNode node)
                      (address (log_object (memory st) l))
                 then [address_mismatch_warning (path_key (callPath e))
                         (default "" (expectedLogAddressForNode node))
                         (toLowerCase (address (log_object (memory st) l))) li]
                 else []);
              memory := memory st |}
      ∧ root_at root' pos = Some node' ∧ logs node' = Some (ls ++ [l]).
Proof.
  intros Hg Hn Hls Hl. split; [|split].
  - unfold expectedLogAddressForNode. destruct (type node) as [t|]; [|done].
    destruct (String.eqb_spec t "DELEGATECALL") as [->|H1]; [done|].
    destruct (String.eqb_spec t "CALLCODE") as [->|H2]; [done|].
    rewrite bool_decide_eq_false_2; [done|]. intros [[= ?]|[= ?]]; done.
  - unfold address_disagrees, truthy.
    destruct (expectedLogAddressForNode node) as [ex|]; [|split; [done | by intros (? & ? & _)]].
    rewrite !andb_true_iff, !negb_true_iff.
    split.
    + intros [[H1 H2] H3]. exists ex.
      apply String.eqb_neq in H1, H2, H3. done.
    + intros (ex' & [= <-] & H1 & H2 & H3). by rewrite <- !String.eqb_neq in *.
  - destruct (push_log_ready [l] [] l (tree st) pos node ls)
      as (root' & node' & Hp & _ & Hn' & Hls');
      [by apply Forall_nil | apply list_elem_of_here | done | done |].
    exists root', node'. split; [|done].
    unfold attach_one. rewrite Hg, Hn, Hl, Hp. cbn [mbind outcome_bind].
    destruct (address_disagrees _ _); [done|]. by rewrite app_nil_r.
Qed.

Lemma address_check_then_attach_witness :
  ∃ st', attach_one one_call_map 0 (mkEventPath "LOG1" 0 2 [0%nat] 0)
           (one_call_ready "DELEGATECALL") = Ok st'
         ∧ warnings st' = [].
Proof.
  destruct (address_check_then_attach one_call_map 0 (mkEventPath "LOG1" 0 2 [0%nat] 0)
              (one_call_ready "DELEGATECALL") [0%nat]
              (mkCallNode None (Some "DELEGATECALL") (Some caller_addr)
                 (Some target_addr) None None None None None None
                 (Some []) (Some [0%nat]))
              [] 100%nat eq_refl eq_refl eq_refl eq_refl)
    as (_ & _ & root' & node' & Ha & _).
  eexists. split; [exact Ha|]. reflexivity.
Defined.

(** C5 as the specification states it fails: the expected address and the log's
    address disagree, and no warning is emitted, when the log's address is
    the empty string, and when the node has no destination address. *)
Lemma address_check_is_guarded :
  (∃ st node,
     stitchLogsIntoCallTrace
       (Single (traced "CALL" caller_addr target_addr None None))
       top_level_log_trace (memory_of [log_with_address ""]) false = Ok st
     ∧ root_at (tree st) [] = Some node ∧ logs node = Some [100%nat]
     ∧ expectedLogAddressForNode node = Some target_addr
     ∧ toLowerCase (address (log_object (memory st) 100%nat)) ≠ target_addr
     ∧ warnings st = [])
  ∧ (∃ st node,
       stitchLogsIntoCallTrace
         (Single (mkCallNode None (Some "CREATE") (Some caller_addr) None None
                    None None None None None None None))
         top_level_log_trace (memory_of [log_with_address target_addr]) false = Ok st
       ∧ root_at (tree st) [] = Some node ∧ logs node = Some [100%nat]
       ∧ expectedLogAddressForNode node = None
       ∧ address (log_object (memory st) 100%nat) = target_addr
       ∧ warnings st = []).
Proof.
  split; eexists _, _; (split; [vm_compute; reflexivity|]); by vm_compute.
Qed.


(** C6.  On a well-formed trace the stitch walk always completes, and
    [stitchLogsIntoCallTrace] raises an error exactly when the warning list
    is not empty and [suppressWarnings] is off.  The message of the error
    contains every warning line; otherwise (in particular in the lenient
    mode) the call returns the stitched tree with the full warning list. *)
Theorem stitch_fails_exactly_on_warnings root structLogs mem suppressWarnings :
  depths_ok structLogs →
  ∃ st,
    stitch_walk root structLogs mem = Ok st
    ∧ ((∃ msg, stitchLogsIntoCallTrace root structLogs mem suppressWarnings
               = Thrown msg)
       ↔ warnings st ≠ [] ∧ suppressWarnings = false)
    ∧ ((∀ r, stitchLogsIntoCallTrace root structLogs mem suppressWarnings ≠ Ok r)
       ↔ warnings st ≠ [] ∧ suppressWarnings = false)
    ∧ (warnings st ≠ [] ∧ suppressWarnings = false →
       stitchLogsIntoCallTrace root structLogs mem suppressWarnings
       = Thrown (error_message (warnings st)))
    ∧ (∀ w, w ∈ warnings st → occurs_in w (error_message (warnings st)))
    ∧ (suppressWarnings = true ∨ warnings st = [] →
       stitchLogsIntoCallTrace root structLogs mem suppressWarnings = Ok st).
Proof.
  intros Hok.
  destruct (stitch_walk_ok root structLogs mem Hok)
    as (events & root0 & pm & root1 & st1 & sts & walk & _ & _ & _ & _ & _ & _ & _
        & _ & _ & _ & _ & _ & _ & Hwalk).
  eexists. split; [exact Hwalk|].
  unfold stitchLogsIntoCallTrace. rewrite Hwalk. cbn [mbind outcome_bind].
  set (st := leftover_loop _ st1).
  destruct (warnings st) as [|w ws] eqn:Hws; cbn [length Nat.ltb Nat.leb andb].
  - splits.
    + split; [by intros [? ?] | by intros [? _]].
    + split; [intros H; by destruct (H st) | by intros [? _]].
    + by intros [? _].
    + by intros w ?%elem_of_nil.
    + done.
  - destruct suppressWarnings; cbn [negb].
    + splits.
      * split; [by intros [? ?] | by intros [_ ?]].
      * split; [intros H; by destruct (H st) | by intros [_ ?]].
      * by intros [_ ?].
      * intros w' Hw'. by apply error_message_occurs.
      * done.
    + splits.
      * split; [done | intros _; by eexists].
      * split; [done | by intros _ r].
      * done.
      * intros w' Hw'. by apply error_message_occurs.
      * by intros [?|?].
Qed.

Lemma stitch_fails_exactly_on_warnings_witness :
  ∃ msg, stitchLogsIntoCallTrace (one_call_tree "CALL") reverting_call_trace
           (memory_of [log_with_address target_addr]) false = Thrown msg.
Proof.
  destruct (stitch_fails_exactly_on_warnings (one_call_tree "CALL")
              reverting_call_trace (memory_of [log_with_address target_addr]) false)
    as (st & Hwalk & _ & _ & Hthrow & _).
  - unfold depths_ok, reverting_call_trace. repeat constructor; cbn; lia.
  - eexists. apply Hthrow. split; [|done].
    vm_compute in Hwalk. injection Hwalk as <-. done.
Defined.

Lemma filter_walk_lines (Q : string → bool) (walk : list string) :
  Forall (fun w => Q w = false) walk → filter (fun w => Q w = true) walk = [].
Proof.
  induction 1 as [|w walk Hw _ IH]; [done|].
  rewrite filter_cons_False by congruence. done.
Qed.

Lemma filter_leftover_lines (lis : list nat) :
  filter (fun w => is_leftover_line w = true) (leftover_warning <$> lis)
  = leftover_warning <$> lis.
Proof.
  induction lis as [|li lis IH]; [done|].
  rewrite fmap_cons, filter_cons_True by apply leftover_is_leftover. by rewrite IH.
Qed.

(** C9, as the code has it.  The stitch walk leaves the receipt's log array
    and every log object as they were.  What an iteration appends to the
    [logs] array of a node is the reference found in [receipt.logs] itself
    (the object is shared, not copied); at the end every node of the tree has
    a [logs] array, and every reference in it is one of the receipt's. *)
Theorem stitch_shares_the_receipt_logs root structLogs mem :
  depths_ok structLogs →
  ∃ st root0 pm,
    stitch_walk root structLogs mem = Ok st
    ∧ annotateCallPaths root = (root0, pm)
    ∧ memory st = mem
    ∧ (∀ q node, root_at (tree st) q = Some node →
         ∃ ls, logs node = Some ls ∧ ∀ l, l ∈ ls → l ∈ receipt_logs mem)
    ∧ (∀ li e s l,
         memory s = mem → receipt_logs mem !! li = Some l →
         ∀ s', attach_one pm li e s = Ok s' →
           memory s' = mem
           ∧ (tree s' = tree s
              ∨ ∃ pos node ls node',
                  root_at (tree s) pos = Some node ∧ logs node = Some ls
                  ∧ root_at (tree s') pos = Some node'
                  ∧ logs node' = Some (ls ++ [l]))).
Proof.
  intros Hok.
  destruct (stitch_walk_ok root structLogs mem Hok)
    as (events & root0 & pm & root1 & st1 & sts & walk & _ & Hann & Hinit & Hloop & _ & _
        & _ & _ & Hready & Hm1 & _ & _ & _ & Hwalk).
  exists (leftover_loop (min (length events) (length (receipt_logs mem))) st1), root0, pm.
  splits; try done.
  - intros q node Hq. cbn [leftover_loop tree] in Hq.
    assert (Hvalid : is_Some (root_at root0 q)).
    { apply (init_logs_shape _ _ _ Hinit), (attach_loop_shape _ _ _ _ _ _ Hloop).
      by eexists. }
    destruct (map_get_entry _ _ _ (annotate_registers _ _ _ _ Hann Hvalid)) as [k Hk].
    destruct (proj1 (Forall_forall _ _) Hready _ Hk) as (n & ls & Hn & Hls & Hsub).
    cbn [snd] in Hn. rewrite Hq in Hn. injection Hn as <-. by exists ls.
  - intros li e s l Hs Hl s'. unfold attach_one. rewrite Hs, Hl.
    destruct (map_get (path_key (callPath e)) pm) as [pos|].
    2:{ intros [= <-]. cbn. split; [done | by left]. }
    destruct (root_at (tree s) pos) as [node|] eqn:Hn; [|done].
    unfold push_log. rewrite Hn.
    destruct (logs node) as [ls|] eqn:Hls; [|done].
    set (f := fun n0 : CallNode loc => with_logs (Some (ls ++ [l])) n0 (calls n0)).
    assert (Hf : ∀ x, calls (f x) = calls x) by (by intros []).
    destruct (update_root f (tree s) pos) as [root'|] eqn:Hu; [|done].
    cbn [mbind outcome_bind]. intros [= <-]. cbn [memory tree].
    split; [done|]. right.
    pose proof (update_root_lookup f (tree s) pos root' pos Hf Hu) as Hlook.
    rewrite Hn in Hlook. destruct Hlook as (node' & Hn' & Hl').
    rewrite decide_True in Hl' by done.
    by exists pos, node, ls, node'.
Qed.

Lemma stitch_shares_the_receipt_logs_witness :
  ∃ st, stitch_walk sibling_calls_tree sibling_calls_trace
          (memory_of [log_with_address target_addr; log_with_address other_addr])
        = Ok st
        ∧ memory st
          = memory_of [log_with_address target_addr; log_with_address other_addr].
Proof.
  destruct (stitch_shares_the_receipt_logs sibling_calls_tree sibling_calls_trace
              (memory_of [log_with_address target_addr; log_with_address other_addr]))
    as (st & root0 & pm & Hwalk & _ & Hm & _).
  - unfold depths_ok, sibling_calls_trace. repeat constructor; cbn; lia.
  - exists st. split; [exact Hwalk | exact Hm].
Defined.

(** C9 as the specification states it fails: the object attached to the
    node is the receipt's own log object (the same reference), not a copy. *)
Lemma attached_log_is_the_receipt_object :
  ∃ st node l,
    stitchLogsIntoCallTrace (one_call_tree "CALL") one_call_trace
      (memory_of [log_with_address target_addr]) false = Ok st
    ∧ root_at (tree st) [0%nat] = Some node
    ∧ logs node = Some [l]
    ∧ receipt_logs (memory st) = [l].
Proof.
  eexists _, _, _. split; [vm_compute; reflexivity|]. by vm_compute.
Qed.

(** * The enricher *)

Section EnricherProps.
Context {P : Type}.
Variable selectors : gmap string string.
Variable topic_table : gmap string (string * (ReceiptLog → P)).
Variable mem : LogMemory.

Lemma enrichCall_method (n : CallNode loc) :
  method (enrichCall selectors topic_table mem n) = method_label selectors (input n)
  ∧ input (enrichCall selectors topic_table mem n) = input n.
Proof. by destruct n. Qed.

(** The label of a node whose input is present and not empty. *)
Lemma method_label_present (i : string) :
  i ≠ "" →
  method_label selectors (Some i) =
  Some (if (String.length i <? 10)%nat then "unknown"
        else default (substring 0 10 i) (selectors !! substring 0 10 i)).
Proof.
  intros Hi. unfold method_label, getMethodName, truthy.
  destruct (String.eqb_spec i "") as [?|_]; [done|]. cbn [negb orb].
  destruct (String.length i <? 10)%nat; [done|].
  by destruct (selectors !! substring 0 10 i).
Qed.

(** The label of a node whose input is absent or empty. *)
Lemma method_label_absent :
  method_label selectors None = None ∧ method_label selectors (Some "") = Some "".
Proof. done. Qed.

Lemma nodes_of_enrichCall (n : CallNode loc) :
  nodes_of (enrichCall selectors topic_table mem n)
  = enrichCall selectors topic_table mem <$> nodes_of n.
Proof.
  induction n as [m t f o i ou v g gu kids l p IH] using CallNode_ind.
  cbn [enrichCall nodes_of]. rewrite fmap_cons. f_equal.
  destruct kids as [ks|]; [|done]. cbn [default from_option id] in IH.
  induction IH as [|k ks Hk _ IHks]; [done|].
  cbn [map]. rewrite fmap_app, <- IHks. f_equal. exact Hk.
Qed.

(** Every node of the enriched tree is labelled from its own input by
    [method_label]. *)
Lemma enriched_nodes_labelled (root : CallTracerRoot loc) n' :
  n' ∈ nodes_of_root
         (enrichTraceWithCallAndEventDetails selectors topic_table mem root) →
  method n' = method_label selectors (input n').
Proof.
  assert (Hnode : ∀ n, n' ∈ nodes_of (enrichCall selectors topic_table mem n) →
                       method n' = method_label selectors (input n')).
  { intros n. rewrite nodes_of_enrichCall.
    intros (m & -> & _)%list_elem_of_fmap.
    destruct (enrichCall_method m) as [-> ->]. done. }
  destruct root as [n|ns]; cbn [enrichTraceWithCallAndEventDetails nodes_of_root].
  - apply Hnode.
  - intros (l & Hl & Hin)%list_elem_of_join.
    apply list_elem_of_fmap in Hin as (k & -> & Hk).
    apply list_elem_of_fmap in Hk as (n & -> & _). by apply (Hnode n).
Qed.
End EnricherProps.

(** C8.  The labels for inputs that are present and not empty are as
    specified; a node without input is left without a label, and an empty
    input is labelled with the empty string, where the specification has
    "unknown". *)
Theorem enrich_labels_on_examples :
  let label i :=
    method <$> root_at
      (enrichTraceWithCallAndEventDetails (P := unit) example_selectors ∅
         (memory_of []) (Single (call_with_input i))) [] in
  label (Some "0xa9059cbb0000000000000000") = Some (Some "transfer")
  ∧ label (Some "0x095ea7b30000000000000000") = Some (Some "0x095ea7b3")
  ∧ label (Some "0x") = Some (Some "unknown")
  ∧ label (Some "") = Some (Some "")
  ∧ label None = Some None.
Proof. by vm_compute. Qed.

(** * Further properties of the deriver, the indexer and the stitcher *)

(** X1.  Frames are popped only by a later step at a lower depth, and only
    then are the records of a reverted frame marked: the record of a LOG step
    whose frame is still on the stack when the trace ends is returned,
    whether or not that frame processed a REVERT. *)
Theorem records_of_frames_on_the_stack_are_returned steps :
  depths_ok steps →
  ∃ st out,
    run steps (init_state steps) = Ok st
    ∧ deriveEventPathsRevertAware steps = Ok out
    ∧ ∀ x, x ∈ history steps → is_log_entry x → x.2 ∈ live_paths st →
           entry_core x ∈ ep_core <$> out.
Proof.
  intros Hok.
  destruct (derive_characterised steps Hok) as (st & Hr & _ & _ & Hd & Hc).
  exists st, (assign_ordinals (events st) ∅). splits; [done|done|].
  intros x Hx Hl Hlive. rewrite Hc. apply list_elem_of_fmap.
  exists x. split; [done|]. apply list_elem_of_filter.
  split; [|done]. split; [done|]. by intros [_ Hn].
Qed.

(** A trace that ends in the frame that reverted: the log is returned. *)
Lemma records_of_frames_on_the_stack_are_returned_witness :
  ∃ out,
    deriveEventPathsRevertAware [mkStep "LOG1" 1 0; mkStep "REVERT" 1 1] = Ok out
    ∧ ("LOG1", 0%nat, 1, []) ∈ ep_core <$> out.
Proof.
  destruct (records_of_frames_on_the_stack_are_returned
              [mkStep "LOG1" 1 0; mkStep "REVERT" 1 1])
    as (st & out & Hr & Hd & Hin).
  - repeat constructor; cbn; lia.
  - exists out. split; [done|].
    apply (Hin (mkStep "LOG1" 1 0, [])).
    + vm_compute. apply list_elem_of_here.
    + done.
    + vm_compute in Hr. injection Hr as <-. vm_compute. apply list_elem_of_here.
Defined.

(** An example: a REVERT drops the record emitted directly in the reverted
    frame; the record of the log emitted in the frame it called, which
    returned normally, is returned. *)
Example records_of_called_frames_survive_the_revert :
  deriveEventPathsRevertAware
    [mkStep "CALL" 1 0; mkStep "LOG2" 2 0; mkStep "CALL" 2 1; mkStep "LOG1" 3 0;
     mkStep "STOP" 3 1; mkStep "REVERT" 2 2; mkStep "STOP" 1 1]
  = Ok [mkEventPath "LOG1" 0 3 [0%nat; 0%nat] 0].
Proof. reflexivity. Qed.

(** Examples below the 1-based range of depths: a step at depth 0 pops the
    root frame, and a LOG, REVERT or call step then reads a field of
    [undefined]; at a negative depth the pop loop does not end. *)
Example depth_below_one :
  deriveEventPathsRevertAware [mkStep "LOG1" 0 0] = TypeError
  ∧ deriveEventPathsRevertAware [mkStep "REVERT" 0 0] = TypeError
  ∧ deriveEventPathsRevertAware [mkStep "CALL" 0 0] = TypeError
  ∧ deriveEventPathsRevertAware [mkStep "STOP" 0 0] = Ok []
  ∧ deriveEventPathsRevertAware [mkStep "STOP" (-1) 0] = Diverges.
Proof. by vm_compute. Qed.

(** X4.  The string keys of the counters and of the path map identify the
    paths: joining with "/" loses nothing. *)
Theorem path_key_identifies_the_path p q : path_key p = path_key q ↔ p = q.
Proof. split; [apply path_key_inj | by intros ->]. Qed.

Lemma visit_list_paths {L}
  (v : CallNode L → list nat → PathMap → CallNode L * PathMap) prefix ks :
  Forall (fun k => ∀ pre pm k' pm', v k pre pm = (k', pm') →
            ∀ q n, node_at k' q = Some n → _path n = Some (pre ++ q)) ks →
  ∀ j pm ks' pm', visit_list v prefix ks j pm = (ks', pm') →
    ∀ i k' q n, ks' !! i = Some k' → node_at k' q = Some n →
      _path n = Some (prefix ++ (j + i)%nat :: q).
Proof.
  induction 1 as [|k ks Hk _ IH]; intros j pm ks' pm'; cbn [visit_list].
  - intros [= <- <-]. by intros i k' q n ?.
  - destruct (v k (prefix ++ [j]) pm) as [k1 pm1] eqn:Hv.
    destruct (visit_list v prefix ks (S j) pm1) as [ks2 pm2] eqn:Hl.
    intros [= <- <-]. intros [|i] k' q n Hi Hq.
    + injection Hi as <-. rewrite Nat.add_0_r.
      rewrite (Hk _ _ _ _ Hv q n Hq). by rewrite <- app_assoc.
    + replace (j + S i)%nat with (S j + i)%nat by lia.
      by apply (IH _ _ _ _ Hl i k' q n).
Qed.

Lemma visit_paths {L} (node : CallNode L) : ∀ prefix pm node' pm',
  visit node prefix pm = (node', pm') →
  ∀ q n, node_at node' q = Some n → _path n = Some (prefix ++ q).
Proof.
  induction node as [m t f o i ou v g gu kids l p IH] using CallNode_ind.
  intros prefix pm node' pm'. cbn [visit]. destruct kids as [ks|].
  - destruct (visit_list visit prefix ks 0 (map_set (path_key prefix) prefix pm))
      as [ks' pm2] eqn:Hl.
    intros [= <- <-]. cbn [default from_option id] in IH.
    intros [|j q] n Hq.
    + injection Hq as <-. by rewrite app_nil_r.
    + rewrite node_at_cons in Hq. cbn [calls] in Hq.
      destruct (ks' !! j) as [k'|] eqn:Hj; [|done].
      by apply (visit_list_paths _ _ _ IH _ _ _ _ Hl j k' q n).
  - intros [= <- <-]. intros [|j q] n Hq; [|done].
    injection Hq as <-. by rewrite app_nil_r.
Qed.

(** X5.  The contract of the indexer: the map holds the position [q] under
    the key of [q] exactly when the tree has a node at [q], and that node
    carries [q] as its [_path]. *)
Theorem indexer_registers_every_node (root root' : CallTracerRoot loc) pm :
  annotateCallPaths root = (root', pm) →
  (∀ q, is_Some (root_at root' q) ↔ map_get (path_key q) pm = Some q)
  ∧ (∀ q n, root_at root' q = Some n → _path n = Some q).
Proof.
  intros Hann. split.
  - intros q. split; [by apply (annotate_registers root)|].
    intros [k Hk]%map_get_entry.
    exact (proj1 (Forall_forall _ _) (annotate_valid _ _ _ Hann) _ Hk).
  - revert Hann. unfold annotateCallPaths. destruct root as [n0|ns].
    + destruct (visit n0 [] []) as [n' pm'] eqn:Hv. intros [= <- <-] q n Hq.
      by apply (visit_paths _ _ _ _ _ Hv q n).
    + destruct (visit_list visit [] ns 0 []) as [ns' pm'] eqn:Hv.
      intros [= <- <-] [|i q] n; [done|]. cbn [root_at].
      destruct (ns' !! i) as [n'|] eqn:Hi; [|done]. intros Hq.
      assert (Hall : Forall (fun k : CallNode loc => ∀ pre pm k' pm',
                visit k pre pm = (k', pm') →
                ∀ q n, node_at k' q = Some n → _path n = Some (pre ++ q)) ns).
      { apply Forall_forall. intros k _ pre pm0 k' pm0'. apply visit_paths. }
      by apply (visit_list_paths _ _ _ Hall _ _ _ _ Hv i n' q n).
Qed.

Lemma indexer_registers_every_node_witness :
  ∃ n, root_at (annotateCallPaths (one_call_tree "CALL")).1 [0%nat] = Some n
       ∧ _path n = Some [0%nat]
       ∧ map_get "0" (annotateCallPaths (one_call_tree "CALL")).2 = Some [0%nat].
Proof.
  destruct (indexer_registers_every_node (one_call_tree "CALL")
              (annotateCallPaths (one_call_tree "CALL")).1
              (annotateCallPaths (one_call_tree "CALL")).2) as [Hmap Hpath].
  - reflexivity.
  - assert (Hn : is_Some (root_at (annotateCallPaths (one_call_tree "CALL")).1
                            [0%nat])) by (vm_compute; by eexists).
    destruct Hn as [n Hn]. exists n. split; [done|]. split.
    + by apply Hpath.
    + apply (proj1 (Hmap [0%nat])). by exists n.
Defined.

(** X6.  A trace without LOG steps and a receipt without logs: the stitch
    returns without warnings, also in the strict mode, and every node of the
    tree has an empty [logs] array. *)
Theorem stitch_without_logs root structLogs mem :
  depths_ok structLogs →
  Forall (fun s => is_LOG (op s) = false) structLogs →
  receipt_logs mem = [] →
  ∃ st, stitchLogsIntoCallTrace root structLogs mem false = Ok st
        ∧ warnings st = []
        ∧ ∀ q node, root_at (tree st) q = Some node → logs node = Some [].
Proof.
  intros Hok Hnolog Hmem.
  destruct (stitch_walk_ok root structLogs mem Hok)
    as (events & root0 & pm & root1 & st1 & sts & walk & Hd & Hann & Hinit & Hloop
        & _ & _ & _ & _ & Hready & Hm1 & Hws & Hlen & _ & Hwalk).
  assert (Hev : events = []).
  { destruct (derive_characterised structLogs Hok) as (st & _ & _ & Hfst & Hd' & Hc).
    rewrite Hd in Hd'. injection Hd' as ->.
    apply (fmap_nil_inv ep_core). rewrite Hc.
    destruct (filter _ (history structLogs)) as [|x xs] eqn:Hf; [done|].
    assert (Hx : x ∈ x :: xs) by apply list_elem_of_here.
    rewrite <- Hf in Hx. apply list_elem_of_filter in Hx as [[Hl _] Hx].
    assert (Hs : x.1 ∈ structLogs).
    { rewrite <- Hfst. apply list_elem_of_fmap. by exists x. }
    pose proof (proj1 (Forall_forall _ _) Hnolog _ Hs) as Hno.
    unfold is_log_entry in Hl. congruence. }
  subst events. rewrite Hmem in *. cbn [length Nat.min] in *.
  assert (walk = []) as -> by (destruct walk; [done | cbn in Hlen; lia]).
  set (st := leftover_loop 0 st1) in *.
  assert (Hw : warnings st = []).
  { unfold st, leftover_loop. cbn [warnings]. rewrite Hws, Hm1, Hmem.
    unfold walk_start. cbn [warnings]. by rewrite Hmem. }
  exists st. splits.
  - unfold stitchLogsIntoCallTrace. rewrite Hwalk. cbn [mbind outcome_bind].
    by rewrite Hw.
  - done.
  - intros q node Hq. unfold st in Hq. cbn [leftover_loop tree] in Hq.
    assert (Hvalid : is_Some (root_at root0 q)).
    { apply (init_logs_shape _ _ _ Hinit), (attach_loop_shape _ _ _ _ _ _ Hloop).
      by eexists. }
    destruct (map_get_entry _ _ _ (annotate_registers _ _ _ _ Hann Hvalid)) as [k Hk].
    destruct (proj1 (Forall_forall _ _) Hready _ Hk) as (n & ls & Hn & Hls & Hsub).
    cbn [snd] in Hn. rewrite Hq in Hn. injection Hn as <-.
    destruct ls as [|l ls]; [done|].
    by destruct (proj1 (elem_of_nil l) (Hsub l ltac:(apply list_elem_of_here))).
Qed.

Lemma stitch_without_logs_witness :
  ∃ st, stitchLogsIntoCallTrace (one_call_tree "CALL")
          [mkStep "CALL" 1 0; mkStep "STOP" 2 0; mkStep "STOP" 1 1]
          (memory_of []) false = Ok st
        ∧ warnings st = [].
Proof.
  destruct (stitch_without_logs (one_call_tree "CALL")
              [mkStep "CALL" 1 0; mkStep "STOP" 2 0; mkStep "STOP" 1 1]
              (memory_of [])) as (st & Hst & Hw & _).
  - repeat constructor; cbn; lia.
  - by repeat constructor.
  - done.
  - by exists st.
Defined.

(** X7.  The method label of every node of the enriched tree, from the
    node's own input: none without an input, the empty string for an empty
    input, "unknown" for fewer than ten characters, otherwise the name the
    table has for the first ten characters, or those ten characters. *)
Theorem enriched_method_of_every_node {P : Type} (selectors : gmap string string)
  (topic_table : gmap string (string * (ReceiptLog → P))) (mem : LogMemory)
  (root : CallTracerRoot loc) (n' : CallNode (EnrichedLog P)) :
  n' ∈ nodes_of_root
         (enrichTraceWithCallAndEventDetails selectors topic_table mem root) →
  method n' =
    match input n' with
    | None => None
    | Some i =>
        Some (if String.eqb i "" then i
              else if (String.length i <? 10)%nat then "unknown"
              else default (substring 0 10 i) (selectors !! substring 0 10 i))
    end.
Proof.
  intros Hn. rewrite (enriched_nodes_labelled selectors topic_table mem root n' Hn).
  destruct (input n') as [i|]; [|done].
  destruct (String.eqb_spec i "") as [->|Hi]; [done|].
  by apply method_label_present.
Qed.

Lemma enriched_method_of_every_node_witness :
  method (enrichCall (P := unit) example_selectors ∅ (memory_of [])
            (call_with_input None)) = None.
Proof.
  apply (enriched_method_of_every_node (P := unit) example_selectors ∅
           (memory_of []) (Single (call_with_input None))).
  vm_compute. apply list_elem_of_here.
Defined.

(** * The attachment walk, node by node *)

Lemma map_get_elem key m pos : map_get key m = Some pos → (key, pos) ∈ m.
Proof.
  induction m as [|[k v] m IH]; cbn [map_get]; [done|].
  destruct (String.eqb_spec k key) as [->|_].
  - intros [= ->]. apply list_elem_of_here.
  - intros H%IH. by apply list_elem_of_further.
Qed.

Lemma map_set_elem key pos m kv :
  kv ∈ map_set key pos m → kv ∈ m ∨ kv = (key, pos).
Proof.
  induction m as [|[k v] m IH]; cbn [map_set].
  - intros ->%list_elem_of_singleton. by right.
  - destruct (String.eqb_spec k key) as [->|_].
    + intros [->|H]%elem_of_cons; [by right|]. left. by apply list_elem_of_further.
    + intros [->|H]%elem_of_cons; [left; apply list_elem_of_here|].
      destruct (IH H) as [?|?]; [left; by apply list_elem_of_further | by right].
Qed.

Lemma visit_list_keys {L}
  (v : CallNode L → list nat → PathMap → CallNode L * PathMap) prefix ks :
  Forall (fun k => ∀ pre pm k' pm', v k pre pm = (k', pm') →
            ∀ kv, kv ∈ pm' → kv ∈ pm ∨ kv.1 = path_key kv.2) ks →
  ∀ j pm ks' pm', visit_list v prefix ks j pm = (ks', pm') →
  ∀ kv, kv ∈ pm' → kv ∈ pm ∨ kv.1 = path_key kv.2.
Proof.
  induction 1 as [|k ks Hk _ IH]; intros j pm ks' pm'; cbn [visit_list].
  - intros [= <- <-] kv Hkv. by left.
  - destruct (v k (prefix ++ [j]) pm) as [k1 pm1] eqn:Hv.
    destruct (visit_list v prefix ks (S j) pm1) as [ks2 pm2] eqn:Hl.
    intros [= <- <-] kv Hkv.
    destruct (IH _ _ _ _ Hl kv Hkv) as [Hin|?]; [|by right].
    by apply (Hk _ _ _ _ Hv).
Qed.

Lemma visit_keys {L} (node : CallNode L) : ∀ prefix pm node' pm',
  visit node prefix pm = (node', pm') →
  ∀ kv, kv ∈ pm' → kv ∈ pm ∨ kv.1 = path_key kv.2.
Proof.
  induction node as [m t f o i ou v g gu kids l p IH] using CallNode_ind.
  intros prefix pm node' pm'. cbn [visit]. destruct kids as [ks|].
  - destruct (visit_list visit prefix ks 0 (map_set (path_key prefix) prefix pm))
      as [ks' pm2] eqn:Hl.
    intros [= <- <-] kv Hkv. cbn [default from_option id] in IH.
    destruct (visit_list_keys _ _ _ IH _ _ _ _ Hl kv Hkv) as [Hin|?]; [|by right].
    apply map_set_elem in Hin as [?| ->]; [by left | by right].
  - intros [= <- <-] kv Hkv.
    apply map_set_elem in Hkv as [?| ->]; [by left | by right].
Qed.

(** A key of the path map is the key of the position stored under it. *)
Lemma annotate_keys (root root' : CallTracerRoot loc) pm key pos :
  annotateCallPaths root = (root', pm) → map_get key pm = Some pos →
  key = path_key pos.
Proof.
  intros Hann Hget%map_get_elem. revert Hann. unfold annotateCallPaths.
  destruct root as [n|ns].
  - destruct (visit n [] []) as [n' pm'] eqn:Hv. intros [= <- <-].
    by destruct (visit_keys _ _ _ _ _ Hv _ Hget) as [?%elem_of_nil|?].
  - destruct (visit_list visit [] ns 0 []) as [ns' pm'] eqn:Hv. intros [= <- <-].
    assert (Hall : Forall (fun k : CallNode loc => ∀ pre pm k' pm',
              visit k pre pm = (k', pm') →
              ∀ kv, kv ∈ pm' → kv ∈ pm ∨ kv.1 = path_key kv.2) ns).
    { apply Forall_forall. intros k _ pre pm0 k' pm0'. apply visit_keys. }
    by destruct (visit_list_keys _ _ _ Hall _ _ _ _ Hv _ Hget) as [?%elem_of_nil|?].
Qed.

Lemma logs_for_snoc q events refs i e l :
  events !! i = Some e → refs !! i = Some l →
  logs_for q (take (S i) events) (take (S i) refs) =
  logs_for q (take i events) (take i refs)
  ++ (if decide (callPath e = q) then [l] else []).
Proof.
  intros He Hl. unfold logs_for.
  rewrite (take_S_r _ _ _ He), (take_S_r _ _ _ Hl).
  rewrite zip_with_app.
  2:{ rewrite !length_take.
      apply lookup_lt_Some in He. apply lookup_lt_Some in Hl. lia. }
  rewrite filter_app, fmap_app. f_equal. cbn [zip_with].
  rewrite filter_cons. cbn [fst]. by destruct (decide (callPath e = q)).
Qed.

Lemma logs_for_take q events refs :
  logs_for q (take (min (length events) (length refs)) events)
             (take (min (length events) (length refs)) refs)
  = logs_for q events refs.
Proof.
  unfold logs_for. by rewrite zip_with_take_both' by lia.
Qed.

Lemma stitch_walk_logs root structLogs mem :
  depths_ok structLogs →
  ∃ events st,
    deriveEventPathsRevertAware structLogs = Ok events
    ∧ stitch_walk root structLogs mem = Ok st
    ∧ memory st = mem
    ∧ ∀ q node, root_at (tree st) q = Some node →
        logs node = Some (logs_for q events (receipt_logs mem)).
Proof.
  intros Hok.
  destruct (stitch_walk_ok root structLogs mem Hok)
    as (events & root0 & pm & root1 & st1 & sts & walk & Hd & Hann & Hinit & Hloop
        & Hlen & Hs0 & Hs1 & Hstep & _ & Hm1 & _ & _ & _ & Hwalk).
  set (refs := receipt_logs mem) in *.
  set (m := min (length events) (length refs)) in *.
  exists events, (leftover_loop m st1). splits; [done|done|done|].
  assert (Hreg : ∀ r q, same_shape root1 r → is_Some (root_at r q) →
                        map_get (path_key q) pm = Some q).
  { intros r q Hr Hq. apply (annotate_registers root root0); [done|].
    by apply (init_logs_shape _ _ _ Hinit), Hr. }
  assert (Hinv : ∀ i, (i <= m)%nat → ∃ s,
             sts !! i = Some s ∧ memory s = mem ∧ same_shape root1 (tree s)
             ∧ ∀ q node, root_at (tree s) q = Some node →
                 logs node = Some (logs_for q (take i events) (take i refs))).
  { induction i as [|i IH]; intros Hi.
    - exists (walk_start root1 (length events) mem).
      splits; [done|done|apply same_shape_refl|].
      intros q node Hq. cbn [walk_start tree] in Hq.
      destruct (init_logs_ready [] pm [] root0 (annotate_valid _ _ _ Hann))
        as (root1' & Hinit' & Hready); [by apply Forall_nil|].
      rewrite Hinit in Hinit'. injection Hinit' as <-. cbn [app] in Hready.
      assert (Hget : map_get (path_key q) pm = Some q).
      { apply (Hreg root1); [apply same_shape_refl | by eexists]. }
      apply map_get_elem in Hget.
      destruct (proj1 (Forall_forall _ _) Hready _ Hget) as (n & ls & Hn & Hls & Hsub).
      cbn [snd] in Hn. rewrite Hq in Hn. injection Hn as <-.
      destruct ls as [|l ls]; [done|].
      by destruct (proj1 (elem_of_nil l) (Hsub l ltac:(apply list_elem_of_here))).
    - destruct IH as (s & Hs & Hms & Hsh & Hlogs); [lia|].
      destruct (lookup_lt_is_Some_2 events i) as [e He]; [lia|].
      destruct (lookup_lt_is_Some_2 refs i) as [l Hl]; [lia|].
      destruct (Hstep i e He ltac:(lia)) as (s0 & s' & Hs0' & Hs' & Hatt).
      rewrite Hs in Hs0'. injection Hs0' as <-.
      exists s'. split; [done|].
      pose proof (attach_one_shape _ _ _ _ _ Hatt) as Hsh'.
      revert Hatt. unfold attach_one. rewrite Hms. fold refs. rewrite Hl.
      destruct (map_get (path_key (callPath e)) pm) as [pos|] eqn:Hget.
      + assert (pos = callPath e) as ->.
        { symmetry. apply path_key_inj. by apply (annotate_keys root root0 pm). }
        destruct (root_at (tree s) (callPath e)) as [node0|] eqn:Hn0; [|done].
        unfold push_log. rewrite Hn0.
        destruct (logs node0) as [ls|] eqn:Hls; [|done].
        set (f := fun n0 : CallNode loc => with_logs (Some (ls ++ [l])) n0 (calls n0)).
        assert (Hf : ∀ x, calls (f x) = calls x) by (by intros []).
        destruct (update_root f (tree s) (callPath e)) as [root'|] eqn:Hu; [|done].
        cbn [mbind outcome_bind]. intros [= <-]. cbn [memory tree] in *.
        splits; [done | by eapply same_shape_trans|].
        intros q node Hq. rewrite (logs_for_snoc q events refs i e l He Hl).
        pose proof (update_root_lookup f (tree s) (callPath e) root' q Hf Hu) as Hlook.
        destruct (root_at (tree s) q) as [m0|] eqn:Hm0; [|congruence].
        destruct Hlook as (m' & Hm' & Hlm'). rewrite Hq in Hm'. injection Hm' as <-.
        rewrite Hlm'. destruct (decide (q = callPath e)) as [->|Hne].
        * rewrite decide_True by done. rewrite Hn0 in Hm0. injection Hm0 as <-.
          assert (Hls' : ls = logs_for (callPath e) (take i events) (take i refs)).
          { rewrite (Hlogs _ _ Hn0) in Hls. by injection Hls. }
          rewrite <- Hls'. by destruct node0.
        * rewrite decide_False by done. rewrite app_nil_r. by apply Hlogs.
      + intros [= <-]. cbn [memory tree] in *. splits; [done|done|].
        intros q node Hq. rewrite (logs_for_snoc q events refs i e l He Hl).
        rewrite decide_False, app_nil_r; [by apply Hlogs|].
        intros <-.
        rewrite (Hreg (tree s) (callPath e) Hsh) in Hget; [done | by eexists]. }
  destruct (Hinv m ltac:(lia)) as (s & Hs & _ & _ & Hlogs).
  rewrite Hs1 in Hs. injection Hs as <-.
  intros q node Hq. cbn [leftover_loop tree] in Hq.
  rewrite <- (logs_for_take q events refs). by apply Hlogs.
Qed.

Lemma stitch_returns_walk root structLogs mem b st :
  stitchLogsIntoCallTrace root structLogs mem b = Ok st →
  stitch_walk root structLogs mem = Ok st.
Proof.
  unfold stitchLogsIntoCallTrace.
  destruct (stitch_walk root structLogs mem) as [st'| | |]; try done.
  cbn [mbind outcome_bind]. by destruct (_ && _); [|intros [= ->]].
Qed.

(** X8.  What a stitch that returns leaves in the tree: every node has a
    [logs] array, and the array of the node at position [q] holds, in
    order, the receipt logs number i for which event number i exists and
    has call path [q]. *)
Theorem stitch_attaches_by_path root structLogs mem b st :
  depths_ok structLogs →
  stitchLogsIntoCallTrace root structLogs mem b = Ok st →
  ∃ events,
    deriveEventPathsRevertAware structLogs = Ok events
    ∧ ∀ q node, root_at (tree st) q = Some node →
        logs node = Some (logs_for q events (receipt_logs mem)).
Proof.
  intros Hok Hst%stitch_returns_walk.
  destruct (stitch_walk_logs root structLogs mem Hok)
    as (events & st' & Hd & Hwalk & _ & Hlogs).
  rewrite Hst in Hwalk. injection Hwalk as <-. by exists events.
Qed.

Lemma stitch_attaches_by_path_witness :
  ∃ st node,
    stitchLogsIntoCallTrace sibling_calls_tree sibling_calls_trace
      (memory_of [log_with_address target_addr; log_with_address other_addr]) false
    = Ok st
    ∧ root_at (tree st) [1%nat] = Some node
    ∧ logs node = Some [101%nat].
Proof.
  assert (Hst : ∃ st,
            stitchLogsIntoCallTrace sibling_calls_tree sibling_calls_trace
              (memory_of [log_with_address target_addr; log_with_address other_addr])
              false = Ok st ∧ is_Some (root_at (tree st) [1%nat])).
  { eexists. split; [vm_compute; reflexivity|]. vm_compute. by eexists. }
  destruct Hst as (st & Hst & [node Hn]).
  assert (Hok : depths_ok sibling_calls_trace).
  { unfold depths_ok, sibling_calls_trace. repeat constructor; cbn; lia. }
  destruct (stitch_attaches_by_path sibling_calls_tree sibling_calls_trace _ _ _
              Hok Hst) as (events & Hd & Hlogs).
  exists st, node. splits; [done|done|].
  rewrite (Hlogs _ _ Hn). vm_compute in Hd. injection Hd as <-. reflexivity.
Defined.

(** * What the indexer and the walk leave alone *)

Lemma same_view_refl {L A} (g : CallNode L → A) r : same_view g r r.
Proof. by intros q. Qed.

Lemma same_view_trans {L A} (g : CallNode L → A) r1 r2 r3 :
  same_view g r1 r2 → same_view g r2 r3 → same_view g r1 r3.
Proof. intros H12 H23 q. by rewrite H23, H12. Qed.

Lemma update_at_view {L A} (g : CallNode L → A) (f : CallNode L → CallNode L) pos :
  (∀ x, calls (f x) = calls x) → (∀ x, g (f x) = g x) →
  (∀ c x, g (with_calls c x) = g x) →
  ∀ n n' q, update_at f n pos = Some n' → g <$> node_at n' q = g <$> node_at n q.
Proof.
  intros Hf Hg Hc. induction pos as [|i pos IH]; intros n n' q.
  - cbn [update_at]. intros [= <-]. destruct q as [|j q].
    + cbn. by rewrite Hg.
    + by rewrite !node_at_cons, Hf.
  - cbn [update_at].
    destruct (calls n) as [kids|] eqn:Hk; [|done].
    destruct (kids !! i) as [k|] eqn:Hi; [|done].
    destruct (update_at f k pos) as [k'|] eqn:Hu; [|done].
    intros [= <-]. destruct q as [|j q].
    + cbn. by rewrite Hc.
    + rewrite with_calls_node_at, node_at_cons, Hk.
      destruct (decide (j = i)) as [->|Hne].
      * rewrite list_lookup_insert_eq by (by eapply lookup_lt_Some). rewrite Hi.
        by apply IH.
      * by rewrite list_lookup_insert_ne.
Qed.

Lemma update_root_view {L A} (g : CallNode L → A) (f : CallNode L → CallNode L)
  root pos root' :
  (∀ x, calls (f x) = calls x) → (∀ x, g (f x) = g x) →
  (∀ c x, g (with_calls c x) = g x) →
  update_root f root pos = Some root' → same_view g root root'.
Proof.
  intros Hf Hg Hc. destruct root as [n|ns]; cbn [root_at update_root].
  - destruct (update_at f n pos) as [n'|] eqn:Hu; [|done].
    intros [= <-] q. cbn [root_at]. by apply (update_at_view g f pos).
  - destruct pos as [|i pos]; [done|].
    destruct (ns !! i) as [n|] eqn:Hn; [|done].
    destruct (update_at f n pos) as [n'|] eqn:Hu; [|done].
    intros [= <-] [|j q]; [done|]. cbn [root_at].
    destruct (decide (j = i)) as [->|Hne].
    + rewrite list_lookup_insert_eq by (by eapply lookup_lt_Some). rewrite Hn.
      by apply (update_at_view g f pos).
    + by rewrite list_lookup_insert_ne.
Qed.

Lemma visit_list_view {L A} (g : CallNode L → A)
  (v : CallNode L → list nat → PathMap → CallNode L * PathMap) prefix ks :
  Forall (fun k => ∀ pre pm k' pm', v k pre pm = (k', pm') →
            ∀ q, g <$> node_at k' q = g <$> node_at k q) ks →
  ∀ j pm ks' pm', visit_list v prefix ks j pm = (ks', pm') →
    ∀ i q, g <$> (ks' !! i ≫= fun k => node_at k q)
           = g <$> (ks !! i ≫= fun k => node_at k q).
Proof.
  induction 1 as [|k ks Hk _ IH]; intros j pm ks' pm'; cbn [visit_list].
  - by intros [= <- <-].
  - destruct (v k (prefix ++ [j]) pm) as [k1 pm1] eqn:Hv.
    destruct (visit_list v prefix ks (S j) pm1) as [ks2 pm2] eqn:Hl.
    intros [= <- <-] [|i] q.
    + cbn. by apply (Hk _ _ _ _ Hv).
    + cbn. by apply (IH _ _ _ _ Hl).
Qed.

Lemma visit_view {L A} (g : CallNode L → A) :
  (∀ m t f o i ou v ga gu kids kids' l p p',
     g (mkCallNode m t f o i ou v ga gu kids l p)
     = g (mkCallNode m t f o i ou v ga gu kids' l p')) →
  ∀ node prefix pm node' pm',
    visit node prefix pm = (node', pm') →
    ∀ q, g <$> node_at node' q = g <$> node_at node q.
Proof.
  intros Hg node.
  induction node as [m t f o i ou v ga gu kids l p IH] using CallNode_ind.
  intros prefix pm node' pm'. cbn [visit]. destruct kids as [ks|].
  - destruct (visit_list visit prefix ks 0 (map_set (path_key prefix) prefix pm))
      as [ks' pm2] eqn:Hl.
    intros [= <- <-]. cbn [default from_option id] in IH.
    intros [|j q].
    + cbn. f_equal. apply Hg.
    + rewrite !node_at_cons. cbn [calls].
      pose proof (visit_list_view g _ _ _ IH _ _ _ _ Hl j q) as Hj.
      by destruct (ks' !! j), (ks !! j).
  - intros [= <- <-] [|j q]; [|done]. cbn. f_equal. apply Hg.
Qed.

Lemma annotate_view {L A} (g : CallNode L → A) (root root' : CallTracerRoot L) pm :
  (∀ m t f o i ou v ga gu kids kids' l p p',
     g (mkCallNode m t f o i ou v ga gu kids l p)
     = g (mkCallNode m t f o i ou v ga gu kids' l p')) →
  annotateCallPaths root = (root', pm) → same_view g root root'.
Proof.
  intros Hg. unfold annotateCallPaths. destruct root as [n|ns].
  - destruct (visit n [] []) as [n' pm'] eqn:Hv. intros [= <- <-] q.
    by apply (visit_view g Hg _ _ _ _ _ Hv).
  - destruct (visit_list visit [] ns 0 []) as [ns' pm'] eqn:Hv.
    intros [= <- <-] [|i q]; [done|]. cbn [root_at].
    assert (Hall : Forall (fun k : CallNode L => ∀ pre pm k' pm',
              visit k pre pm = (k', pm') →
              ∀ q, g <$> node_at k' q = g <$> node_at k q) ns).
    { apply Forall_forall. intros k _ pre pm0 k' pm0'. by apply visit_view. }
    pose proof (visit_list_view g _ _ _ Hall _ _ _ _ Hv i q) as Hi.
    by destruct (ns' !! i), (ns !! i).
Qed.

(** X9.  The indexer changes nothing but the [_path] fields: the annotated
    tree has a node exactly where the given tree has one, and the node
    holds the same method, type, addresses, input, output, value, gas
    figures and logs. *)
Theorem indexer_keeps_the_call_data {L} (root root' : CallTracerRoot L) pm q :
  annotateCallPaths root = (root', pm) →
  call_data <$> root_at root' q = call_data <$> root_at root q.
Proof. intros Hann. by apply (annotate_view call_data root root' pm). Qed.

Lemma indexer_keeps_the_call_data_witness :
  call_data <$> root_at (annotateCallPaths (one_call_tree "CALL")).1 [0%nat]
  = call_data <$> root_at (one_call_tree "CALL") [0%nat].
Proof.
  apply (indexer_keeps_the_call_data (one_call_tree "CALL") _
           (annotateCallPaths (one_call_tree "CALL")).2).
  reflexivity.
Defined.

(** * The warnings of the stitch, line by line *)

Lemma expected_address_with_calls {L} c (x : CallNode L) :
  expectedLogAddressForNode (with_calls c x) = expectedLogAddressForNode x.
Proof. by destruct x. Qed.

Lemma init_logs_view {A} (g : CallNode loc → A) pm :
  (∀ x, g (clear_logs x) = g x) → (∀ c x, g (with_calls c x) = g x) →
  ∀ root root', init_logs pm root = Ok root' → same_view g root root'.
Proof.
  intros Hg Hc. induction pm as [|[k pos] pm IH]; intros root root'; cbn [init_logs].
  - intros [= <-]. apply same_view_refl.
  - destruct (update_root clear_logs root pos) as [root1|] eqn:Hu; [|done].
    intros Hi. eapply same_view_trans; [|by eapply IH].
    by eapply update_root_view; [apply clear_logs_calls| | |].
Qed.

Lemma walk_warnings_snoc root mem events refs i e l :
  events !! i = Some e → refs !! i = Some l →
  walk_warnings root mem (take (S i) events) (take (S i) refs) =
  walk_warnings root mem (take i events) (take i refs) ++ walk_warning root mem i e l.
Proof.
  intros He Hl. unfold walk_warnings.
  pose proof (lookup_lt_Some _ _ _ He). pose proof (lookup_lt_Some _ _ _ Hl).
  rewrite (take_S_r _ _ _ He), (take_S_r _ _ _ Hl).
  rewrite zip_with_app by (rewrite !length_take; lia).
  rewrite imap_app, join_app. f_equal. cbn [zip_with imap mjoin list_join].
  rewrite length_zip_with, !length_take, app_nil_r. cbn [fst snd].
  by replace (Nat.min (Nat.min i (length events)) (Nat.min i (length refs)) + 0)%nat
    with i by lia.
Qed.

Lemma walk_warnings_take root mem events refs :
  walk_warnings root mem (take (min (length events) (length refs)) events)
                         (take (min (length events) (length refs)) refs)
  = walk_warnings root mem events refs.
Proof. unfold walk_warnings. by rewrite zip_with_take_both' by lia. Qed.

Lemma stitch_walk_warnings root structLogs mem :
  depths_ok structLogs →
  ∃ events st,
    deriveEventPathsRevertAware structLogs = Ok events
    ∧ stitch_walk root structLogs mem = Ok st
    ∧ warnings st =
        (if decide (length events = length (receipt_logs mem)) then []
         else [count_mismatch_warning (length events) (length (receipt_logs mem))])
        ++ walk_warnings root mem events (receipt_logs mem)
        ++ (leftover_warning <$>
              seq (length events) (length (receipt_logs mem) - length events)).
Proof.
  intros Hok.
  destruct (stitch_walk_ok root structLogs mem Hok)
    as (events & root0 & pm & root1 & st1 & sts & walk & Hd & Hann & Hinit & Hloop
        & Hlen & Hs0 & Hs1 & Hstep & _ & Hm1 & _ & _ & _ & Hwalk).
  set (refs := receipt_logs mem) in *.
  set (m := min (length events) (length refs)) in *.
  set (start := warnings (walk_start root1 (length events) mem)).
  exists events, (leftover_loop m st1). splits; [done|done|].
  assert (Hreg : ∀ r q, same_shape root1 r → is_Some (root_at r q) →
                        map_get (path_key q) pm = Some q).
  { intros r q Hr Hq. apply (annotate_registers root root0); [done|].
    by apply (init_logs_shape _ _ _ Hinit), Hr. }
  assert (Hview1 : same_view expectedLogAddressForNode root root1).
  { eapply same_view_trans.
    - by apply (annotate_view _ root root0 pm).
    - apply (init_logs_view _ pm); [by intros [] | apply expected_address_with_calls
                                   | exact Hinit]. }
  assert (Hinv : ∀ i, (i <= m)%nat → ∃ s,
             sts !! i = Some s ∧ memory s = mem ∧ same_shape root1 (tree s)
             ∧ same_view expectedLogAddressForNode root (tree s)
             ∧ warnings s =
                 start ++ walk_warnings root mem (take i events) (take i refs)).
  { induction i as [|i IH]; intros Hi.
    - exists (walk_start root1 (length events) mem).
      splits; [done|done|apply same_shape_refl|done|].
      unfold start, walk_warnings. cbn. by rewrite app_nil_r.
    - destruct IH as (s & Hs & Hms & Hsh & Hview & Hws); [lia|].
      destruct (lookup_lt_is_Some_2 events i) as [e He]; [lia|].
      destruct (lookup_lt_is_Some_2 refs i) as [l Hl]; [lia|].
      destruct (Hstep i e He ltac:(lia)) as (s0 & s' & Hs0' & Hs' & Hatt).
      rewrite Hs in Hs0'. injection Hs0' as <-.
      exists s'. split; [done|].
      pose proof (attach_one_shape _ _ _ _ _ Hatt) as Hsh'.
      rewrite (walk_warnings_snoc root mem events refs i e l He Hl), app_assoc, <- Hws.
      revert Hatt. unfold attach_one, walk_warning. rewrite Hms. fold refs. rewrite Hl.
      pose proof (Hview (callPath e)) as Hve.
      destruct (map_get (path_key (callPath e)) pm) as [pos|] eqn:Hget.
      + assert (pos = callPath e) as ->.
        { symmetry. apply path_key_inj. by apply (annotate_keys root root0 pm). }
        destruct (root_at (tree s) (callPath e)) as [node0|] eqn:Hn0; [|done].
        destruct (root_at root (callPath e)) as [node|]; [|done].
        cbn in Hve. injection Hve as Hve. rewrite <- Hve.
        destruct (push_log l (tree s) (callPath e)) as [r| | |] eqn:Hp; try done.
        cbn [mbind outcome_bind]. intros [= <-]. cbn [memory tree warnings] in *.
        splits; [done | by eapply same_shape_trans | |].
        * eapply same_view_trans; [exact Hview|].
          revert Hp. unfold push_log. rewrite Hn0.
          destruct (logs node0) as [ls|]; [|done].
          destruct (update_root _ (tree s) (callPath e)) as [r'|] eqn:Hu; [|done].
          intros [= <-]. eapply update_root_view; [| | |exact Hu].
          -- by intros [].
          -- by intros [].
          -- apply expected_address_with_calls.
        * by destruct (address_disagrees _ _); [|rewrite app_nil_r].
      + intros [= <-]. cbn [memory tree warnings] in *.
        assert (Hnone : root_at (tree s) (callPath e) = None).
        { destruct (root_at (tree s) (callPath e)) as [n|] eqn:Hn; [|done].
          rewrite (Hreg (tree s) (callPath e) Hsh) in Hget; [done | by eexists]. }
        rewrite Hnone in Hve. destruct (root_at root (callPath e)); [done|].
        by splits. }
  destruct (Hinv m ltac:(lia)) as (s & Hs & _ & _ & _ & Hws).
  rewrite Hs1 in Hs. injection Hs as <-.
  unfold leftover_loop. cbn [warnings]. rewrite Hws, Hm1. fold refs. subst m.
  rewrite (walk_warnings_take root mem events refs), <- app_assoc.
  f_equal; [|f_equal].
  - unfold start, walk_start. cbn [warnings]. fold refs.
    destruct (decide (length events = length refs)) as [->|Hne].
    + by rewrite Nat.eqb_refl.
    + by rewrite (proj2 (Nat.eqb_neq _ _) Hne).
  - f_equal.
    destruct (decide (length events <= length refs)%nat).
    + by rewrite Nat.min_l by lia.
    + rewrite Nat.min_r by lia.
      by replace (length refs - length refs)%nat with 0%nat
         by lia; replace (length refs - length events)%nat with 0%nat by lia.
Qed.

Lemma walk_warnings_nil root mem events refs :
  walk_warnings root mem events refs = [] ↔
  ∀ i e l, events !! i = Some e → refs !! i = Some l →
           walk_warning root mem i e l = [].
Proof.
  unfold walk_warnings. rewrite join_nil, Forall_lookup. split.
  - intros H i e l He Hl. apply (H i).
    rewrite list_lookup_imap, lookup_zip_with, He, Hl. done.
  - intros H i ws. rewrite list_lookup_imap, lookup_zip_with.
    destruct (events !! i) as [e|] eqn:He; [|done].
    destruct (refs !! i) as [l|] eqn:Hl; [|done].
    cbn. intros [= <-]. by apply H.
Qed.

(** X10.  The warnings of a stitch that is allowed to return them: the
    count line when the numbers of events and of receipt logs differ; then,
    for each pair of event i and log i in turn, the missing-node line when
    the given tree has no node at the event's call path, or else the
    address line when the check on that node's expected address fails; then
    one leftover line for each receipt log beyond the events. *)
Theorem lenient_stitch_warnings root structLogs mem :
  depths_ok structLogs →
  ∃ events st,
    deriveEventPathsRevertAware structLogs = Ok events
    ∧ stitchLogsIntoCallTrace root structLogs mem true = Ok st
    ∧ warnings st =
        (if decide (length events = length (receipt_logs mem)) then []
         else [count_mismatch_warning (length events) (length (receipt_logs mem))])
        ++ walk_warnings root mem events (receipt_logs mem)
        ++ (leftover_warning <$>
              seq (length events) (length (receipt_logs mem) - length events)).
Proof.
  intros Hok.
  destruct (stitch_walk_warnings root structLogs mem Hok)
    as (events & st & Hd & Hwalk & Hws).
  exists events, st. splits; [done| |done].
  unfold stitchLogsIntoCallTrace. rewrite Hwalk. cbn [mbind outcome_bind negb].
  by rewrite andb_false_r.
Qed.

Lemma lenient_stitch_warnings_witness :
  ∃ st,
    stitchLogsIntoCallTrace (one_call_tree "CALL") reverting_call_trace
      (memory_of [log_with_address target_addr]) true = Ok st
    ∧ warnings st = [count_mismatch_warning 0 1; leftover_warning 0].
Proof.
  destruct (lenient_stitch_warnings (one_call_tree "CALL") reverting_call_trace
              (memory_of [log_with_address target_addr]))
    as (events & st & Hd & Hst & Hws).
  - unfold depths_ok, reverting_call_trace. repeat constructor; cbn; lia.
  - exists st. split; [done|]. rewrite Hws.
    vm_compute in Hd. injection Hd as <-. reflexivity.
Defined.

(** X11.  The strict stitch returns exactly when there are as many derived
    events as receipt logs and, for every pair of event i and log i, the
    given tree has a node at the event's call path and the address check on
    that node does not fail. *)
Theorem strict_stitch_returns_iff root structLogs mem :
  depths_ok structLogs →
  ∃ events,
    deriveEventPathsRevertAware structLogs = Ok events
    ∧ ((∃ st, stitchLogsIntoCallTrace root structLogs mem false = Ok st) ↔
       length events = length (receipt_logs mem)
       ∧ ∀ i e l, events !! i = Some e → receipt_logs mem !! i = Some l →
           ∃ node, root_at root (callPath e) = Some node
                   ∧ address_disagrees (expectedLogAddressForNode node)
                       (address (log_object mem l)) = false).
Proof.
  intros Hok.
  destruct (stitch_walk_warnings root structLogs mem Hok)
    as (events & st & Hd & Hwalk & Hws).
  exists events. split; [done|].
  assert (Hquiet : ∀ i e l,
            walk_warning root mem i e l = [] ↔
            ∃ node, root_at root (callPath e) = Some node
                    ∧ address_disagrees (expectedLogAddressForNode node)
                        (address (log_object mem l)) = false).
  { intros i e l. unfold walk_warning.
    destruct (root_at root (callPath e)) as [node|].
    - destruct (address_disagrees _ _) eqn:Ha.
      + split; [done|]. intros (n & [= <-] & Hn). congruence.
      + split; [|done]. intros _. by exists node.
    - split; [done | by intros (n & ? & _)]. }
  unfold stitchLogsIntoCallTrace. rewrite Hwalk. cbn [mbind outcome_bind negb].
  rewrite andb_true_r. split.
  - intros [st' Hst].
    assert (Hnil : warnings st = []).
    { destruct (warnings st); [done|]. by cbn in Hst. }
    rewrite Hnil in Hws. symmetry in Hws.
    apply app_eq_nil in Hws as [Hcount [Hwalkw _]%app_eq_nil].
    split.
    + by destruct (decide (length events = length (receipt_logs mem))).
    + intros i e l He Hl. apply (Hquiet i).
      by apply (proj1 (walk_warnings_nil _ _ _ _) Hwalkw i e l).
  - intros [Hlen Hall]. exists st.
    assert (Hnil : warnings st = []).
    { rewrite Hws, decide_True by done.
      rewrite (proj2 (walk_warnings_nil root mem events (receipt_logs mem))).
      - by rewrite Hlen, Nat.sub_diag.
      - intros i e l He Hl. apply Hquiet. by apply (Hall i). }
    by rewrite Hnil.
Qed.

Lemma strict_stitch_returns_iff_witness :
  ∃ st, stitchLogsIntoCallTrace sibling_calls_tree sibling_calls_trace
          (memory_of [log_with_address target_addr; log_with_address other_addr])
          false = Ok st.
Proof.
  destruct (strict_stitch_returns_iff sibling_calls_tree sibling_calls_trace
              (memory_of [log_with_address target_addr; log_with_address other_addr]))
    as (events & Hd & Hiff).
  - unfold depths_ok, sibling_calls_trace. repeat constructor; cbn; lia.
  - apply Hiff. vm_compute in Hd. injection Hd as <-. split; [done|].
    intros [|[|i]] e l He Hl; try done.
    + injection He as <-. injection Hl as <-. eexists. by vm_compute.
    + injection He as <-. injection Hl as <-. eexists. by vm_compute.
Defined.

(** * The enricher, node by node *)

Lemma lookup_map {A B} (f : A → B) (l : list A) i : map f l !! i = f <$> l !! i.
Proof. revert i. induction l as [|x l IH]; intros [|i]; cbn; auto. Qed.

Lemma enrich_root_at {P : Type} (selectors : gmap string string)
  (topic_table : gmap string (string * (ReceiptLog → P))) (mem : LogMemory)
  (root : CallTracerRoot loc) (q : list nat) :
  root_at (enrichTraceWithCallAndEventDetails selectors topic_table mem root) q
  = enrichCall selectors topic_table mem <$> root_at root q.
Proof.
  assert (Hnode : ∀ q n,
            node_at (enrichCall selectors topic_table mem n) q
            = enrichCall selectors topic_table mem <$> node_at n q).
  { clear q. induction q as [|i q IH]; intros n; [done|].
    rewrite !node_at_cons. destruct n as [m t f o inp ou v g gu kids l p].
    cbn [enrichCall calls]. destruct kids as [ks|]; [|done].
    rewrite lookup_map. destruct (ks !! i) as [k|]; [|done]. apply IH. }
  destruct root as [n|ns]; cbn [enrichTraceWithCallAndEventDetails root_at].
  - apply Hnode.
  - destruct q as [|i q]; [done|]. rewrite list_lookup_fmap.
    destruct (ns !! i) as [n|]; [|done]. apply Hnode.
Qed.

(** X12.  Enrichment keeps the tree: the enriched tree has a node exactly
    where the given tree has one, and that node has the type, addresses,
    input, output, value, gas figures and [_path] it had.  Its logs are the
    given node's logs in the same order, each a new object with the fields
    of the receipt log and the result of [parseEvent] on it; a node without
    a [logs] array is left without one. *)
Theorem enrich_node_by_node {P : Type} (selectors : gmap string string)
  (topic_table : gmap string (string * (ReceiptLog → P))) (mem : LogMemory)
  (root : CallTracerRoot loc) (q : list nat) :
  match root_at root q with
  | Some n =>
      ∃ n', root_at (enrichTraceWithCallAndEventDetails selectors topic_table mem
                       root) q
            = Some n'
        ∧ (type n', from n', to n', input n', output n', value n', gas n',
           gasUsed n', _path n')
          = (type n, from n, to n, input n, output n, value n, gas n, gasUsed n,
             _path n)
        ∧ fmap (M := option) length (calls n') = fmap (M := option) length (calls n)
        ∧ logs n' =
            fmap (M := option)
              (fmap (M := list)
                 (fun l : loc =>
                    {| fields := log_object mem l;
                       parsed := parseEvent topic_table (log_object mem l) |}))
              (logs n)
  | None =>
      root_at (enrichTraceWithCallAndEventDetails selectors topic_table mem root) q
      = None
  end.
Proof.
  rewrite enrich_root_at. destruct (root_at root q) as [n|]; [|done].
  eexists. split; [done|]. destruct n as [m t f o inp ou v g gu kids l p].
  cbn [enrichCall type from to input output value gas gasUsed _path calls logs].
  splits; [done| |].
  - destruct kids as [ks|]; [|done]. cbn. by rewrite length_map.
  - by destruct l.
Qed.

(** * The depth of a record *)

Lemma history_entry_depth steps x :
  depths_ok steps → x ∈ history steps → Z.of_nat (length x.2) < depth x.1.
Proof.
  intros Hok [j Hj]%list_elem_of_lookup.
  destruct (run_total steps Hok) as (st & _ & _ & Hfst).
  assert (Hs : steps !! j = Some x.1).
  { rewrite <- Hfst, list_lookup_fmap, Hj. done. }
  pose proof (take_drop_middle _ _ _ Hs) as Hsplit. symmetry in Hsplit.
  destruct (history_split steps _ _ _ Hok Hsplit)
    as (sta & st2 & cur & rest & st' & Hra & HIa & Hla & Hfa & Hset & Hfs2 & _
        & _ & _ & _ & Hhist).
  assert (Hd : 1 <= depth x.1).
  { apply (proj1 (Forall_forall _ _) Hok). by eapply list_elem_of_lookup_2. }
  destruct (settle_inv _ _ _ Hd HIa Hla) as (st2' & cur' & rest' & Hset' & HI2 & _
                                              & Hfs2' & Hlen).
  rewrite Hset in Hset'. injection Hset' as <-.
  assert (Hlh : length (history_from (init_state steps) (take j steps)) = j).
  { rewrite <- (length_fmap fst), Hfa, length_take.
    apply lookup_lt_Some in Hs. lia. }
  rewrite Hhist in Hj. rewrite lookup_app_r in Hj by lia.
  rewrite Hlh, Nat.sub_diag in Hj. injection Hj as <-. cbn [fst snd].
  pose proof (chain_lookup_length _ (inv_chain _ _ HI2) 0 cur) as Hc.
  rewrite Hfs2 in Hc, Hlen. specialize (Hc eq_refl). cbn [length] in *. lia.
Qed.

(** X13.  For depths in the 1-based range, the call path of every returned
    record is shorter than the depth of the record's step: a log at depth d
    is placed at most d - 1 calls below the root. *)
Theorem record_path_shorter_than_depth steps :
  depths_ok steps →
  ∃ out, deriveEventPathsRevertAware steps = Ok out
         ∧ ∀ r, r ∈ out → Z.of_nat (length (callPath r)) < ep_depth r.
Proof.
  intros Hok.
  destruct (derive_characterised steps Hok) as (st & _ & _ & _ & Hd & Hc).
  eexists. split; [exact Hd|]. intros r Hr.
  assert (Hin : ep_core r ∈ ep_core <$> assign_ordinals (events st) ∅).
  { apply list_elem_of_fmap. by exists r. }
  rewrite Hc in Hin. apply list_elem_of_fmap in Hin as (x & Hx & Hin).
  apply list_elem_of_filter in Hin as [_ Hin].
  pose proof (history_entry_depth steps x Hok Hin) as Hlt.
  unfold ep_core, entry_core in Hx. injection Hx as _ _ -> ->. exact Hlt.
Qed.

Lemma record_path_shorter_than_depth_witness :
  ∃ out, deriveEventPathsRevertAware logging_call_trace = Ok out
         ∧ Forall (fun r => Z.of_nat (length (callPath r)) < ep_depth r) out.
Proof.
  destruct (record_path_shorter_than_depth logging_call_trace) as (out & Hd & Hall).
  - unfold depths_ok, logging_call_trace. repeat constructor; cbn; lia.
  - exists out. split; [done|]. by apply Forall_forall.
Defined.

(** * Depths below the 1-based range *)










(** X2.  Only a REVERT step processed in the very frame that emitted a log
    can withhold its record: the record of a LOG step is returned when no
    REVERT step was processed in a frame with its call path, whatever
    happened in the frames above or below it. *)
Theorem records_outside_reverted_frames_are_returned steps :
  depths_ok steps →
  ∃ out,
    deriveEventPathsRevertAware steps = Ok out
    ∧ ∀ x, x ∈ history steps → is_log_entry x →
           x.2 ∉ reverted_paths (history steps) →
           entry_core x ∈ ep_core <$> out.
Proof.
  intros Hok.
  destruct (derive_characterised steps Hok) as (st & _ & _ & _ & Hd & Hc).
  exists (assign_ordinals (events st) ∅). split; [done|].
  intros x Hx Hl Hrev. rewrite Hc. apply list_elem_of_fmap.
  exists x. split; [done|]. apply list_elem_of_filter.
  split; [|done]. split; [done|]. by intros [Hin _].
Qed.

(** The call at path [0] logs, calls [0, 0], which logs and returns, and
    then reverts: the inner record is returned. *)
Lemma records_outside_reverted_frames_are_returned_witness :
  ∃ out,
    deriveEventPathsRevertAware
      [mkStep "CALL" 1 0; mkStep "LOG2" 2 0; mkStep "CALL" 2 1; mkStep "LOG1" 3 0;
       mkStep "STOP" 3 1; mkStep "REVERT" 2 2; mkStep "STOP" 1 1] = Ok out
    ∧ ("LOG1", 0%nat, 3, [0%nat; 0%nat]) ∈ ep_core <$> out.
Proof.
  destruct (records_outside_reverted_frames_are_returned
      [mkStep "CALL" 1 0; mkStep "LOG2" 2 0; mkStep "CALL" 2 1; mkStep "LOG1" 3 0;
       mkStep "STOP" 3 1; mkStep "REVERT" 2 2; mkStep "STOP" 1 1])
    as (out & Hd & Hin).
  - repeat constructor; cbn; lia.
  - exists out. split; [done|].
    apply (Hin (mkStep "LOG1" 3 0, [0%nat; 0%nat])).
    + vm_compute. do 3 apply list_elem_of_further. apply list_elem_of_here.
    + done.
    + vm_compute. by intros [?|?%elem_of_nil]%elem_of_cons.
Defined.

(** * The example script: methods and their events *)

Lemma nodes_of_eq {L} (n : CallNode L) :
  nodes_of n = n :: mjoin (nodes_of <$> default [] (calls n)).
Proof.
  destruct n as [m t f o i ou v g gu kids l p]. cbn [nodes_of calls]. f_equal.
  destruct kids as [ks|]; [|done]. cbn [default from_option id].
  induction ks as [|k ks IH]; [done|]. cbn. by rewrite IH.
Qed.

Lemma fold_left_append {A B} (f : B → list A) (ks : list B) : ∀ acc,
  fold_left (fun acc k => acc ++ f k) ks acc = acc ++ mjoin (f <$> ks).
Proof.
  induction ks as [|k ks IH]; intros acc; cbn.
  - by rewrite app_nil_r.
  - by rewrite IH, app_assoc.
Qed.

Lemma fmap_join {A B} (f : A → B) (ls : list (list A)) :
  f <$> mjoin ls = mjoin (fmap f <$> ls).
Proof.
  induction ls as [|l ls IH]; [done|].
  change (mjoin (l :: ls)) with (l ++ mjoin ls). by rewrite fmap_app, IH.
Qed.

Lemma filter_join {A} (Q : A → Prop) `{∀ x, Decision (Q x)} (ls : list (list A)) :
  filter Q (mjoin ls) = mjoin (filter Q <$> ls).
Proof.
  induction ls as [|l ls IH]; [done|].
  change (mjoin (l :: ls)) with (l ++ mjoin ls). by rewrite filter_app, IH.
Qed.

Lemma join_join {A} (lss : list (list (list A))) :
  mjoin (mjoin lss) = mjoin (mjoin <$> lss).
Proof.
  induction lss as [|ls lss IH]; [done|].
  change (mjoin (ls :: lss)) with (ls ++ mjoin lss). by rewrite join_app, IH.
Qed.

(** X15.  [collectEvents] returns the matching events of the whole subtree
    in depth-first order: for each node, the node itself before its
    children, the decoded events of the node's logs whose name is one of
    [eventNames], in the order of the logs. *)
Theorem collectEvents_subtree {P : Type} (eventNames : list string)
  (call : CallNode (EnrichedLog P)) :
  collectEvents eventNames call =
  mjoin ((fun n => parsed <$> filter (fun log => event_matches eventNames log = true)
                                (default [] (logs n)))
         <$> nodes_of call).
Proof.
  induction call as [m t f o i ou v g gu kids l p IH] using CallNode_ind.
  rewrite nodes_of_eq. cbn [collectEvents calls logs fmap list_fmap mjoin list_join].
  assert (Hown : match l with
                 | Some ls =>
                     parsed <$> filter (fun log => event_matches eventNames log = true)
                                  ls
                 | None => []
                 end
                 = parsed <$> filter (fun log => event_matches eventNames log = true)
                                (default [] l)).
  { by destruct l. }
  rewrite Hown. destruct kids as [ks|]; cbn [default from_option id] in *.
  - rewrite fold_left_append. f_equal.
    rewrite fmap_join, join_join, <- !list_fmap_compose. f_equal.
    apply Forall_fmap_ext_1. eapply Forall_impl; [exact IH|].
    intros k Hk. exact Hk.
  - by rewrite app_nil_r.
Qed.

Section MapMethodsProps.
Context {P : Type}.
Variable methodNames eventNames : list string.

Lemma added_app m (a b : list (CallNode (EnrichedLog P))) :
  events_added methodNames eventNames m (a ++ b)
  = events_added methodNames eventNames m a
    ++ events_added methodNames eventNames m b.
Proof.
  unfold events_added, events_under. destruct (decide _); [|done].
  by rewrite filter_app, fmap_app, join_app.
Qed.

Lemma added_cons m (n : CallNode (EnrichedLog P)) ns :
  events_added methodNames eventNames m (n :: ns)
  = events_added methodNames eventNames m [n]
    ++ events_added methodNames eventNames m ns.
Proof. apply (added_app m [n] ns). Qed.

Lemma get_set_eq name v (r : MethodEvents (P := P)) :
  get_prop name (set_prop name v r) = Some v.
Proof.
  unfold get_prop, set_prop.
  destruct (decide (name = "__proto__")); cbn [own_props proto_array]; [done|].
  apply lookup_insert_eq.
Qed.

Lemma get_set_ne name m v (r : MethodEvents (P := P)) :
  m ≠ name → get_prop m (set_prop name v r) = get_prop m r.
Proof.
  intros Hne. unfold get_prop, set_prop.
  destruct (decide (name = "__proto__")) as [->|Hn];
    destruct (decide (m = "__proto__")) as [->|Hm]; cbn [own_props proto_array];
    try done.
  by apply lookup_insert_ne.
Qed.

(** The name [__proto__] never becomes an own property. *)
Lemma set_prop_own_proto name v (r : MethodEvents (P := P)) :
  own_props (set_prop name v r) !! "__proto__" = own_props r !! "__proto__".
Proof.
  unfold set_prop.
  destruct (decide (name = "__proto__")); cbn [own_props proto_array]; [done|].
  by apply lookup_insert_ne.
Qed.

Lemma visit_each_methods (ks : list (CallNode (EnrichedLog P))) :
  Forall (fun k => ∀ r, (∀ m, m ∈ methodNames → is_Some (get_prop m r)) →
            ∃ r', visit_methods methodNames eventNames k r = Ok r'
                  ∧ own_props r' !! "__proto__" = own_props r !! "__proto__"
                  ∧ ∀ m, get_prop m r' =
                      (fun es => es ++ events_added methodNames eventNames m
                                         (nodes_of k)) <$> get_prop m r) ks →
  ∀ r, (∀ m, m ∈ methodNames → is_Some (get_prop m r)) →
    ∃ r', visit_each (visit_methods methodNames eventNames) ks r = Ok r'
          ∧ own_props r' !! "__proto__" = own_props r !! "__proto__"
          ∧ ∀ m, get_prop m r' =
              (fun es => es ++ events_added methodNames eventNames m
                                 (mjoin (nodes_of <$> ks))) <$> get_prop m r.
Proof.
  induction 1 as [|k ks Hk _ IH]; intros r Hr; cbn [visit_each].
  - exists r. split; [done|]. split; [done|]. intros m. cbn.
    replace (events_added (P := P) methodNames eventNames m [])
      with (@nil (ParsedEvent P)).
    + destruct (get_prop m r); cbn; [by rewrite app_nil_r | done].
    + unfold events_added, events_under. by destruct (decide _).
  - destruct (Hk r Hr) as (r1 & -> & Ho1 & Hr1). cbn [mbind outcome_bind].
    destruct (IH r1) as (r2 & -> & Ho2 & Hr2).
    { intros m Hm. rewrite Hr1. destruct (Hr m Hm) as [es ->]. by eexists. }
    exists r2. split; [done|]. split; [by rewrite Ho2|]. intros m.
    rewrite Hr2, Hr1. cbn [fmap list_fmap mjoin list_join]. rewrite added_app.
    destruct (get_prop m r); cbn; [by rewrite app_assoc | done].
Qed.

Lemma visit_methods_spec (call : CallNode (EnrichedLog P)) :
  ∀ r, (∀ m, m ∈ methodNames → is_Some (get_prop m r)) →
    ∃ r', visit_methods methodNames eventNames call r = Ok r'
          ∧ own_props r' !! "__proto__" = own_props r !! "__proto__"
          ∧ ∀ m, get_prop m r' =
              (fun es => es ++ events_added methodNames eventNames m
                                 (nodes_of call)) <$> get_prop m r.
Proof.
  induction call as [mt t f o i ou v g gu kids l p IH] using CallNode_ind.
  intros r Hr. set (call := mkCallNode mt t f o i ou v g gu kids l p).
  assert (Hfirst : ∃ r1,
            match mt with
            | Some name =>
                if truthy name && bool_decide (name ∈ methodNames)
                then push_events name (collectEvents eventNames call) r
                else Ok r
            | None => Ok r
            end = Ok r1
            ∧ own_props r1 !! "__proto__" = own_props r !! "__proto__"
            ∧ ∀ m, get_prop m r1 =
                (fun es => es ++ events_added methodNames eventNames m [call])
                <$> get_prop m r).
  { assert (Hsame : ∀ m, events_added methodNames eventNames m [call] = [] →
                         get_prop m r =
                         (fun es => es ++ events_added methodNames eventNames m
                                            [call]) <$> get_prop m r).
    { intros m ->. destruct (get_prop m r); cbn; [by rewrite app_nil_r | done]. }
    assert (Hadd : ∀ m, events_added methodNames eventNames m [call] =
              if decide (m ∈ methodNames ∧ m ≠ "" ∧ mt = Some m)
              then collectEvents eventNames call else []).
    { intros m. unfold events_added, events_under. rewrite filter_cons, filter_nil.
      cbn [method call].
      destruct (decide (m ∈ methodNames ∧ m ≠ "")) as [[? ?]|Hn].
      - destruct (decide (mt = Some m)).
        + rewrite decide_True by done. cbn. by rewrite app_nil_r.
        + rewrite decide_False by tauto. done.
      - rewrite decide_False by tauto. done. }
    destruct mt as [name|].
    2:{ exists r. split; [done|]. split; [done|]. intros m. apply Hsame.
        rewrite Hadd, decide_False; [done|]. by intros (_ & _ & ?). }
    destruct (truthy name && bool_decide (name ∈ methodNames)) eqn:Hcond.
    2:{ exists r. split; [done|]. split; [done|]. intros m. apply Hsame.
        rewrite Hadd, decide_False; [done|]. intros (Hin & Hne & [= ->]).
        apply andb_false_iff in Hcond as [Ht|Hb].
        - unfold truthy in Ht. apply negb_false_iff, String.eqb_eq in Ht. done.
        - by apply bool_decide_eq_false in Hb. }
    apply andb_true_iff in Hcond as [Ht Hb]. apply bool_decide_eq_true in Hb.
    assert (Hne : name ≠ "").
    { unfold truthy in Ht. apply negb_true_iff in Ht. by apply String.eqb_neq. }
    unfold push_events. destruct (Hr name Hb) as [es Hes]. rewrite Hes.
    eexists. split; [done|]. split; [apply set_prop_own_proto|].
    intros m. rewrite Hadd.
    destruct (decide (m = name)) as [->|Hmn].
    - rewrite get_set_eq, Hes, decide_True by done. done.
    - rewrite get_set_ne by done. rewrite decide_False.
      + destruct (get_prop m r); cbn; [by rewrite app_nil_r | done].
      + intros (_ & _ & [= ->]). done. }
  destruct Hfirst as (r1 & Hr1 & Ho1 & Hl1).
  assert (Hinit1 : ∀ m, m ∈ methodNames → is_Some (get_prop m r1)).
  { intros m Hm. rewrite Hl1. destruct (Hr m Hm) as [es ->]. by eexists. }
  subst call. cbn [visit_methods]. rewrite Hr1. cbn [mbind outcome_bind].
  rewrite nodes_of_eq. cbn [calls].
  destruct kids as [ks|]; cbn [default from_option id] in *.
  - destruct (visit_each_methods ks IH r1 Hinit1) as (r2 & -> & Ho2 & Hl2).
    exists r2. split; [done|]. split; [by rewrite Ho2|].
    intros m. rewrite Hl2, added_cons, Hl1.
    destruct (get_prop m r); cbn; [by rewrite app_assoc | done].
  - exists r1. split; [done|]. split; [done|]. intros m. by rewrite Hl1.
Qed.

Lemma initial_result_lookup (names : list string) :
  ∀ (r : MethodEvents (P := P)) m,
  get_prop m (fold_left (fun r name => set_prop name [] r) names r)
  = if decide (m ∈ names) then Some (@nil (ParsedEvent P)) else get_prop m r.
Proof.
  induction names as [|n names IH]; intros r m; cbn [fold_left].
  - rewrite decide_False; [done|]. by intros ?%elem_of_nil.
  - rewrite IH. destruct (decide (m ∈ names)) as [Hin|Hnin].
    + rewrite decide_True; [done|]. by apply list_elem_of_further.
    + destruct (decide (m = n)) as [->|Hne].
      * rewrite get_set_eq, decide_True; [done|]. apply list_elem_of_here.
      * rewrite get_set_ne by done. rewrite decide_False; [done|].
        by intros [?|?]%elem_of_cons.
Qed.

Lemma initial_result_own_proto (names : list string) :
  ∀ (r : MethodEvents (P := P)),
  own_props (fold_left (fun r name => set_prop name [] r) names r) !! "__proto__"
  = own_props r !! "__proto__".
Proof.
  induction names as [|n names IH]; intros r; cbn [fold_left]; [done|].
  by rewrite IH, set_prop_own_proto.
Qed.
End MapMethodsProps.

(** X16.  [mapMethodsToEvents] does not throw.  The own keys of the object it
    returns are exactly the names of [methodNames] other than [__proto__].
    Under such a name the object holds, for every node of the tree with that
    method, in depth-first order, all the events that [collectEvents] finds
    in the node's subtree; an event below two nested calls of the listed
    methods is reported once for each of them.  The empty name is never
    matched and keeps the empty list.  The name [__proto__] never becomes a
    key: if it is listed, the events of the nodes with that method are
    collected in the array that has become the object's prototype, and
    otherwise the prototype is left alone. *)
Theorem mapMethodsToEvents_result {P : Type} (methodNames eventNames : list string)
  (enrichedTree : CallTracerRoot (EnrichedLog P)) :
  ∃ result,
    mapMethodsToEvents methodNames eventNames enrichedTree = Ok result
    ∧ (∀ m, own_props result !! m =
         if decide (m ∈ methodNames ∧ m ≠ "__proto__")
         then Some (if decide (m = "") then []
                    else events_under eventNames m (nodes_of_root enrichedTree))
         else None)
    ∧ proto_array result =
        if decide ("__proto__" ∈ methodNames)
        then Some (events_under eventNames "__proto__" (nodes_of_root enrichedTree))
        else None.
Proof.
  set (r0 := fold_left (fun r name => set_prop name [] r) methodNames
               (empty_result (P := P))).
  assert (Hr0 : ∀ m, m ∈ methodNames → is_Some (get_prop m r0)).
  { intros m Hm. unfold r0. rewrite initial_result_lookup, decide_True by done.
    by eexists. }
  assert (Hvisit : ∃ result,
            mapMethodsToEvents methodNames eventNames enrichedTree = Ok result
            ∧ own_props result !! "__proto__" = own_props r0 !! "__proto__"
            ∧ ∀ m, get_prop m result =
                (fun es => es ++
                   (if decide (m ∈ methodNames ∧ m ≠ "")
                    then events_under eventNames m (nodes_of_root enrichedTree)
                    else [])) <$> get_prop m r0).
  { destruct enrichedTree as [c|cs]; cbn [mapMethodsToEvents nodes_of_root]; fold r0.
    - apply visit_methods_spec, Hr0.
    - apply visit_each_methods; [|exact Hr0].
      apply Forall_forall. intros k _. apply visit_methods_spec. }
  destruct Hvisit as (result & Hres & Ho & Hl). exists result. split; [done|].
  assert (Hget : ∀ m, get_prop m result =
            if decide (m ∈ methodNames)
            then Some (if decide (m = "") then []
                       else events_under eventNames m (nodes_of_root enrichedTree))
            else None).
  { intros m. rewrite Hl. unfold r0. rewrite initial_result_lookup.
    destruct (decide (m ∈ methodNames)) as [Hin|Hnin].
    - cbn. f_equal. destruct (decide (m = "")) as [->|Hne].
      + rewrite decide_False; [done|]. by intros [_ ?].
      + by rewrite decide_True.
    - assert (He : get_prop m (empty_result (P := P)) = None).
      { unfold get_prop, empty_result. cbn [own_props proto_array].
        destruct (decide (m = "__proto__")); [done | apply lookup_empty]. }
      by rewrite He. }
  split.
  - intros m. destruct (decide (m = "__proto__")) as [->|Hne].
    + rewrite Ho. unfold r0. rewrite initial_result_own_proto.
      cbn [empty_result own_props]. rewrite lookup_empty.
      destruct (decide ("__proto__" ∈ methodNames ∧ "__proto__" ≠ "__proto__"))
        as [[_ ?]|_]; done.
    + specialize (Hget m). unfold get_prop in Hget.
      destruct (decide (m = "__proto__")); [done|]. rewrite Hget.
      destruct (decide (m ∈ methodNames)) as [Hin|Hnin],
               (decide (m ∈ methodNames ∧ m ≠ "__proto__")) as [[? ?]|Hn];
        try done.
      exfalso. apply Hn. by split.
  - specialize (Hget "__proto__"). unfold get_prop in Hget.
    destruct (decide ("__proto__" = "__proto__")); [|done]. rewrite Hget.
    destruct (decide ("__proto__" ∈ methodNames)); [|done].
    by destruct (decide ("__proto__" = "")).
Qed.

(** * The names of the cache files *)

Lemma replace_runs_name_chars s : ∀ b,
  Forall (fun c => is_name_char c = true)
    (replace_runs (fun c => negb (is_name_char c)) "_" b s).
Proof.
  induction s as [|c s IH]; intros b; cbn [replace_runs]; [by apply Forall_nil|].
  destruct (is_name_char c) eqn:Hc; cbn [negb].
  - apply Forall_cons. split; [done | apply IH].
  - destruct b; [apply IH|]. apply Forall_cons. split; [done | apply IH].
Qed.

Lemma replace_runs_none p r s : ∀ b,
  Forall (fun c => p c = false) s → replace_runs p r b s = s.
Proof.
  induction s as [|c s IH]; intros b Hs; [done|].
  apply Forall_cons in Hs as [Hc Hs]. cbn [replace_runs]. rewrite Hc.
  by rewrite IH.
Qed.

Lemma name_char_not_space c : is_name_char c = true → is_space c = false.
Proof.
  unfold is_name_char, is_space. generalize (nat_of_ascii c). intros n.
  rewrite !orb_true_iff, !andb_true_iff, !Nat.leb_le, !Nat.eqb_eq.
  intros H. apply orb_false_iff. split.
  - apply andb_false_iff. rewrite !Nat.leb_gt. lia.
  - apply Nat.eqb_neq. lia.
Qed.

Lemma trim_start_none s :
  Forall (fun c => is_space c = false) s → trim_start s = s.
Proof. destruct 1 as [|c s Hc _]; [done|]. cbn. by rewrite Hc. Qed.

Lemma trim_none s : Forall (fun c => is_space c = false) s → trim s = s.
Proof.
  intros Hs. unfold trim. rewrite (trim_start_none s Hs).
  rewrite trim_start_none by (by apply Forall_reverse).
  apply reverse_involutive.
Qed.

Lemma length_string_of_list_ascii l :
  String.length (string_of_list_ascii l) = length l.
Proof. induction l as [|c l IH]; cbn; [done | by rewrite IH]. Qed.

Lemma length_list_ascii_of_string s :
  length (list_ascii_of_string s) = String.length s.
Proof. induction s as [|c s IH]; cbn; [done | by rewrite IH]. Qed.

(** X17.  The name the cache derives from a command string has at most 64
    characters, all of them letters, digits, [_], [.] or [-] (so it holds no
    path separator), and a string that is such a name already is kept as it
    is. *)
Theorem sanitize_command_is_a_file_name (s : string) :
  Forall (fun c => is_name_char c = true) (list_ascii_of_string (sanitize_command s))
  ∧ (String.length (sanitize_command s) <= 64)%nat
  ∧ ((String.length s <= 64)%nat →
     Forall (fun c => is_name_char c = true) (list_ascii_of_string s) →
     sanitize_command s = s).
Proof.
  unfold sanitize_command. splits.
  - rewrite list_ascii_of_string_of_list_ascii.
    apply Forall_take, replace_runs_name_chars.
  - rewrite length_string_of_list_ascii, length_take. lia.
  - intros Hlen Hs.
    assert (Hsp : Forall (fun c => is_space c = false) (list_ascii_of_string s)).
    { eapply Forall_impl; [exact Hs|]. intros c. apply name_char_not_space. }
    rewrite (replace_runs_none is_space) by done.
    rewrite trim_none by done.
    rewrite replace_runs_none.
    2:{ eapply Forall_impl; [exact Hs|]. intros c Hc. cbn. by rewrite Hc. }
    rewrite take_ge; [apply string_of_list_ascii_of_string|].
    by rewrite length_list_ascii_of_string.
Qed.

Lemma sanitize_command_is_a_file_name_witness :
  sanitize_command "fetch-logs.sh_0xabc" = "fetch-logs.sh_0xabc".
Proof.
  apply (proj2 (proj2 (sanitize_command_is_a_file_name "fetch-logs.sh_0xabc"))).
  - cbn. lia.
  - by repeat constructor.
Defined.

(** * The file cache *)

Section FileCacheProps.
Context {V W : Type}.
Variable string_of : V → option string.
Variable JSON_stringify_args : list V → outcome string.
Variable JSON_stringify : V → outcome (option string).
Variable JSON_parse : string → outcome V.
Variable sha256_hex : string → string.
Variable path_join : string → string → string.
Variable cacheDir : string.
Variable fn : list V → W → outcome (V * W).

(** A call never changes or removes a file that exists. *)
Lemma cached_call_keeps_files args st v st' f c :
  cached_call string_of JSON_stringify_args JSON_stringify JSON_parse sha256_hex
    path_join cacheDir fn args st = Ok (v, st') →
  st.1 !! f = Some c → st'.1 !! f = Some c.
Proof.
  unfold cached_call.
  destruct (cache_file _ _ _ _ _ args) as [cf| | |]; try done.
  cbn [mbind outcome_bind]. destruct (st.1 !! cf) as [content|] eqn:Hcf.
  - destruct (JSON_parse content); try done. cbn. by intros [= _ <-].
  - destruct (fn args st.2) as [[r w']| | |]; try done. cbn [mbind outcome_bind].
    destruct (JSON_stringify r) as [[t|]| | |]; try done. cbn [mbind outcome_bind].
    intros [= _ <-] Hf. cbn [fst]. rewrite lookup_insert_ne; [done|].
    intros ->. congruence.
Qed.

Lemma cached_calls_keep_files cs : ∀ st st' f c,
  cached_calls string_of JSON_stringify_args JSON_stringify JSON_parse sha256_hex
    path_join cacheDir fn cs st = Ok st' →
  st.1 !! f = Some c → st'.1 !! f = Some c.
Proof.
  induction cs as [|args cs IH]; intros st st' f c; cbn [cached_calls].
  - by intros [= <-].
  - destruct (cached_call _ _ _ _ _ _ _ _ args st) as [[v st1]| | |] eqn:Hc;
      try done.
    cbn [mbind outcome_bind]. intros Hcs Hf.
    apply (IH _ _ _ _ Hcs). by apply (cached_call_keeps_files _ _ _ _ _ _ Hc).
Qed.

(** X18.  Once a call of the cached function has returned, its cache file
    exists, and no later call with any arguments changes it.  A later call
    with the same arguments does not run [fn] and leaves every file and the
    state of [fn] as they are: it returns what [JSON.parse] makes of the
    file, which holds the JSON text of the value the first call computed
    when that call created the file. *)
Theorem cached_result_is_replayed args later st v st1 st2 :
  cached_call string_of JSON_stringify_args JSON_stringify JSON_parse sha256_hex
    path_join cacheDir fn args st = Ok (v, st1) →
  cached_calls string_of JSON_stringify_args JSON_stringify JSON_parse sha256_hex
    path_join cacheDir fn later st1 = Ok st2 →
  ∃ cacheFile content,
    cache_file string_of JSON_stringify_args sha256_hex path_join cacheDir args
      = Ok cacheFile
    ∧ st1.1 !! cacheFile = Some content ∧ st2.1 !! cacheFile = Some content
    ∧ (st.1 !! cacheFile = None → JSON_stringify v = Ok (Some content))
    ∧ cached_call string_of JSON_stringify_args JSON_stringify JSON_parse
        sha256_hex path_join cacheDir fn args st2
      = (result ← JSON_parse content; Ok (result, st2)).
Proof.
  intros Hc Hcs.
  assert (H1 : ∃ cf content,
            cache_file string_of JSON_stringify_args sha256_hex path_join cacheDir
              args = Ok cf
            ∧ st1.1 !! cf = Some content
            ∧ (st.1 !! cf = None → JSON_stringify v = Ok (Some content))).
  { revert Hc. unfold cached_call.
    destruct (cache_file _ _ _ _ _ args) as [cf| | |]; try done.
    cbn [mbind outcome_bind]. destruct (st.1 !! cf) as [content|] eqn:Hcf.
    - destruct (JSON_parse content); try done. cbn. intros [= _ <-].
      exists cf, content. splits; [done|done|]. intros ?. congruence.
    - destruct (fn args st.2) as [[r w']| | |]; try done. cbn [mbind outcome_bind].
      destruct (JSON_stringify r) as [[t|]| | |] eqn:Ht; try done.
      cbn [mbind outcome_bind]. intros [= <- <-]. exists cf, t.
      splits; [done | apply lookup_insert_eq | done]. }
  destruct H1 as (cf & content & Hcf & Hl1 & Hfresh).
  exists cf, content. splits; try done.
  - by apply (cached_calls_keep_files later st1).
  - unfold cached_call. rewrite Hcf. cbn [mbind outcome_bind].
    by rewrite (cached_calls_keep_files later st1 st2 cf content Hcs Hl1).
Qed.
End FileCacheProps.

(** A cache over strings whose function counts its runs: the second call
    with the same command finds the file and the count stays at one. *)
Lemma cached_result_is_replayed_witness :
  let run := cached_call (V := string) (W := nat) Some
               (fun a => Ok (String.concat "," a)) (fun v => Ok (Some v)) Ok
               (fun k => k) (fun d f => d +:+ "/" +:+ f) ".cache"
               (fun a n => Ok ("{}", S n)) in
  ∃ st1, run ["curl x"] (∅, 0%nat) = Ok ("{}", st1)
         ∧ run ["curl x"] st1 = Ok ("{}", st1) ∧ st1.2 = 1%nat.
Proof.
  intros run. subst run.
  assert (H1 : cached_call (V := string) (W := nat) Some
                 (fun a => Ok (String.concat "," a)) (fun v => Ok (Some v)) Ok
                 (fun k => k) (fun d f => d +:+ "/" +:+ f) ".cache"
                 (fun a n => Ok ("{}", S n)) ["curl x"] (∅, 0%nat)
               = Ok ("{}", (<[".cache/curl_x_curl x.json" := "{}"]> ∅, 1%nat))).
  { reflexivity. }
  eexists. split; [exact H1|].
  destruct (cached_result_is_replayed (V := string) (W := nat) Some
              (fun a => Ok (String.concat "," a)) (fun v => Ok (Some v)) Ok
              (fun k => k) (fun d f => d +:+ "/" +:+ f) ".cache"
              (fun a n => Ok ("{}", S n)) ["curl x"] [] (∅, 0%nat) "{}"
              (<[".cache/curl_x_curl x.json" := "{}"]> ∅, 1%nat)
              (<[".cache/curl_x_curl x.json" := "{}"]> ∅, 1%nat)
              H1 eq_refl)
    as (cf & content & Hcf & Hl1 & _ & Hfresh & Hcall).
  injection Hcf as <-.
  assert (content = "{}") as ->.
  { specialize (Hfresh (lookup_empty _)). by injection Hfresh. }
  split; [exact Hcall | done].
Defined.

(** * The stitch and the enrichment together *)

Lemma attach_one_view {A} (g : CallNode loc → A) pm li e st st' :
  (∀ ls x, g (with_logs ls x (calls x)) = g x) →
  (∀ c x, g (with_calls c x) = g x) →
  attach_one pm li e st = Ok st' → same_view g (tree st) (tree st').
Proof.
  intros Hl Hc. unfold attach_one. destruct (map_get _ pm) as [pos|].
  2:{ intros [= <-]. apply same_view_refl. }
  destruct (root_at (tree st) pos) as [n|] eqn:Hn; [|done].
  destruct (receipt_logs (memory st) !! li) as [l|]; [|done].
  unfold push_log. rewrite Hn. destruct (logs n) as [ls|]; [|done].
  destruct (update_root _ (tree st) pos) as [r|] eqn:Hu; [|done].
  cbn [mbind outcome_bind]. intros [= <-]. cbn [tree].
  eapply update_root_view; [| | |exact Hu]; [by intros [] | intros x; apply Hl | done].
Qed.

Lemma attach_loop_view {A} (g : CallNode loc → A) pm :
  (∀ ls x, g (with_logs ls x (calls x)) = g x) →
  (∀ c x, g (with_calls c x) = g x) →
  ∀ evs li st st' n,
    attach_loop pm li evs st = Ok (st', n) → same_view g (tree st) (tree st').
Proof.
  intros Hl Hc. induction evs as [|e evs IH]; intros li st st' n; cbn [attach_loop].
  - intros [= <- _]. apply same_view_refl.
  - destruct (li <? length (receipt_logs (memory st)))%nat.
    2:{ intros [= <- _]. apply same_view_refl. }
    destruct (attach_one pm li e st) as [st1| | |] eqn:Ha; try done.
    cbn [mbind outcome_bind]. intros Hloop.
    eapply same_view_trans; [by eapply attach_one_view | by eapply IH].
Qed.

Lemma stitch_walk_view {A} (g : CallNode loc → A) root structLogs mem st :
  (∀ m t f o i ou v ga gu kids kids' l l' p p',
     g (mkCallNode m t f o i ou v ga gu kids l p)
     = g (mkCallNode m t f o i ou v ga gu kids' l' p')) →
  stitch_walk root structLogs mem = Ok st → same_view g root (tree st).
Proof.
  intros Hg. unfold stitch_walk.
  destruct (deriveEventPathsRevertAware structLogs) as [events| | |]; try done.
  cbn [mbind outcome_bind].
  destruct (annotateCallPaths root) as [root0 pm] eqn:Hann.
  destruct (init_logs pm root0) as [root1| | |] eqn:Hinit; try done.
  cbn [mbind outcome_bind].
  destruct (attach_loop pm 0 events _) as [[st1 li]| | |] eqn:Hloop; try done.
  cbn [mbind outcome_bind]. intros [= <-]. cbn [leftover_loop tree].
  assert (Hl : ∀ ls x, g (with_logs ls x (calls x)) = g x).
  { intros ls []. apply Hg. }
  assert (Hc : ∀ c x, g (with_calls c x) = g x).
  { intros c []. apply Hg. }
  eapply same_view_trans; [|eapply same_view_trans].
  - apply (annotate_view g root root0 pm); [|done]. intros. apply Hg.
  - apply (init_logs_view g pm); [|done|exact Hinit]. intros x. apply Hl.
  - apply (attach_loop_view g pm Hl Hc _ _ _ _ _ Hloop).
Qed.

(** X19.  A stitch that returns has changed nothing but [logs] and [_path]:
    the returned tree has a node exactly where the given tree has one, and
    the node has the method, type, addresses, input, output, value and gas
    figures it had. *)
Theorem stitch_changes_logs_and_paths_only root structLogs mem b st q :
  stitchLogsIntoCallTrace root structLogs mem b = Ok st →
  call_fields <$> root_at (tree st) q = call_fields <$> root_at root q.
Proof.
  intros Hst%stitch_returns_walk.
  by apply (stitch_walk_view call_fields root structLogs mem st).
Qed.

Lemma stitch_changes_logs_and_paths_only_witness :
  ∃ st,
    stitchLogsIntoCallTrace (one_call_tree "CALL") one_call_trace
      (memory_of [log_with_address target_addr]) false = Ok st
    ∧ call_fields <$> root_at (tree st) [0%nat]
      = call_fields <$> root_at (one_call_tree "CALL") [0%nat].
Proof.
  assert (Hst : ∃ st,
            stitchLogsIntoCallTrace (one_call_tree "CALL") one_call_trace
              (memory_of [log_with_address target_addr]) false = Ok st).
  { eexists. vm_compute. reflexivity. }
  destruct Hst as [st Hst]. exists st. split; [done|].
  exact (stitch_changes_logs_and_paths_only _ _ _ _ _ [0%nat] Hst).
Defined.

(** X20.  The stitch followed by the enrichment, for a trace with depths in
    the 1-based range: wherever the given tree has a node, the final tree
    has one with the same type, addresses and input; its method is the label
    of that input, and its logs are the receipt logs number i for which
    event number i exists and has the node's position as call path, in
    order, each with the fields of the receipt log and with what
    [parseEvent] makes of it. *)
Theorem stitched_then_enriched {P : Type} (selectors : gmap string string)
  (topic_table : gmap string (string * (ReceiptLog → P)))
  root structLogs mem b st :
  depths_ok structLogs →
  stitchLogsIntoCallTrace root structLogs mem b = Ok st →
  ∃ events,
    deriveEventPathsRevertAware structLogs = Ok events
    ∧ ∀ q n, root_at root q = Some n →
        ∃ n',
          root_at (enrichTraceWithCallAndEventDetails selectors topic_table
                     (memory st) (tree st)) q = Some n'
          ∧ (type n', from n', to n', input n') = (type n, from n, to n, input n)
          ∧ method n' = method_label selectors (input n)
          ∧ logs n' =
              Some ((fun l : loc =>
                       {| fields := log_object mem l;
                          parsed := parseEvent topic_table (log_object mem l) |})
                    <$> logs_for q events (receipt_logs mem)).
Proof.
  intros Hok Hst%stitch_returns_walk.
  destruct (stitch_walk_logs root structLogs mem Hok)
    as (events & st' & Hd & Hwalk & Hmem & Hlogs).
  rewrite Hst in Hwalk. injection Hwalk as <-.
  exists events. split; [done|]. intros q n Hn.
  pose proof (stitch_walk_view call_fields root structLogs mem st
                ltac:(done) Hst q) as Hview.
  rewrite Hn in Hview. destruct (root_at (tree st) q) as [n1|] eqn:Hn1; [|done].
  cbn in Hview. injection Hview as Hm Ht Hf Hto Hi _ _ _ _.
  rewrite enrich_root_at, Hn1. eexists. split; [done|].
  pose proof (Hlogs _ _ Hn1) as Hl1.
  destruct n1 as [m1 t1 f1 o1 i1 ou1 v1 g1 gu1 kids1 l1 p1].
  cbn [enrichCall type from to input method logs] in *.
  splits; [congruence | congruence |].
  rewrite Hl1, Hmem. done.
Qed.

Lemma stitched_then_enriched_witness :
  ∃ st n',
    stitchLogsIntoCallTrace (one_call_tree "CALL") one_call_trace
      (memory_of [log_with_address target_addr]) false = Ok st
    ∧ root_at (enrichTraceWithCallAndEventDetails (P := unit) example_selectors ∅
                 (memory st) (tree st)) [0%nat] = Some n'
    ∧ logs n' = Some [{| fields := log_with_address target_addr;
                         parsed := Undecoded [] "0x" |}].
Proof.
  assert (Hst : ∃ st,
            stitchLogsIntoCallTrace (one_call_tree "CALL") one_call_trace
              (memory_of [log_with_address target_addr]) false = Ok st).
  { eexists. vm_compute. reflexivity. }
  destruct Hst as [st Hst].
  assert (Hok : depths_ok one_call_trace).
  { unfold depths_ok, one_call_trace. repeat constructor; cbn; lia. }
  destruct (stitched_then_enriched (P := unit) example_selectors ∅ _ _ _ _ _
              Hok Hst) as (events & Hd & Hall).
  assert (Hn : is_Some (root_at (one_call_tree "CALL") [0%nat]))
    by (vm_compute; by eexists).
  destruct Hn as [n Hn]. destruct (Hall [0%nat] n Hn) as (n' & Hn' & _ & _ & Hl).
  exists st, n'. splits; [done|done|]. rewrite Hl.
  vm_compute in Hd. injection Hd as <-. reflexivity.
Defined.

(** * Depth and path length on well-nested traces *)

Lemma nested_from_depths_ok steps : ∀ d entered,
  nested_from d entered steps → depths_ok steps.
Proof.
  induction steps as [|s rest IH]; intros d entered; [by intros; apply Forall_nil|].
  intros (Hd & _ & Hrest). apply Forall_cons. split; [done | by eapply IH].
Qed.

Lemma resolve_pending_length d st st1 :
  resolve_pending d st = Ok st1 →
  length (frames st1) =
    (if confirmed d st then S (length (frames st)) else length (frames st)).
Proof.
  unfold resolve_pending, confirmed.
  destruct (pending st) as [[parent idx]|]; [|by intros [= <-]].
  destruct (prevDepth st <? d).
  - destruct (frame_at (frames st) parent); [|done]. by intros [= <-].
  - by intros [= <-].
Qed.

Lemma pop_frames_length d : 1 <= d → ∀ fs evs fs' evs',
  pop_frames d fs evs = Ok (fs', evs') →
  length fs' = min (length fs) (Z.to_nat d).
Proof.
  intros Hd. induction fs as [|f fs IH]; intros evs fs' evs'; cbn [pop_frames].
  - destruct (d - 1 <? 0 - 1); [done|]. by intros [= <- _].
  - destruct (d - 1 <? Z.of_nat (length (f :: fs)) - 1) eqn:Hlt.
    + destruct (if reverted f then mark_dropped (logsIdx f) evs else Ok evs)
        as [evs1| | |]; try done.
      cbn [mbind outcome_bind]. intros H%IH. rewrite H.
      apply Z.ltb_lt in Hlt. cbn [length] in *. lia.
    + intros [= <- _]. apply Z.ltb_ge in Hlt. cbn [length] in *. lia.
Qed.

Lemma settle_length s st st2 :
  1 <= depth s → settle s st = Ok st2 →
  length (frames st2) =
    min (if confirmed (depth s) st then S (length (frames st))
         else length (frames st))
        (Z.to_nat (depth s)).
Proof.
  intros Hd. unfold settle.
  destruct (resolve_pending (depth s) st) as [st1| | |] eqn:Hres; try done.
  cbn [mbind outcome_bind]. unfold pop_phase.
  destruct (pop_frames (depth s) (frames st1) (events st1)) as [[fs evs]| | |] eqn:Hpop;
    try done.
  cbn [mbind outcome_bind]. intros [= <-]. cbn [frames].
  rewrite (pop_frames_length _ Hd _ _ _ _ Hpop).
  by rewrite (resolve_pending_length _ _ _ Hres).
Qed.

Lemma nested_history_depth steps : ∀ h st d entered,
  nested_from d entered steps → Inv h st →
  Z.of_nat (length (frames st)) = d → prevDepth st = d →
  (is_Some (pending st) ↔ entered = true) →
  ∀ x, x ∈ history_from st steps → Z.of_nat (length x.2) + 1 = depth x.1.
Proof.
  induction steps as [|s rest IH]; intros h st d entered Hn HI Hlen Hpd Hpend x.
  { by intros ?%elem_of_nil. }
  destruct Hn as (Hd & Hcase & Hrest).
  destruct (settle_inv _ _ _ Hd HI ltac:(lia)) as (st2 & cur & rest' & Hs & HI2 & Hp2
                                                   & Hfs2 & _).
  destruct (effects_inv _ _ s _ _ HI2 Hp2 Hfs2)
    as (st' & cur' & He & HI' & Hfs' & _ & Hpd' & Hpend' & _).
  assert (Hexact : Z.of_nat (length (frames st2)) = depth s).
  { rewrite (settle_length _ _ _ Hd Hs). unfold confirmed.
    destruct Hcase as [Hle|[-> Heq]].
    - assert ((prevDepth st <? depth s) = false) as -> by (apply Z.ltb_ge; lia).
      destruct (pending st); lia.
    - destruct (proj2 Hpend eq_refl) as [pe ->].
      assert ((prevDepth st <? depth s) = true) as -> by (apply Z.ltb_lt; lia).
      lia. }
  cbn [history_from]. rewrite Hs, Hfs2, He.
  intros [->|Hx]%elem_of_cons.
  - cbn [fst snd].
    pose proof (chain_lookup_length _ (inv_chain _ _ HI2) 0 cur) as Hc.
    rewrite Hfs2 in Hc, Hexact. specialize (Hc eq_refl). cbn [length] in *. lia.
  - apply (IH _ st' (depth s) (ENTER (op s)) Hrest HI'); [| done | | done].
    + rewrite Hfs'. rewrite Hfs2 in Hexact. exact Hexact.
    + rewrite Hpend'. destruct (ENTER (op s)).
      * split; [done | by intros _; eexists].
      * split; [by intros [? ?] | done].
Qed.

(** X14.  On a trace that starts at depth 1 and whose depth grows by one at
    a time, right after a CALL- or CREATE-family step only, depth and call
    path agree: every returned record of a step at depth d has a call path
    of exactly d - 1 indices. *)
Theorem record_depth_is_path_length steps :
  well_nested steps →
  ∃ out, deriveEventPathsRevertAware steps = Ok out
         ∧ ∀ r, r ∈ out → Z.of_nat (length (callPath r)) + 1 = ep_depth r.
Proof.
  intros Hn. pose proof (nested_from_depths_ok _ _ _ Hn) as Hok.
  destruct (derive_characterised steps Hok) as (st & _ & _ & _ & Hd & Hc).
  eexists. split; [exact Hd|]. intros r Hr.
  assert (Hin : ep_core r ∈ ep_core <$> assign_ordinals (events st) ∅).
  { apply list_elem_of_fmap. by exists r. }
  rewrite Hc in Hin. apply list_elem_of_fmap in Hin as (x & Hx & Hin).
  apply list_elem_of_filter in Hin as [_ Hin].
  assert (Hdepth : Z.of_nat (length x.2) + 1 = depth x.1).
  { apply (nested_history_depth steps [] (init_state steps) 1 false Hn
             (init_state_inv steps)); [done| |by split; [intros [? ?]|]|exact Hin].
    destruct steps as [|s rest]; [done|]. cbn.
    destruct Hn as (? & [?|[? _]] & _); [lia|done]. }
  unfold ep_core, entry_core in Hx. injection Hx as _ _ -> ->. exact Hdepth.
Qed.

Lemma record_depth_is_path_length_witness :
  ∃ out, deriveEventPathsRevertAware logging_call_trace = Ok out
         ∧ Forall (fun r => Z.of_nat (length (callPath r)) + 1 = ep_depth r) out.
Proof.
  destruct (record_depth_is_path_length logging_call_trace) as (out & Hd & Hall).
  - unfold well_nested, logging_call_trace. cbn. repeat split; try lia; auto.
  - exists out. split; [done|]. by apply Forall_forall.
Defined.

(** * The address check and the case of letters *)

Lemma toLowerCase_empty s : toLowerCase s = "" ↔ s = "".
Proof. by destruct s. Qed.

Lemma truthy_toLowerCase s : truthy (toLowerCase s) = truthy s.
Proof. by destruct s. Qed.

Lemma lower_ascii_idemp c : lower_ascii (lower_ascii c) = lower_ascii c.
Proof.
  unfold lower_ascii.
  destruct ((65 <=? nat_of_ascii c)%nat && (nat_of_ascii c <=? 90)%nat) eqn:Hc.
  - apply andb_true_iff in Hc as [H1%Nat.leb_le H2%Nat.leb_le].
    rewrite nat_ascii_embedding by lia.
    rewrite (proj2 (Nat.leb_gt (nat_of_ascii c + 32) 90)) by lia.
    by rewrite andb_false_r.
  - by rewrite Hc.
Qed.

Lemma toLowerCase_idemp s : toLowerCase (toLowerCase s) = toLowerCase s.
Proof.
  induction s as [|c s IH]; [done|]. cbn [toLowerCase].
  by rewrite lower_ascii_idemp, IH.
Qed.

(** X21.  The address check does not depend on the case of letters: two
    nodes of the same type whose addresses agree up to case, and two log
    addresses that agree up to case, get the same verdict, and the expected
    address is in lower case. *)
Theorem address_check_ignores_case {L} (n n' : CallNode L) (a a' : string) :
  type n = type n' →
  toLowerCase <$> from n = toLowerCase <$> from n' →
  toLowerCase <$> to n = toLowerCase <$> to n' →
  toLowerCase a = toLowerCase a' →
  expectedLogAddressForNode n = expectedLogAddressForNode n'
  ∧ toLowerCase <$> expectedLogAddressForNode n = expectedLogAddressForNode n
  ∧ address_disagrees (expectedLogAddressForNode n) a
    = address_disagrees (expectedLogAddressForNode n') a'.
Proof.
  intros Ht Hf Hto Ha.
  assert (He : expectedLogAddressForNode n = expectedLogAddressForNode n').
  { unfold expectedLogAddressForNode. rewrite <- Ht.
    destruct (type n) as [t|]; [|done]. by destruct (_ || _). }
  splits; [done| |].
  - unfold expectedLogAddressForNode.
    destruct (type n) as [t|]; [destruct (_ || _)|];
      (destruct (from n), (to n); cbn; by rewrite ?toLowerCase_idemp).
  - rewrite <- He. unfold address_disagrees.
    destruct (expectedLogAddressForNode n) as [ex|]; [|done].
    rewrite <- (truthy_toLowerCase a), <- (truthy_toLowerCase a'), Ha. done.
Qed.

Lemma address_check_ignores_case_witness :
  address_disagrees
    (expectedLogAddressForNode (traced "CALL" caller_addr "0xBbBb" None None)) "0xbbbb"
  = address_disagrees
      (expectedLogAddressForNode (traced "CALL" caller_addr target_addr None None))
      "0xBBBB".
Proof.
  apply (address_check_ignores_case
           (traced "CALL" caller_addr "0xBbBb" None None)
           (traced "CALL" caller_addr target_addr None None) "0xbbbb" "0xBBBB");
    reflexivity.
Defined.

(** * Logs at the top level, and logs attached once *)

(** X22.  The root frame is never popped, so nothing is ever dropped from
    it: for depths in the 1-based range, the record of every LOG step that
    is processed in the root frame (call path []) is returned, also when a
    REVERT step was processed there. *)
Theorem top_level_records_are_returned steps :
  depths_ok steps →
  ∃ out,
    deriveEventPathsRevertAware steps = Ok out
    ∧ ∀ s, (s, []) ∈ history steps → is_LOG (op s) = true →
           (op s, pc s, depth s, []) ∈ ep_core <$> out.
Proof.
  intros Hok.
  destruct (derive_characterised steps Hok) as (st & _ & HI & _ & Hd & Hc).
  exists (assign_ordinals (events st) ∅). split; [done|].
  intros s Hs Hlog. rewrite Hc. apply list_elem_of_fmap.
  exists (s, []). split; [done|]. apply list_elem_of_filter.
  split; [|done]. split; [done|]. intros [_ Hnot]. apply Hnot.
  destruct (chain_last _ (inv_chain _ _ HI)) as (r & Hlast & Hr).
  apply list_elem_of_fmap. exists r. split; [done|].
  by apply last_Some_elem_of.
Qed.

Lemma top_level_records_are_returned_witness :
  ∃ out,
    deriveEventPathsRevertAware [mkStep "LOG1" 1 0; mkStep "REVERT" 1 1] = Ok out
    ∧ ("LOG1", 0%nat, 1, []) ∈ ep_core <$> out.
Proof.
  destruct (top_level_records_are_returned [mkStep "LOG1" 1 0; mkStep "REVERT" 1 1])
    as (out & Hd & Hin).
  - repeat constructor; cbn; lia.
  - exists out. split; [done|]. apply (Hin (mkStep "LOG1" 1 0)); [|done].
    vm_compute. apply list_elem_of_here.
Defined.

Lemma logs_for_sublist q events : ∀ refs, logs_for q events refs `sublist_of` refs.
Proof.
  unfold logs_for. induction events as [|e events IH]; intros refs.
  { apply sublist_nil_l. }
  destruct refs as [|l refs]; [apply sublist_nil_l|].
  cbn [zip_with]. rewrite filter_cons. cbn [fst].
  destruct (decide (callPath e = q)).
  - rewrite fmap_cons. cbn [snd]. apply sublist_skip, IH.
  - apply sublist_cons, IH.
Qed.

Lemma elem_of_logs_for q events refs l :
  l ∈ logs_for q events refs ↔
  ∃ i e, refs !! i = Some l ∧ events !! i = Some e ∧ callPath e = q.
Proof.
  unfold logs_for. rewrite list_elem_of_fmap. split.
  - intros ([e l'] & -> & Hin). apply list_elem_of_filter in Hin as [Hq Hin].
    apply elem_of_lookup_zip_with in Hin as (i & x & y & [= <- <-] & Hx & Hy).
    by exists i, e.
  - intros (i & e & Hl & He & Hq). exists (e, l). split; [done|].
    apply list_elem_of_filter. split; [done|].
    apply elem_of_lookup_zip_with. by exists i, e, l.
Qed.

(** X23.  No receipt log is attached twice.  When the stitch returns and the
    receipt's log objects are distinct, the [logs] array of every node is
    free of repetitions, and a receipt log is in the array of the node at
    position [q] exactly when it is log number i for an event number i with
    call path [q]: the log paired with an event goes to the node at the
    event's call path and to no other node, and a log without an event goes
    nowhere. *)
Theorem each_log_is_attached_once root structLogs mem b st :
  depths_ok structLogs →
  stitchLogsIntoCallTrace root structLogs mem b = Ok st →
  NoDup (receipt_logs mem) →
  ∃ events,
    deriveEventPathsRevertAware structLogs = Ok events
    ∧ ∀ q node, root_at (tree st) q = Some node →
        ∃ ls, logs node = Some ls ∧ NoDup ls
              ∧ ∀ l, l ∈ ls ↔
                     ∃ i e, receipt_logs mem !! i = Some l
                            ∧ events !! i = Some e ∧ callPath e = q.
Proof.
  intros Hok Hst%stitch_returns_walk Hnd.
  destruct (stitch_walk_logs root structLogs mem Hok)
    as (events & st' & Hd & Hwalk & _ & Hlogs).
  rewrite Hst in Hwalk. injection Hwalk as <-.
  exists events. split; [done|]. intros q node Hq.
  exists (logs_for q events (receipt_logs mem)). splits.
  - by apply Hlogs.
  - eapply sublist_NoDup; [exact Hnd | apply logs_for_sublist].
  - intros l. apply elem_of_logs_for.
Qed.

Lemma each_log_is_attached_once_witness :
  ∃ st node ls,
    stitchLogsIntoCallTrace sibling_calls_tree sibling_calls_trace
      (memory_of [log_with_address target_addr; log_with_address other_addr]) false
    = Ok st
    ∧ root_at (tree st) [0%nat] = Some node
    ∧ logs node = Some ls ∧ NoDup ls.
Proof.
  assert (Hst : ∃ st,
            stitchLogsIntoCallTrace sibling_calls_tree sibling_calls_trace
              (memory_of [log_with_address target_addr; log_with_address other_addr])
              false = Ok st ∧ is_Some (root_at (tree st) [0%nat])).
  { eexists. split; [vm_compute; reflexivity|]. vm_compute. by eexists. }
  destruct Hst as (st & Hst & [node Hn]).
  assert (Hok : depths_ok sibling_calls_trace).
  { unfold depths_ok, sibling_calls_trace. repeat constructor; cbn; lia. }
  assert (Hnd : NoDup (receipt_logs
                  (memory_of [log_with_address target_addr;
                              log_with_address other_addr]))).
  { cbn. apply NoDup_cons. split; [|apply NoDup_singleton].
    intros ?%list_elem_of_singleton. lia. }
  destruct (each_log_is_attached_once _ _ _ _ _ Hok Hst Hnd) as (events & _ & Hall).
  destruct (Hall _ _ Hn) as (ls & Hls & Hndls & _).
  exists st, node, ls. splits; [exact Hst | exact Hn | exact Hls | exact Hndls].
Defined.

(** ** Which frames are popped, read off the depths of the trace *)












(** ** The lock-step walk, as seen in its result *)

Lemma walk_warning_lines root mem i e l :
  Forall walk_line (walk_warning root mem i e l)
  ∧ (length (walk_warning root mem i e l) <= 1)%nat.
Proof.
  unfold walk_warning. destruct (root_at root (callPath e)) as [node|].
  - destruct (address_disagrees _ _); cbn; (split; [|lia]); [|by apply Forall_nil].
    apply Forall_singleton, address_mismatch_walk_line.
  - cbn. split; [|lia]. apply Forall_singleton, no_node_walk_line.
Qed.

Lemma join_imap_lines {A} (Q : string → Prop) (ps : list A) :
  ∀ f : nat → A → list string,
  (∀ i x, Forall Q (f i x) ∧ (length (f i x) <= 1)%nat) →
  Forall Q (mjoin (imap f ps)) ∧ (length (mjoin (imap f ps)) <= length ps)%nat.
Proof.
  induction ps as [|x ps IH]; intros f Hf; [split; [by apply Forall_nil | cbn; lia]|].
  rewrite imap_cons. change (mjoin (f 0%nat x :: imap (f ∘ S) ps))
    with (f 0%nat x ++ mjoin (imap (f ∘ S) ps)).
  destruct (Hf 0%nat x) as [H1 H2].
  destruct (IH (f ∘ S)) as [H3 H4]; [intros i y; apply Hf|].
  rewrite length_app. split; [by apply Forall_app | cbn [length]; lia].
Qed.

Lemma walk_warnings_lines root mem events refs :
  Forall walk_line (walk_warnings root mem events refs)
  ∧ (length (walk_warnings root mem events refs)
     <= min (length events) (length refs))%nat.
Proof.
  unfold walk_warnings. rewrite <- (length_zip_with pair events refs).
  apply join_imap_lines. intros i [e l]. apply walk_warning_lines.
Qed.

(** C7.  With E derived events and L receipt logs, the warnings of the walk
    are, in this order: the count-mismatch line exactly when E ≠ L (so it
    precedes everything the attachment produces); the lines of the
    attachment, which goes through the pairs (event i, receipt log i) for
    i < min(E, L) in order, each pair giving at most one line, none of them
    a count or leftover line; and one leftover line for each log index from
    min(E, L) up to L - 1.  The attachment pairs in lock-step: the tree keeps
    the positions of the input, and the [logs] of the node at a position are
    the receipt logs number i, in order, for which event number i carries
    that position as its path. *)
Theorem count_mismatch_lockstep_leftovers root structLogs mem :
  depths_ok structLogs →
  ∃ events st,
    deriveEventPathsRevertAware structLogs = Ok events
    ∧ stitch_walk root structLogs mem = Ok st
    ∧ warnings st =
        (if decide (length events = length (receipt_logs mem)) then []
         else [count_mismatch_warning (length events) (length (receipt_logs mem))])
        ++ mjoin (imap (fun i er => walk_warning root mem i er.1 er.2)
                    (zip events (receipt_logs mem)))
        ++ (leftover_warning <$>
              seq (min (length events) (length (receipt_logs mem)))
                  (length (receipt_logs mem)
                   - min (length events) (length (receipt_logs mem))))
    ∧ length (zip events (receipt_logs mem))
      = min (length events) (length (receipt_logs mem))
    ∧ (∀ i e l, Forall walk_line (walk_warning root mem i e l)
                ∧ (length (walk_warning root mem i e l) <= 1)%nat)
    ∧ (∀ q, is_Some (root_at (tree st) q) ↔ is_Some (root_at root q))
    ∧ (∀ q node, root_at (tree st) q = Some node →
         logs node = Some (logs_for q events (receipt_logs mem)))
    ∧ (∀ q l, l ∈ logs_for q events (receipt_logs mem) ↔
         ∃ i e, receipt_logs mem !! i = Some l ∧ events !! i = Some e
                ∧ callPath e = q)
    ∧ filter (fun w => is_leftover_line w = true) (warnings st) =
        leftover_warning <$>
          seq (min (length events) (length (receipt_logs mem)))
              (length (receipt_logs mem)
               - min (length events) (length (receipt_logs mem)))
    ∧ filter (fun w => is_count_line w = true) (warnings st) =
        (if decide (length events = length (receipt_logs mem)) then []
         else [count_mismatch_warning (length events) (length (receipt_logs mem))]).
Proof.
  intros Hok.
  destruct (stitch_walk_warnings root structLogs mem Hok)
    as (events & st & Hd & Hwalk & Hw).
  destruct (stitch_walk_logs root structLogs mem Hok)
    as (events' & st' & Hd' & Hwalk' & _ & Hlogs).
  rewrite Hd in Hd'. injection Hd' as <-.
  rewrite Hwalk in Hwalk'. injection Hwalk' as <-.
  exists events, st.
  set (E := length events) in *. set (L := length (receipt_logs mem)) in *.
  assert (Hseq : seq E (L - E) = seq (min E L) (L - min E L)).
  { destruct (decide (E <= L)%nat).
    - by rewrite Nat.min_l by lia.
    - rewrite Nat.min_r by lia. by replace (L - E)%nat with 0%nat by lia;
        replace (L - L)%nat with 0%nat by lia. }
  rewrite Hseq in Hw. fold (walk_warnings root mem events (receipt_logs mem)).
  destruct (walk_warnings_lines root mem events (receipt_logs mem)) as [Hwf _].
  split; [exact Hd|]. split; [exact Hwalk|]. split; [exact Hw|].
  split; [apply length_zip_with|].
  split; [intros i e l; apply walk_warning_lines|].
  split.
  { intros q.
    pose proof (stitch_walk_view (fun _ : CallNode loc => tt) root structLogs mem st
                  (fun _ _ _ _ _ _ _ _ _ _ _ _ _ _ _ => eq_refl) Hwalk q) as Hv.
    destruct (root_at (tree st) q), (root_at root q); cbn in Hv; try done.
    all: split; by eauto. }
  split; [exact Hlogs|].
  split; [intros q l; apply elem_of_logs_for|].
  split.
  - rewrite Hw, !filter_app, filter_leftover_lines.
    rewrite (filter_walk_lines is_leftover_line (walk_warnings _ _ _ _))
      by (eapply Forall_impl; [exact Hwf|]; by intros w [? _]).
    destruct (decide _); [done|].
    by rewrite filter_cons_False by (by rewrite count_not_leftover).
  - rewrite Hw, !filter_app.
    rewrite (filter_walk_lines is_count_line (walk_warnings _ _ _ _))
      by (eapply Forall_impl; [exact Hwf|]; by intros w [_ ?]).
    rewrite (filter_walk_lines is_count_line (leftover_warning <$> _))
      by (apply Forall_fmap, Forall_forall; by intros li _).
    rewrite !app_nil_r. destruct (decide _); [done|].
    rewrite filter_cons_True; [done|]. apply prefix_append.
Qed.

Lemma count_mismatch_lockstep_leftovers_witness :
  ∃ st n0 n1,
    stitch_walk sibling_calls_tree sibling_calls_trace
      (memory_of [log_with_address target_addr; log_with_address other_addr;
                  log_with_address other_addr]) = Ok st
    ∧ root_at (tree st) [0%nat] = Some n0 ∧ logs n0 = Some [100%nat]
    ∧ root_at (tree st) [1%nat] = Some n1 ∧ logs n1 = Some [101%nat]
    ∧ warnings st = [count_mismatch_warning 2 3; leftover_warning 2].
Proof.
  destruct (count_mismatch_lockstep_leftovers sibling_calls_tree sibling_calls_trace
              (memory_of [log_with_address target_addr; log_with_address other_addr;
                          log_with_address other_addr]))
    as (events & st & Hd & Hwalk & Hw & _ & _ & Hpos & Hlogs & _).
  - unfold depths_ok, sibling_calls_trace. repeat constructor; cbn; lia.
  - vm_compute in Hd. injection Hd as <-.
    destruct (proj2 (Hpos [0%nat])) as [n0 Hn0]; [vm_compute; by eexists|].
    destruct (proj2 (Hpos [1%nat])) as [n1 Hn1]; [vm_compute; by eexists|].
    exists st, n0, n1.
    split; [exact Hwalk|]. split; [exact Hn0|]. split; [exact (Hlogs _ _ Hn0)|].
    split; [exact Hn1|]. split; [exact (Hlogs _ _ Hn1)|].
    rewrite Hw. vm_compute. reflexivity.
Defined.
